(** * Paceline core: agent-spec parsing

    Shallow embedding of [packages/core/src/schema.ts] and
    [packages/core/src/parse.ts].  The schema file is written with the zod 3
    combinators ([z.object], [z.string().min().regex()], [z.enum], [z.array],
    [z.union], [.optional()]); they are embedded below with zod's synchronous
    parse semantics (status valid / dirty / aborted, issues pushed on the
    shared context in call order, a child context per union option, an
    exception of an error map escaping every caller).  The YAML reader of the
    [yaml] package is an argument of [parseAgentSpec]. *)

From Stdlib Require Import String Ascii List Bool Arith Lia.
From Stdlib Require Import DecimalString Permutation.
Import ListNotations.
Open Scope list_scope.
Open Scope string_scope.

Set Implicit Arguments.
Set Warnings "-register-all".

(* ================================================================= *)
(** ** JavaScript values *)

(** What [parseYaml] can hand back, plus [undefined], which the code tests
    for and which a read of a missing property yields.  Besides the JSON
    values, the reader returns a [Date] for [!!timestamp], a [Map] for
    [!!omap], a [Set] for [!!set] and a [Buffer] for [!!binary].  A number,
    a date and a buffer are carried by their ToString text: the code never
    computes with them, it only looks at their type tag and prints them
    inside a template literal. *)
Inductive value : Type :=
| VUndefined
| VNull
| VBool (b : bool)
| VNum (text : string)
| VStr (s : string)
| VArr (items : list value)
| VObj (fields : list (string * value))
| VDate (text : string)
| VMap (entries : list (value * value))
| VSet (members : list value)
| VBuffer (text : string).

(** [typeof raw], as far as line 36 of parse.ts needs it. *)
Definition typeof_is_object (v : value) : bool :=
  match v with
  | VNull | VArr _ | VObj _ | VDate _ | VMap _ | VSet _ | VBuffer _ => true
  | _ => false
  end.

(** zod's [getParsedType].  A buffer is none of the classes it tests for and
    falls through to [object]. *)
Inductive ZodParsedType :=
| t_undefined | t_null | t_boolean | t_number | t_nan | t_string
| t_array | t_object | t_date | t_map | t_set.

Definition getParsedType (v : value) : ZodParsedType :=
  match v with
  | VUndefined => t_undefined
  | VNull => t_null
  | VBool _ => t_boolean
  | VNum text => if String.eqb text "NaN" then t_nan else t_number
  | VStr _ => t_string
  | VArr _ => t_array
  | VObj _ => t_object
  | VDate _ => t_date
  | VMap _ => t_map
  | VSet _ => t_set
  | VBuffer _ => t_object
  end.

Definition parsedType_name (t : ZodParsedType) : string :=
  match t with
  | t_undefined => "undefined"
  | t_null => "null"
  | t_boolean => "boolean"
  | t_number => "number"
  | t_nan => "nan"
  | t_string => "string"
  | t_array => "array"
  | t_object => "object"
  | t_date => "date"
  | t_map => "map"
  | t_set => "set"
  end.

(** [data[key]]: the property read, [undefined] when the key is absent. *)
Fixpoint get (fields : list (string * value)) (key : string) : value :=
  match fields with
  | [] => VUndefined
  | (k, v) :: rest => if String.eqb k key then v else get rest key
  end.

(** [key in data]. *)
Fixpoint has_key (fields : list (string * value)) (key : string) : bool :=
  match fields with
  | [] => false
  | (k, _) :: rest => String.eqb k key || has_key rest key
  end.

(** [Array.prototype.join]. *)
Fixpoint join (sep : string) (parts : list string) : string :=
  match parts with
  | [] => ""
  | [p] => p
  | p :: rest => p ++ sep ++ join sep rest
  end.

(** Every element of a list is there. *)
Fixpoint all_some {A : Type} (l : list (option A)) : option (list A) :=
  match l with
  | [] => Some []
  | None :: _ => None
  | Some a :: rest =>
      match all_some rest with
      | Some rest' => Some (a :: rest')
      | None => None
      end
  end.

(** The string a template literal [`${v}`] produces, or [None] when the
    conversion throws a TypeError.  A mapping read from YAML prints as
    "[object Object]" through [Object.prototype.toString], unless it has a
    key [toString] of its own: that property is no function, and
    [Object.prototype.valueOf] returns no primitive, so the conversion
    throws.  An array prints its elements, joined. *)
Fixpoint js_to_string (v : value) : option string :=
  match v with
  | VUndefined => Some "undefined"
  | VNull => Some "null"
  | VBool true => Some "true"
  | VBool false => Some "false"
  | VNum text => Some text
  | VStr s => Some s
  | VArr items =>
      option_map (join ",")
        (all_some
           (map (fun item =>
                   match item with
                   | VUndefined | VNull => Some ""
                   | _ => js_to_string item
                   end) items))
  | VObj fields =>
      if has_key fields "toString" then None else Some "[object Object]"
  | VDate text => Some text
  | VMap _ => Some "[object Map]"
  | VSet _ => Some "[object Set]"
  | VBuffer text => Some text
  end.

(** The properties zod reads off a value whose parsed type is [object]: the
    pairs of a mapping; a buffer has none of the keys that schema.ts
    declares. *)
Definition fields_of (v : value) : option (list (string * value)) :=
  match v with
  | VObj fields => Some fields
  | VBuffer _ => Some []
  | _ => None
  end.

(** [String.prototype.startsWith] and [String.prototype.includes]. *)
Fixpoint startsWith (s pre : string) {struct pre} : bool :=
  match pre with
  | EmptyString => true
  | String a pre' =>
      match s with
      | EmptyString => false
      | String b s' => Ascii.eqb a b && startsWith s' pre'
      end
  end.

Fixpoint includes (s needle : string) : bool :=
  startsWith s needle ||
  match s with
  | EmptyString => false
  | String _ s' => includes s' needle
  end.

Definition nat_to_string (n : nat) : string :=
  NilEmpty.string_of_uint (Nat.to_uint n).

(* ================================================================= *)
(** ** Regular expressions

    The fragment the name pattern is written in.  A [regex] stands for the
    pattern between [^] and [$]; without the [m] flag these anchor at the two
    ends of the input, so [RegExp.prototype.test] is a whole-string match. *)

Inductive regex : Type :=
| Void
| Eps
| Class (ranges : list (ascii * ascii))
| Alt (r1 r2 : regex)
| Seq (r1 r2 : regex)
| Star (r : regex).

Definition in_range (c : ascii) (range : ascii * ascii) : bool :=
  Nat.leb (nat_of_ascii (fst range)) (nat_of_ascii c) &&
  Nat.leb (nat_of_ascii c) (nat_of_ascii (snd range)).

Definition in_class (ranges : list (ascii * ascii)) (c : ascii) : bool :=
  existsb (in_range c) ranges.

Fixpoint nullable (r : regex) : bool :=
  match r with
  | Void => false
  | Eps => true
  | Class _ => false
  | Alt r1 r2 => nullable r1 || nullable r2
  | Seq r1 r2 => nullable r1 && nullable r2
  | Star _ => true
  end.

Fixpoint deriv (c : ascii) (r : regex) : regex :=
  match r with
  | Void => Void
  | Eps => Void
  | Class ranges => if in_class ranges c then Eps else Void
  | Alt r1 r2 => Alt (deriv c r1) (deriv c r2)
  | Seq r1 r2 =>
      if nullable r1
      then Alt (Seq (deriv c r1) r2) (deriv c r2)
      else Seq (deriv c r1) r2
  | Star r1 => Seq (deriv c r1) (Star r1)
  end.

Fixpoint regex_test (r : regex) (s : string) : bool :=
  match s with
  | EmptyString => nullable r
  | String c s' => regex_test (deriv c r) s'
  end.

(** The words a pattern denotes, for reasoning about [regex_test]. *)
Inductive lang : regex -> string -> Prop :=
| lang_eps : lang Eps ""
| lang_class ranges c :
    in_class ranges c = true -> lang (Class ranges) (String c "")
| lang_alt_l r1 r2 s : lang r1 s -> lang (Alt r1 r2) s
| lang_alt_r r1 r2 s : lang r2 s -> lang (Alt r1 r2) s
| lang_seq r1 r2 s1 s2 :
    lang r1 s1 -> lang r2 s2 -> lang (Seq r1 r2) (s1 ++ s2)
| lang_star_nil r : lang (Star r) ""
| lang_star_more r s1 s2 :
    lang r s1 -> lang (Star r) s2 -> lang (Star r) (s1 ++ s2).

(* ================================================================= *)
(** ** zod: issues and the default error map *)

Inductive ZodIssueCode :=
| invalid_type | invalid_enum_value | invalid_union | too_small
| invalid_string.

Inductive path_elem :=
| Key (k : string)
| Index (i : nat).

(** The fields of a zod issue that parse.ts reads, and its code. *)
Record ZodIssue := mkIssue {
  issue_code : ZodIssueCode;
  issue_path : list path_elem;
  issue_message : string
}.

Definition joinValues (values : list string) : string :=
  join " | " (map (fun val => "'" ++ val ++ "'") values).

Definition invalid_type_message (expected : string) (received : ZodParsedType)
  : string :=
  match received with
  | t_undefined => "Required"
  | _ => "Expected " ++ expected ++ ", received " ++ parsedType_name received
  end.

Definition invalid_enum_value_message (options : list string)
  (received : string) : string :=
  "Invalid enum value. Expected " ++ joinValues options ++
  ", received '" ++ received ++ "'".

Definition too_small_string_message (minimum : nat) : string :=
  "String must contain at least " ++ nat_to_string minimum ++ " character(s)".

(* ================================================================= *)
(** ** zod: schemas *)

Inductive string_check :=
| check_min (minimum : nat) (message : option string)
| check_regex (re : regex) (message : option string).

(** [errorMap] of an enum is called with the issue and a context; the one
    schema.ts passes reads [ctx.data] only, so it is kept as a function of
    the data.  It returns the message, or [None] when it throws. *)
Inductive schema : Type :=
| ZodString (checks : list string_check)
| ZodEnum (values : list string) (errorMap : option (value -> option string))
| ZodObject (shape : list (string * schema))
| ZodArray (element : schema)
| ZodOptional (innerType : schema)
| ZodUnion (options : list schema).

Inductive ParseReturn :=
| OK (v : value)
| DIRTY (v : value)
| INVALID.

(** A parse step gives its return value and the issues it pushed, in push
    order. *)
Definition parsed : Type := ParseReturn * list ZodIssue.

(** What an evaluation does: it completes with a result, or the TypeError of
    an error map's template literal escapes it.  zod catches nothing, so the
    exception passes through every enclosing parse. *)
Inductive completion (A : Type) : Type :=
| Done (a : A)
| ThrewTypeError.

Arguments ThrewTypeError {A}.

(** [input.data.length] counts UTF-16 code units and [String.length] bytes;
    the only minimum schema.ts asks for is 1, where both mean a non-empty
    string. *)
Definition check_passes (s : string) (c : string_check) : bool :=
  match c with
  | check_min minimum _ => negb (Nat.ltb (String.length s) minimum)
  | check_regex re _ => regex_test re s
  end.

Definition check_issue (path : list path_elem) (c : string_check) : ZodIssue :=
  match c with
  | check_min minimum message =>
      mkIssue too_small path
        (match message with
         | Some m => m
         | None => too_small_string_message minimum
         end)
  | check_regex _ message =>
      mkIssue invalid_string path
        (match message with Some m => m | None => "Invalid" end)
  end.

Definition parse_string (checks : list string_check) (path : list path_elem)
  (v : value) : parsed :=
  match v with
  | VStr s =>
      let failed := filter (fun c => negb (check_passes s c)) checks in
      (match failed with [] => OK v | _ => DIRTY v end,
       map (check_issue path) failed)
  | _ =>
      (INVALID,
       [mkIssue invalid_type path
          (invalid_type_message "string" (getParsedType v))])
  end.

(** [addIssueToContext] on an enum: the default error map gives [default],
    then the schema's own error map, when there is one, replaces it or
    throws. *)
Definition enum_issue (errorMap : option (value -> option string))
  (code : ZodIssueCode) (path : list path_elem) (v : value)
  (default : string) : completion parsed :=
  match errorMap with
  | None => Done (INVALID, [mkIssue code path default])
  | Some f =>
      match f v with
      | Some message => Done (INVALID, [mkIssue code path message])
      | None => ThrewTypeError
      end
  end.

Definition parse_enum (values : list string)
  (errorMap : option (value -> option string)) (path : list path_elem)
  (v : value) : completion parsed :=
  match v with
  | VStr s =>
      if existsb (String.eqb s) values then Done (OK v, [])
      else enum_issue errorMap invalid_enum_value path v
             (invalid_enum_value_message values s)
  | _ =>
      enum_issue errorMap invalid_type path v
        (invalid_type_message (joinValues values) (getParsedType v))
  end.

(** [ParseStatus.mergeObjectSync]: every key was parsed before the merge, so
    the issues of all keys are on the context whatever the merge returns.
    [kept] is the assignment [finalObject[key] = value], made unless the key
    is [__proto__] or the value is [undefined] for a key the input lacks. *)
Definition kept (key : string) (x : value) (alwaysSet : bool)
  : list (string * value) :=
  if negb (String.eqb key "__proto__") &&
     (match x with VUndefined => false | _ => true end || alwaysSet)
  then [(key, x)] else [].

Fixpoint merge_pairs (dirty : bool) (finalObject : list (string * value))
  (pairs : list (string * parsed * bool)) : ParseReturn :=
  match pairs with
  | [] => if dirty then DIRTY (VObj finalObject) else OK (VObj finalObject)
  | (key, (ret, _), alwaysSet) :: rest =>
      match ret with
      | INVALID => INVALID
      | OK x =>
          merge_pairs dirty (finalObject ++ kept key x alwaysSet)%list rest
      | DIRTY x =>
          merge_pairs true (finalObject ++ kept key x alwaysSet)%list rest
      end
  end.

Definition pair_issues (pair : string * parsed * bool) : list ZodIssue :=
  snd (snd (fst pair)).

Definition mergeObjectSync (pairs : list (string * parsed * bool)) : parsed :=
  (merge_pairs false [] pairs, flat_map pair_issues pairs).

(** [ParseStatus.mergeArray]. *)
Fixpoint merge_items (dirty : bool) (arrayValue : list value)
  (results : list parsed) : ParseReturn :=
  match results with
  | [] => if dirty then DIRTY (VArr arrayValue) else OK (VArr arrayValue)
  | (ret, _) :: rest =>
      match ret with
      | INVALID => INVALID
      | OK x => merge_items dirty (arrayValue ++ [x])%list rest
      | DIRTY x => merge_items true (arrayValue ++ [x])%list rest
      end
  end.

Definition mergeArray (results : list parsed) : parsed :=
  (merge_items false [] results, flat_map snd results).

(** The keys of an object, or the items of an array, are parsed one after
    the other; an exception in one of them ends the whole parse. *)
Fixpoint collect_pairs (pairs : list (string * completion parsed * bool))
  : completion (list (string * parsed * bool)) :=
  match pairs with
  | [] => Done []
  | (key, ThrewTypeError, _) :: _ => ThrewTypeError
  | (key, Done r, alwaysSet) :: rest =>
      match collect_pairs rest with
      | Done rs => Done ((key, r, alwaysSet) :: rs)
      | ThrewTypeError => ThrewTypeError
      end
  end.

Fixpoint collect_items (results : list (completion parsed))
  : completion (list parsed) :=
  match results with
  | [] => Done []
  | ThrewTypeError :: _ => ThrewTypeError
  | Done r :: rest =>
      match collect_items rest with
      | Done rs => Done (r :: rs)
      | ThrewTypeError => ThrewTypeError
      end
  end.

(** The loop of [ZodUnion._parse]: the first valid option is returned at
    once; otherwise the first dirty option and its issues; otherwise one
    [invalid_union] issue.  Each option runs on a child context, so the
    issues of the options that are not chosen never reach the caller.  The
    list holds what each option does when it is run; the loop runs them in
    order and stops at the first valid one, so an option behind it is never
    run and cannot throw. *)
Fixpoint union_loop (path : list path_elem) (dirty : option parsed)
  (results : list (completion parsed)) : completion parsed :=
  match results with
  | [] =>
      Done
        match dirty with
        | Some d => d
        | None => (INVALID, [mkIssue invalid_union path "Invalid input"])
        end
  | ThrewTypeError :: _ => ThrewTypeError
  | Done (OK x, _) :: _ => Done (OK x, [])
  | Done (DIRTY x, issues) :: rest =>
      union_loop path
        (match dirty with Some d => Some d | None => Some (DIRTY x, issues) end)
        rest
  | Done (INVALID, _) :: rest => union_loop path dirty rest
  end.

Definition indexed (items : list value) : list (nat * value) :=
  combine (seq 0 (length items)) items.

(** [schema._parse], for input [v] found at [path]. *)
Fixpoint parse (s : schema) (path : list path_elem) (v : value) {struct s}
  : completion parsed :=
  match s with
  | ZodString checks => Done (parse_string checks path v)
  | ZodEnum values errorMap => parse_enum values errorMap path v
  | ZodObject shape =>
      match fields_of v with
      | Some fields =>
          match
            collect_pairs
              (map (fun entry =>
                      (fst entry,
                       parse (snd entry) (path ++ [Key (fst entry)])%list
                         (get fields (fst entry)),
                       has_key fields (fst entry)))
                   shape)
          with
          | Done pairs => Done (mergeObjectSync pairs)
          | ThrewTypeError => ThrewTypeError
          end
      | None =>
          Done
            (INVALID,
             [mkIssue invalid_type path
                (invalid_type_message "object" (getParsedType v))])
      end
  | ZodArray element =>
      match v with
      | VArr items =>
          match
            collect_items
              (map (fun item =>
                      parse element (path ++ [Index (fst item)])%list
                        (snd item))
                   (indexed items))
          with
          | Done results => Done (mergeArray results)
          | ThrewTypeError => ThrewTypeError
          end
      | _ =>
          Done
            (INVALID,
             [mkIssue invalid_type path
                (invalid_type_message "array" (getParsedType v))])
      end
  | ZodOptional innerType =>
      match v with
      | VUndefined => Done (OK VUndefined, [])
      | _ => parse innerType path v
      end
  | ZodUnion options =>
      union_loop path None (map (fun option => parse option path v) options)
  end.

Inductive SafeParseReturn :=
| success (data : value)
| failure (error : list ZodIssue)
| no_issues_detected
| error_map_threw.

(** [schema.safeParse]; [handleResult] throws a plain [Error] when a parse
    is not valid and left no issue.  [safeParse] catches nothing either: the
    TypeError of an error map leaves it as it came. *)
Definition safeParse (s : schema) (data : value) : SafeParseReturn :=
  match parse s [] data with
  | ThrewTypeError => error_map_threw
  | Done (OK x, _) => success x
  | Done (_, []) => no_issues_detected
  | Done (_, issues) => failure issues
  end.

(* ================================================================= *)
(** ** schema.ts *)

Definition SUPPORTED_MODELS : list string :=
  ["gemini-2.5-flash"; "gemini-2.5-pro"; "gemini-3-flash-preview"].

Definition mcpToolSchema : schema :=
  ZodObject
    [("server", ZodString [check_min 1 None]);
     ("access", ZodEnum ["read"; "write"] None)].

Definition localToolSchema : schema :=
  ZodObject
    [("name", ZodString [check_min 1 None]);
     ("access", ZodEnum ["read"; "write"] None)].

Definition toolSchema : schema := ZodUnion [mcpToolSchema; localToolSchema].

Definition aclEntrySchema : schema :=
  ZodObject
    [("principal", ZodString [check_min 1 None]);
     ("role", ZodEnum ["execute"; "read"] None)].

(** [/^[a-z0-9][a-z0-9-]*$/] *)
Definition name_pattern : regex :=
  Seq (Class [("a", "z"); ("0", "9")]%char)
      (Star (Class [("a", "z"); ("0", "9"); ("-", "-")]%char)).

Definition quote : string := String (ascii_of_nat 34) "".

Definition model_errorMap (data : value) : option string :=
  match js_to_string data with
  | Some text =>
      Some ("Unknown model " ++ quote ++ text ++ quote ++
            ". Supported: " ++ join ", " SUPPORTED_MODELS)
  | None => None
  end.

Definition nameSchema : schema :=
  ZodString
    [check_min 1 (Some "Agent name is required");
     check_regex name_pattern
       (Some "Agent name must be lowercase alphanumeric with hyphens, starting with a letter or digit")].

Definition modelSchema : schema :=
  ZodEnum SUPPORTED_MODELS (Some model_errorMap).

Definition descriptionSchema : schema :=
  ZodString [check_min 1 (Some "Agent description is required")].

Definition toolsSchema : schema := ZodOptional (ZodArray toolSchema).

Definition skillsSchema : schema :=
  ZodOptional (ZodArray (ZodString [check_min 1 None])).

Definition aclSchema : schema := ZodOptional (ZodArray aclEntrySchema).

Definition agentSpecShape : list (string * schema) :=
  [("name", nameSchema);
   ("model", modelSchema);
   ("description", descriptionSchema);
   ("tools", toolsSchema);
   ("skills", skillsSchema);
   ("acl", aclSchema)].

Definition agentSpecSchema : schema := ZodObject agentSpecShape.

(* ================================================================= *)
(** ** parse.ts *)

Definition newline : string := String (ascii_of_nat 10) "".

Record SpecParseError := mkSpecParseError {
  message : string;
  issues : list string
}.

(** The constructor of [SpecParseError]. *)
Definition new_SpecParseError (issues : list string) : SpecParseError :=
  mkSpecParseError
    ("Invalid agent spec:" ++ newline ++
     join newline (map (fun i => "  - " ++ i) issues))
    issues.

Definition path_elem_text (p : path_elem) : string :=
  match p with
  | Key k => k
  | Index i => nat_to_string i
  end.

Definition formatZodIssue (issue : ZodIssue) : string :=
  let path :=
    match issue_path issue with
    | [] => "(root)"
    | elems => join "." (map path_elem_text elems)
    end in
  path ++ ": " ++ issue_message issue.

Definition formatZodIssues (error : list ZodIssue) : list string :=
  map formatZodIssue error.

(** What a call of the [yaml] package's [parse] does: it returns a value or
    throws; [message] is the text line 32 reads off the thrown object. *)
Inductive yaml_outcome :=
| YamlValue (raw : value)
| YamlThrows (message : string).

(** What a call of [parseAgentSpec] does.  Line 42 of parse.ts is outside
    the try block, so whatever [safeParse] throws leaves [parseAgentSpec]
    too. *)
Inductive outcome :=
| Returns (spec : value)
| ThrowsSpecParseError (e : SpecParseError)
| ThrowsError (message : string)
| ThrowsTypeError.

Definition parseAgentSpec (parseYaml : string -> yaml_outcome)
  (yamlContent : string) : outcome :=
  match parseYaml yamlContent with
  | YamlThrows err =>
      ThrowsSpecParseError (new_SpecParseError ["YAML syntax error: " ++ err])
  | YamlValue raw =>
      if match raw with VNull | VUndefined => true | _ => false end
         || negb (typeof_is_object raw)
      then
        ThrowsSpecParseError
          (new_SpecParseError
             ["Expected a YAML mapping, got a scalar or empty document"])
      else
        match safeParse agentSpecSchema raw with
        | success data => Returns data
        | failure error =>
            ThrowsSpecParseError (new_SpecParseError (formatZodIssues error))
        | no_issues_detected =>
            ThrowsError "Validation failed but no issues detected."
        | error_map_threw => ThrowsTypeError
        end
  end.

(** A reader that hands back a fixed value, to run the parser on examples. *)
Definition yields (raw : value) : string -> yaml_outcome :=
  fun _ => YamlValue raw.

Definition doc_minimal : value :=
  VObj [("name", VStr "helper"); ("model", VStr "gemini-2.5-flash");
        ("description", VStr "You are a helpful assistant.")].

Definition doc_gpt5 : value :=
  VObj [("name", VStr "helper"); ("model", VStr "gpt-5");
        ("description", VStr "test")].

Definition doc_full : value :=
  VObj [("name", VStr "file-reader"); ("model", VStr "gemini-2.5-pro");
        ("description", VStr "You help users understand codebases.");
        ("tools",
         VArr [VObj [("server", VStr "mcp://npx/@anthropic-ai/mcp-filesystem");
                     ("access", VStr "read")];
               VObj [("name", VStr "tools/custom-tool");
                     ("access", VStr "write")]]);
        ("skills", VArr [VStr "skills.sh/namespace/skill@1.0"]);
        ("acl",
         VArr [VObj [("principal", VStr "group:engineering");
                     ("role", VStr "execute")];
               VObj [("principal", VStr "serviceaccount:orchestrator");
                     ("role", VStr "read")]])].

(** A document whose model is a mapping with a key [toString] and whose one
    tools entry asks for the access "admin". *)
Definition doc_model_with_toString : value :=
  VObj [("name", VStr "helper");
        ("model", VObj [("toString", VNum "1")]);
        ("description", VStr "test");
        ("tools",
         VArr [VObj [("server", VStr "mcp://example");
                     ("access", VStr "admin")]])].

(* ================================================================= *)
(** ** The name rule in the specification's words *)

Definition lowercase_letter (c : ascii) : Prop :=
  97 <= nat_of_ascii c <= 122.

Definition digit (c : ascii) : Prop :=
  48 <= nat_of_ascii c <= 57.

Definition hyphen (c : ascii) : Prop := nat_of_ascii c = 45.

(** A non-empty string of lowercase letters, digits and hyphens whose first
    character is a lowercase letter or a digit. *)
Definition spec_name_ok (s : string) : Prop :=
  s <> "" /\
  Forall (fun c => lowercase_letter c \/ digit c \/ hyphen c)
    (list_ascii_of_string s) /\
  (forall c rest, s = String c rest -> lowercase_letter c \/ digit c).

(* ================================================================= *)
(** ** Vocabulary for the statements *)

Definition is_ok (r : ParseReturn) : bool :=
  match r with OK _ => true | _ => false end.

(** A parse step is consistent when it is valid exactly when it pushed no
    issue; [handleResult] relies on this. *)
Definition consistent (r : parsed) : Prop :=
  if is_ok (fst r) then snd r = [] else snd r <> [].

Definition field_names : list string := map fst agentSpecShape.

(** The evaluation threw. *)
Definition threw {A : Type} (c : completion A) : bool :=
  match c with
  | Done _ => false
  | ThrewTypeError => true
  end.

(** The result of a parse step that completed; a step that threw returned
    nothing and pushed nothing that anyone reads. *)
Definition settled (c : completion parsed) : parsed :=
  match c with
  | Done r => r
  | ThrewTypeError => (INVALID, [])
  end.

(** A schema without an error map of its own; its parse cannot throw. *)
Fixpoint plain (s : schema) : bool :=
  match s with
  | ZodString _ => true
  | ZodEnum _ None => true
  | ZodEnum _ (Some _) => false
  | ZodObject shape => forallb (fun entry => plain (snd entry)) shape
  | ZodArray element => plain element
  | ZodOptional innerType => plain innerType
  | ZodUnion options => forallb plain options
  end.

(** The value can be printed inside a template literal. *)
Definition prints (v : value) : bool :=
  match js_to_string v with
  | Some _ => true
  | None => false
  end.

(** The parse of one top-level field of a mapping, as [ZodObject._parse]
    runs it. *)
Definition field_result (fields : list (string * value))
  (entry : string * schema) : completion parsed :=
  parse (snd entry) [Key (fst entry)] (get fields (fst entry)).

(** The field's parse completed and is valid. *)
Definition field_valid (fields : list (string * value))
  (entry : string * schema) : bool :=
  is_ok (fst (settled (field_result fields entry))).

(** The lines of the error that one field accounts for. *)
Definition field_report (fields : list (string * value))
  (entry : string * schema) : list string :=
  formatZodIssues (snd (settled (field_result fields entry))).

Definition mapping_of (parseYaml : string -> yaml_outcome) (src : string)
  (fields : list (string * value)) : Prop :=
  parseYaml src = YamlValue (VObj fields).

(** A zod issue lies at or below [path]. *)
Definition extends (path : list path_elem) (issue : ZodIssue) : Prop :=
  exists rest, issue_path issue = (path ++ rest)%list.

(** An error line names field [f]: it reads [f: ...] or [f.<inner path>: ...]. *)
Definition names_field (line f : string) : Prop :=
  startsWith line (f ++ ": ") = true \/ startsWith line (f ++ ".") = true.

(** The line an unknown model [m] is reported with. *)
Definition unknown_model_line (m : string) : string :=
  "model: Unknown model " ++ quote ++ m ++ quote ++
  ". Supported: gemini-2.5-flash, gemini-2.5-pro, gemini-3-flash-preview".

(** A tools entry has an [access] property equal to "read" or "write". *)
Definition access_ok (entry : value) : Prop :=
  exists f, entry = VObj f /\
            (get f "access" = VStr "read" \/ get f "access" = VStr "write").

(** An acl entry [{principal: p, role: execute}]. *)
Definition acl_entry (principal : string) : value :=
  VObj [("principal", VStr principal); ("role", VStr "execute")].

(** What [aclEntrySchema] asks of an entry. *)
Definition acl_entry_valid (x : value) : Prop :=
  exists f p,
    x = VObj f /\ get f "principal" = VStr p /\ p <> "" /\
    (get f "role" = VStr "execute" \/ get f "role" = VStr "read").

(** The three principal patterns in the specification's words:
    [user:<id>], [group:<name>] and [serviceaccount:<name>], each with a
    non-empty identifier after the colon. *)
Definition has_kind (kind s : string) : bool :=
  startsWith s (kind ++ ":") &&
  Nat.ltb (String.length (kind ++ ":")) (String.length s).

Definition recognized_principal (s : string) : bool :=
  has_kind "user" s || has_kind "group" s || has_kind "serviceaccount" s.

(** The property read [v.key] on a returned value. *)
Definition prop (v : value) (key : string) : value :=
  match v with
  | VObj f => get f key
  | _ => VUndefined
  end.

(** The two shapes a returned tools entry can have. *)
Definition server_form (out : value) : Prop :=
  exists s a,
    out = VObj [("server", VStr s); ("access", VStr a)] /\ s <> "" /\
    (a = "read" \/ a = "write").

Definition name_form (out : value) : Prop :=
  exists n a,
    out = VObj [("name", VStr n); ("access", VStr a)] /\ n <> "" /\
    (a = "read" \/ a = "write").

(** Mappings with additional keys.  [with_extra] adds properties to a
    mapping; [with_extra_each] does so for every item of a list, the extra
    properties chosen per position; [decorate] adds [top] to the document
    and extra properties to the entries of its tools and acl lists. *)
Definition with_extra (extra : list (string * value)) (v : value) : value :=
  match v with
  | VObj f => VObj (f ++ extra)
  | _ => v
  end.

Fixpoint extend_from (extra_at : nat -> list (string * value)) (n : nat)
  (items : list value) : list value :=
  match items with
  | [] => []
  | x :: rest => with_extra (extra_at n) x :: extend_from extra_at (S n) rest
  end.

Definition with_extra_each (extra_at : nat -> list (string * value))
  (v : value) : value :=
  match v with
  | VArr items => VArr (extend_from extra_at 0 items)
  | _ => v
  end.

Definition decorate_field
  (tool_extra acl_extra : nat -> list (string * value))
  (kv : string * value) : string * value :=
  if String.eqb (fst kv) "tools"
  then (fst kv, with_extra_each tool_extra (snd kv))
  else if String.eqb (fst kv) "acl"
       then (fst kv, with_extra_each acl_extra (snd kv))
       else kv.

Definition decorate (top : list (string * value))
  (tool_extra acl_extra : nat -> list (string * value))
  (fields : list (string * value)) : list (string * value) :=
  (map (decorate_field tool_extra acl_extra) fields ++ top)%list.

(** None of the [known] keys occurs in [extra]. *)
Definition unknown_to (known : list string) (extra : list (string * value))
  : Prop :=
  forall k, In k known -> has_key extra k = false.

(** [v] is an object with keys among [known] only. *)
Definition only_keys (known : list string) (v : value) : Prop :=
  exists f, v = VObj f /\ forall k, has_key f k = true -> In k known.

(** Induction over schemas, with the induction hypothesis available for
    every member of a shape and every option of a union. *)
Section SchemaInduction.
Variable P : schema -> Prop.
Hypothesis P_string : forall checks, P (ZodString checks).
Hypothesis P_enum : forall values errorMap, P (ZodEnum values errorMap).
Hypothesis P_object :
  forall shape, Forall (fun entry => P (snd entry)) shape ->
                P (ZodObject shape).
Hypothesis P_array : forall element, P element -> P (ZodArray element).
Hypothesis P_optional :
  forall innerType, P innerType -> P (ZodOptional innerType).
Hypothesis P_union : forall options, Forall P options -> P (ZodUnion options).

Fixpoint schema_nested_ind (s : schema) : P s :=
  match s with
  | ZodString checks => P_string checks
  | ZodEnum values errorMap => P_enum values errorMap
  | ZodObject shape =>
      P_object
        ((fix all (l : list (string * schema))
            : Forall (fun entry => P (snd entry)) l :=
            match l with
            | [] => Forall_nil _
            | entry :: l' =>
                Forall_cons entry (schema_nested_ind (snd entry)) (all l')
            end) shape)
  | ZodArray element => P_array (schema_nested_ind element)
  | ZodOptional innerType => P_optional (schema_nested_ind innerType)
  | ZodUnion options =>
      P_union
        ((fix all (l : list schema) : Forall P l :=
            match l with
            | [] => Forall_nil _
            | o :: l' => Forall_cons o (schema_nested_ind o) (all l')
            end) options)
  end.
End SchemaInduction.

(** A document and a reader that serves it plain under one source text and
    with misspelled extra keys under any other. *)
Definition doc_plain : list (string * value) :=
  [("name", VStr "helper"); ("model", VStr "gemini-2.5-flash");
   ("description", VStr "test");
   ("tools", VArr [VObj [("server", VStr "mcp://example");
                         ("access", VStr "read")]]);
   ("acl", VArr [acl_entry "user:connor"])].

Definition reader_plain_or_decorated (src : string) : yaml_outcome :=
  if String.eqb src "plain" then YamlValue (VObj doc_plain)
  else YamlValue
         (VObj (decorate [("desciption", VStr "typo")]
                  (fun _ => [("acess", VStr "write")])
                  (fun _ => [("rol", VStr "read")]) doc_plain)).

(* ================================================================= *)
(** ** Vocabulary for the properties beyond the claims *)

(** The one issue of the guard on line 36 of parse.ts. *)
Definition guard_line : string :=
  "Expected a YAML mapping, got a scalar or empty document".

(** What the guard lets through: a mapping, a sequence, and the objects the
    reader builds for the tags [!!timestamp], [!!omap], [!!set] and
    [!!binary]. *)
Definition passes_guard (raw : value) : bool :=
  match raw with
  | VArr _ | VObj _ | VDate _ | VMap _ | VSet _ | VBuffer _ => true
  | _ => false
  end.

(** The three fields declared [z.array(...).optional()]. *)
Definition list_fields : list (string * schema) :=
  [("tools", toolsSchema); ("skills", skillsSchema); ("acl", aclSchema)].

Definition name_required_line : string := "name: Agent name is required".

Definition name_pattern_line : string :=
  "name: Agent name must be lowercase alphanumeric with hyphens, starting with a letter or digit".

(** A reader that serves one mapping with its keys in two orders. *)
Definition reader_two_orders (src : string) : yaml_outcome :=
  if String.eqb src "name first"
  then YamlValue (VObj [("name", VStr "helper"); ("model", VStr "gpt-5");
                        ("description", VStr "")])
  else YamlValue (VObj [("description", VStr ""); ("model", VStr "gpt-5");
                        ("name", VStr "helper")]).

(** A non-empty string, and the empty string. *)
Definition nonemptyb (v : value) : bool :=
  match v with
  | VStr (String _ _) => true
  | _ => false
  end.

Definition emptyb (v : value) : bool :=
  match v with
  | VStr EmptyString => true
  | _ => false
  end.

(** The access property of a tools entry is "read" or "write". *)
Definition access_okb (f : list (string * value)) : bool :=
  match get f "access" with
  | VStr a => existsb (String.eqb a) ["read"; "write"]
  | _ => false
  end.

(** What [toolSchema] asks of a tools entry: a mapping with a valid access
    and a non-empty string under server or under name. *)
Definition tool_entry_ok (x : value) : bool :=
  match x with
  | VObj f =>
      access_okb f && (nonemptyb (get f "server") || nonemptyb (get f "name"))
  | _ => false
  end.

(** A value that is absent, or a list whose items all satisfy [Q]. *)
Definition absent_or_list_of (Q : value -> Prop) (v : value) : Prop :=
  v = VUndefined \/ exists items, v = VArr items /\ Forall Q items.

(** The documents parseAgentSpec accepts, field by field. *)
Definition acceptable (raw : value) : Prop :=
  exists fields,
    raw = VObj fields /\
    (exists s, get fields "name" = VStr s /\ spec_name_ok s) /\
    (exists m, get fields "model" = VStr m /\ In m SUPPORTED_MODELS) /\
    nonemptyb (get fields "description") = true /\
    absent_or_list_of (fun x => tool_entry_ok x = true) (get fields "tools") /\
    absent_or_list_of (fun x => nonemptyb x = true) (get fields "skills") /\
    absent_or_list_of acl_entry_valid (get fields "acl").

(** The text [field.i] followed by [rest], for item [i] of a list field. *)
Definition at_index (field : string) (i : nat) (rest : string) : string :=
  field ++ "." ++ nat_to_string i ++ rest.

(** The line a rejected tools entry at position [i] is reported with. *)
Definition tool_line (i : nat) (x : value) : string :=
  at_index "tools" i
    match x with
    | VObj f =>
        if access_okb f && emptyb (get f "server")
        then ".server: String must contain at least 1 character(s)"
        else if access_okb f && emptyb (get f "name")
             then ".name: String must contain at least 1 character(s)"
             else ": Invalid input"
    | _ => ": Invalid input"
    end.

Definition tools_lines (items : list value) : list string :=
  flat_map (fun item =>
              if tool_entry_ok (snd item) then []
              else [tool_line (fst item) (snd item)])
    (indexed items).

(** The line a rejected skill at position [i] is reported with. *)
Definition skill_line (i : nat) (x : value) : string :=
  at_index "skills" i
    (": " ++
     match x with
     | VStr _ => "String must contain at least 1 character(s)"
     | _ => invalid_type_message "string" (getParsedType x)
     end).

Definition skills_lines (items : list value) : list string :=
  flat_map (fun item =>
              if nonemptyb (snd item) then []
              else [skill_line (fst item) (snd item)])
    (indexed items).

(** The value a parse step hands to the merge. *)
Definition returned_value (r : ParseReturn) : value :=
  match r with
  | OK x | DIRTY x => x
  | INVALID => VUndefined
  end.

Definition pair_kept (pair : string * parsed * bool)
  : list (string * value) :=
  kept (fst (fst pair)) (returned_value (fst (snd (fst pair)))) (snd pair).

(** What is returned for a tools entry and for an acl entry: the recognized
    properties of the input entry, and for a tools entry the server form
    whenever the server is a non-empty string. *)
Definition project_tool (x : value) : value :=
  match x with
  | VObj f =>
      if nonemptyb (get f "server")
      then VObj [("server", get f "server"); ("access", get f "access")]
      else VObj [("name", get f "name"); ("access", get f "access")]
  | _ => x
  end.

Definition project_acl (x : value) : value :=
  match x with
  | VObj f => VObj [("principal", get f "principal"); ("role", get f "role")]
  | _ => x
  end.

Definition project_list (g : value -> value) (v : value) : value :=
  match v with
  | VArr items => VArr (map g items)
  | _ => v
  end.

Definition project_field (k : string) (v : value) : value :=
  if String.eqb k "tools" then project_list project_tool v
  else if String.eqb k "acl" then project_list project_acl v
       else v.

(** The AgentSpec returned for a mapping: its recognized keys, in the order
    of the schema, each with the projection of its value. *)
Definition returned_fields (fields : list (string * value))
  : list (string * value) :=
  flat_map (fun k =>
              if has_key fields k
              then [(k, project_field k (get fields k))]
              else [])
    field_names.

(** The lines an acl entry at position [i] is reported with: those of its
    principal followed by those of its role. *)
Definition acl_entry_lines (i : nat) (x : value) : list string :=
  match fields_of x with
  | Some f =>
      (match get f "principal" with
       | VStr (String _ _) => []
       | VStr EmptyString =>
           [at_index "acl" i
              ".principal: String must contain at least 1 character(s)"]
       | v =>
           [at_index "acl" i
              (".principal: " ++
               invalid_type_message "string" (getParsedType v))]
       end ++
       match get f "role" with
       | VStr r =>
           if existsb (String.eqb r) ["execute"; "read"] then []
           else [at_index "acl" i
                   (".role: " ++
                    invalid_enum_value_message ["execute"; "read"] r)]
       | v =>
           [at_index "acl" i
              (".role: " ++
               invalid_type_message (joinValues ["execute"; "read"])
                 (getParsedType v))]
       end)%list
  | None =>
      [at_index "acl" i
         (": " ++ invalid_type_message "object" (getParsedType x))]
  end.

Definition acl_lines (items : list value) : list string :=
  flat_map (fun item => acl_entry_lines (fst item) (snd item))
    (indexed items).

(** A reader that serves two different rejected mappings with the same
    model. *)
Definition reader_two_rejected (src : string) : yaml_outcome :=
  if String.eqb src "bad name"
  then YamlValue (VObj [("name", VStr "Bad Name"); ("model", VStr "gpt-5");
                        ("description", VStr "test")])
  else YamlValue (VObj [("model", VStr "gpt-5")]).

(* ================================================================= *)
(** * Theorems *)

(** ** Strings *)

Lemma startsWith_app (pre s : string) : startsWith (pre ++ s) pre = true.
Proof.
  induction pre as [|a pre IH]; simpl.
  - reflexivity.
  - now rewrite Ascii.eqb_refl, IH.
Qed.

Lemma includes_app_r (a b needle : string) :
  includes b needle = true -> includes (a ++ b) needle = true.
Proof.
  intros H. induction a as [|c a IH]; simpl.
  - exact H.
  - rewrite IH. apply orb_true_r.
Qed.

Lemma includes_prefix (needle rest : string) :
  includes (needle ++ rest) needle = true.
Proof.
  destruct needle; simpl.
  - destruct rest; reflexivity.
  - now rewrite Ascii.eqb_refl, startsWith_app.
Qed.

Lemma includes_mid (a needle b : string) :
  includes (a ++ needle ++ b) needle = true.
Proof. apply includes_app_r, includes_prefix. Qed.

Lemma append_nil_r (s : string) : s ++ "" = s.
Proof. induction s; simpl; congruence. Qed.

Lemma append_assoc (a b c : string) : (a ++ b) ++ c = a ++ (b ++ c).
Proof. induction a; simpl; congruence. Qed.

Lemma append_eq_nil (a b : string) : a ++ b = "" -> a = "" /\ b = "".
Proof. destruct a; simpl; intros H; [now split | discriminate]. Qed.

Lemma startsWith_true_iff (s pre : string) :
  startsWith s pre = true <-> exists rest, s = pre ++ rest.
Proof.
  split.
  - revert s. induction pre as [|a pre IH]; intros s H.
    + now exists s.
    + destruct s as [|b s]; simpl in H; [discriminate|].
      apply andb_true_iff in H as [Hab H].
      apply Ascii.eqb_eq in Hab. subst b.
      destruct (IH _ H) as [rest ->]. now exists rest.
  - intros [rest ->]. apply startsWith_app.
Qed.

(** ** Regular expressions: the matcher computes the denoted language *)

Lemma nullable_lang (r : regex) : nullable r = true <-> lang r "".
Proof.
  split.
  - induction r; simpl; intros H; try discriminate.
    + constructor.
    + apply orb_true_iff in H as [H|H]; [apply lang_alt_l | apply lang_alt_r];
        auto.
    + apply andb_true_iff in H as [H1 H2].
      change "" with ("" ++ ""). constructor; auto.
    + constructor.
  - intros H. remember "" as w eqn:Hw.
    induction H; simpl; subst; try reflexivity; try discriminate.
    + rewrite IHlang; auto.
    + rewrite IHlang; auto using orb_true_r.
    + apply append_eq_nil in Hw as [-> ->]. rewrite IHlang1, IHlang2; auto.
Qed.

Lemma deriv_sound (c : ascii) (r : regex) :
  forall s, lang (deriv c r) s -> lang r (String c s).
Proof.
  induction r; simpl; intros s H.
  - inversion H.
  - inversion H.
  - destruct (in_class ranges c) eqn:E; inversion H; subst.
    now constructor.
  - inversion H; subst; [apply lang_alt_l | apply lang_alt_r]; auto.
  - destruct (nullable r1) eqn:E.
    + inversion H as [| |? ? ? H1|? ? ? H2| | |]; subst.
      * inversion H1; subst.
        change (String c (s1 ++ s2)) with (String c s1 ++ s2).
        constructor; auto.
      * change (String c s) with ("" ++ String c s).
        constructor; auto. now apply nullable_lang.
    + inversion H; subst.
      change (String c (s1 ++ s2)) with (String c s1 ++ s2).
      constructor; auto.
  - inversion H; subst.
    change (String c (s1 ++ s2)) with (String c s1 ++ s2).
    constructor; auto.
Qed.

Lemma deriv_complete (c : ascii) (r : regex) (w : string) :
  lang r w -> forall s, w = String c s -> lang (deriv c r) s.
Proof.
  induction 1 as [|ranges c' Hc|r1 r2 w H IH|r1 r2 w H IH
                  |r1 r2 s1 s2 H1 IH1 H2 IH2| |r s1 s2 H1 IH1 H2 IH2];
    intros s Hw; simpl.
  - discriminate.
  - injection Hw as -> <-. rewrite Hc. constructor.
  - apply lang_alt_l; auto.
  - apply lang_alt_r; auto.
  - destruct s1 as [|a s1]; simpl in Hw.
    + apply nullable_lang in H1. rewrite H1. apply lang_alt_r; auto.
    + injection Hw as -> <-.
      destruct (nullable r1); [apply lang_alt_l|]; constructor; auto.
  - discriminate.
  - destruct s1 as [|a s1]; simpl in Hw.
    + now apply IH2.
    + injection Hw as -> <-. constructor; auto.
Qed.

Theorem regex_test_lang (s : string) :
  forall r, regex_test r s = true <-> lang r s.
Proof.
  induction s as [|c s IH]; intros r; simpl.
  - apply nullable_lang.
  - rewrite IH. split.
    + apply deriv_sound.
    + intros H. now apply deriv_complete with (w := String c s).
Qed.

(** ** The name pattern *)

Lemma first_class_spec (c : ascii) :
  in_class [("a", "z"); ("0", "9")]%char c = true <->
  lowercase_letter c \/ digit c.
Proof.
  unfold lowercase_letter, digit. cbv [in_class in_range existsb fst snd].
  rewrite !orb_true_iff, !andb_true_iff, !Nat.leb_le.
  change (nat_of_ascii "a") with 97. change (nat_of_ascii "z") with 122.
  change (nat_of_ascii "0") with 48. change (nat_of_ascii "9") with 57.
  intuition (try discriminate; try lia).
Qed.

Lemma rest_class_spec (c : ascii) :
  in_class [("a", "z"); ("0", "9"); ("-", "-")]%char c = true <->
  lowercase_letter c \/ digit c \/ hyphen c.
Proof.
  unfold lowercase_letter, digit, hyphen.
  cbv [in_class in_range existsb fst snd].
  rewrite !orb_true_iff, !andb_true_iff, !Nat.leb_le.
  change (nat_of_ascii "a") with 97. change (nat_of_ascii "z") with 122.
  change (nat_of_ascii "0") with 48. change (nat_of_ascii "9") with 57.
  change (nat_of_ascii "-") with 45.
  intuition (try discriminate; try lia).
Qed.

Lemma list_ascii_app (a b : string) :
  list_ascii_of_string (a ++ b) =
  (list_ascii_of_string a ++ list_ascii_of_string b)%list.
Proof. induction a; simpl; congruence. Qed.

Lemma star_class_chars (ranges : list (ascii * ascii)) (s : string) :
  lang (Star (Class ranges)) s <->
  Forall (fun c => in_class ranges c = true) (list_ascii_of_string s).
Proof.
  split.
  - intros H. remember (Star (Class ranges)) as r eqn:Hr.
    induction H; try discriminate.
    + constructor.
    + injection Hr as ->. rewrite list_ascii_app. apply Forall_app. split.
      * inversion H; subst. simpl. now repeat constructor.
      * now apply IHlang2.
  - induction s as [|c s IH]; simpl; intros H.
    + constructor.
    + inversion H; subst.
      change (String c s) with (String c "" ++ s).
      constructor; [now constructor | auto].
Qed.

(** The pattern of schema.ts accepts exactly the names the specification
    describes. *)
Theorem name_pattern_spec (s : string) :
  regex_test name_pattern s = true <-> spec_name_ok s.
Proof.
  rewrite regex_test_lang. unfold name_pattern, spec_name_ok. split.
  - intros H. inversion H as [| | | |? ? s1 s2 H1 H2| |]; subst.
    inversion H1 as [|? c Hc| | | | |]; subst. simpl.
    apply star_class_chars in H2.
    split; [discriminate|]. split.
    + constructor.
      * apply first_class_spec in Hc. tauto.
      * eapply Forall_impl; [|exact H2]. intros a Ha.
        now apply rest_class_spec.
    + intros c' rest E. injection E as <- _. now apply first_class_spec.
  - intros (Hne & Hall & Hfirst). destruct s as [|c s]; [congruence|].
    change (String c s) with (String c "" ++ s).
    simpl in Hall. inversion Hall; subst.
    constructor.
    + constructor. apply first_class_spec. now apply (Hfirst c s).
    + apply star_class_chars. eapply Forall_impl; [|eassumption].
      intros a Ha. now apply rest_class_spec.
Qed.

(** ** zod: status and issues *)


Lemma merge_pairs_ok (pairs : list (string * parsed * bool)) :
  forall dirty finalObject,
    is_ok (merge_pairs dirty finalObject pairs) =
    negb dirty && forallb (fun pair => is_ok (fst (snd (fst pair)))) pairs.
Proof.
  induction pairs as [|[[key [ret issues]] alwaysSet] pairs IH];
    intros dirty finalObject; simpl.
  - destruct dirty; reflexivity.
  - destruct ret; simpl; rewrite ?IH; simpl.
    + reflexivity.
    + now rewrite andb_false_r.
    + now rewrite andb_false_r.
Qed.

Lemma merge_items_ok (results : list parsed) :
  forall dirty arrayValue,
    is_ok (merge_items dirty arrayValue results) =
    negb dirty && forallb (fun r => is_ok (fst r)) results.
Proof.
  induction results as [|[ret issues] results IH];
    intros dirty arrayValue; simpl.
  - destruct dirty; reflexivity.
  - destruct ret; simpl; rewrite ?IH; simpl.
    + reflexivity.
    + now rewrite andb_false_r.
    + now rewrite andb_false_r.
Qed.

Lemma flat_map_nil_iff {A B : Type} (f : A -> list B) (l : list A) :
  flat_map f l = [] <-> Forall (fun x => f x = []) l.
Proof.
  induction l as [|x l IH]; simpl.
  - split; auto.
  - split.
    + intros H. apply app_eq_nil in H as [Hx Hl]. constructor; tauto.
    + intros H. inversion H; subst.
      replace (f x) with (@nil B) by auto. simpl. tauto.
Qed.

Lemma forallb_map_fn {A B : Type} (f : A -> B) (p : B -> bool) (l : list A) :
  forallb p (map f l) = forallb (fun x => p (f x)) l.
Proof. induction l as [|x l IH]; simpl; [reflexivity | now rewrite IH]. Qed.

Lemma consistent_all (results : list parsed) :
  Forall consistent results ->
  if forallb (fun r => is_ok (fst r)) results
  then flat_map snd results = []
  else flat_map snd results <> [].
Proof.
  induction 1 as [|[ret issues] results Hr _ IH]; simpl.
  - reflexivity.
  - unfold consistent in Hr. simpl in Hr.
    destruct (is_ok ret); simpl.
    + subst issues. exact IH.
    + intros E. apply app_eq_nil in E. tauto.
Qed.

Lemma mergeArray_consistent (results : list parsed) :
  Forall consistent results -> consistent (mergeArray results).
Proof.
  intros H. unfold consistent, mergeArray. simpl.
  rewrite merge_items_ok. simpl. now apply consistent_all.
Qed.

Lemma mergeObjectSync_consistent (pairs : list (string * parsed * bool)) :
  Forall (fun pair => consistent (snd (fst pair))) pairs ->
  consistent (mergeObjectSync pairs).
Proof.
  intros H. unfold consistent, mergeObjectSync. simpl.
  rewrite merge_pairs_ok. simpl.
  assert (Hmap : Forall consistent (map (fun pair => snd (fst pair)) pairs)).
  { apply Forall_map. exact H. }
  apply consistent_all in Hmap.
  rewrite forallb_map_fn in Hmap.
  replace (flat_map pair_issues pairs)
    with (flat_map snd (map (fun pair => snd (fst pair)) pairs)).
  - exact Hmap.
  - clear. induction pairs as [|p pairs IH]; simpl; [reflexivity|].
    now rewrite IH.
Qed.

(** ** Exceptions *)

Lemma existsb_map_fn {A B : Type} (f : A -> B) (p : B -> bool) (l : list A) :
  existsb p (map f l) = existsb (fun x => p (f x)) l.
Proof. induction l as [|x l IH]; simpl; [reflexivity | now rewrite IH]. Qed.

Lemma done_settled (c : completion parsed) :
  threw c = false -> c = Done (settled c).
Proof. destruct c; [reflexivity | discriminate]. Qed.

Lemma collect_pairs_eq (pairs : list (string * completion parsed * bool)) :
  collect_pairs pairs =
  if existsb (fun pair => threw (snd (fst pair))) pairs
  then ThrewTypeError
  else Done (map (fun pair =>
                    (fst (fst pair), settled (snd (fst pair)), snd pair))
               pairs).
Proof.
  induction pairs as [|[[key c] alwaysSet] pairs IH]; simpl; [reflexivity|].
  destruct c; simpl; [|reflexivity].
  rewrite IH. destruct (existsb _ pairs); reflexivity.
Qed.

Lemma collect_items_eq (results : list (completion parsed)) :
  collect_items results =
  if existsb threw results then ThrewTypeError
  else Done (map settled results).
Proof.
  induction results as [|c results IH]; simpl; [reflexivity|].
  destruct c; simpl; [|reflexivity].
  rewrite IH. destruct (existsb _ results); reflexivity.
Qed.

(** An object is parsed key by key: the first key whose parse throws ends
    the parse, otherwise the results are merged. *)
Lemma parse_object_eq shape path v :
  parse (ZodObject shape) path v =
  match fields_of v with
  | Some fields =>
      if existsb (fun entry =>
                    threw (parse (snd entry) (path ++ [Key (fst entry)])%list
                             (get fields (fst entry)))) shape
      then ThrewTypeError
      else Done (mergeObjectSync
                   (map (fun entry =>
                           (fst entry,
                            settled
                              (parse (snd entry)
                                 (path ++ [Key (fst entry)])%list
                                 (get fields (fst entry))),
                            has_key fields (fst entry)))
                      shape))
  | None =>
      Done (INVALID,
            [mkIssue invalid_type path
               (invalid_type_message "object" (getParsedType v))])
  end.
Proof.
  cbn [parse]. destruct (fields_of v) as [fields|]; [|reflexivity].
  rewrite collect_pairs_eq, existsb_map_fn, map_map. cbn [fst snd].
  destruct (existsb _ shape); reflexivity.
Qed.

Lemma parse_array_eq element path items :
  parse (ZodArray element) path (VArr items) =
  if existsb (fun item =>
                threw (parse element (path ++ [Index (fst item)])%list
                         (snd item))) (indexed items)
  then ThrewTypeError
  else Done (mergeArray
               (map (fun item =>
                       settled (parse element (path ++ [Index (fst item)])%list
                                  (snd item)))
                  (indexed items))).
Proof.
  cbn [parse]. rewrite collect_items_eq, existsb_map_fn, map_map.
  destruct (existsb _ (indexed items)); reflexivity.
Qed.

Lemma parse_array_other element path v :
  (forall items, v <> VArr items) ->
  parse (ZodArray element) path v =
  Done (INVALID,
        [mkIssue invalid_type path
           (invalid_type_message "array" (getParsedType v))]).
Proof. intros H. destruct v; try reflexivity. now destruct (H items). Qed.

Lemma union_loop_never_throws path (results : list (completion parsed)) :
  existsb threw results = false ->
  forall dirty, threw (union_loop path dirty results) = false.
Proof.
  induction results as [|c results IH]; intros H dirty; simpl.
  - reflexivity.
  - simpl in H. destruct c as [[ret zis]|]; [|discriminate].
    destruct ret; [reflexivity| |]; now apply IH.
Qed.

Lemma existsb_false_of_Forall {A : Type} (p : A -> bool) (l : list A) :
  Forall (fun x => p x = false) l -> existsb p l = false.
Proof.
  induction 1 as [|x l Hx _ IH]; simpl; [reflexivity|]. now rewrite Hx.
Qed.

(** The parse of a schema without error maps never throws. *)
Theorem plain_never_throws (s : schema) :
  plain s = true -> forall path v, threw (parse s path v) = false.
Proof.
  induction s as [checks|values errorMap|shape IH|element IH|innerType IH
                  |options IH] using schema_nested_ind;
    intros P path v.
  - reflexivity.
  - destruct errorMap; [discriminate P|].
    unfold parse, parse_enum, enum_issue. destruct v; try reflexivity.
    destruct (existsb _ values); reflexivity.
  - rewrite parse_object_eq. destruct (fields_of v); [|reflexivity].
    replace (existsb _ shape) with false; [reflexivity|]. symmetry.
    apply existsb_false_of_Forall. cbn [plain] in P.
    rewrite forallb_forall in P. rewrite Forall_forall in *.
    intros entry He. apply (IH entry He). now apply P.
  - cbn [plain] in P. destruct v;
      try (rewrite parse_array_other by discriminate; reflexivity).
    rewrite parse_array_eq.
    replace (existsb _ (indexed items)) with false; [reflexivity|]. symmetry.
    apply existsb_false_of_Forall, Forall_forall. intros item _.
    now apply IH.
  - cbn [plain] in P. destruct v; cbn [parse]; try now apply IH.
    reflexivity.
  - cbn [parse]. apply union_loop_never_throws. rewrite existsb_map_fn.
    apply existsb_false_of_Forall. cbn [plain] in P.
    rewrite forallb_forall in P. rewrite Forall_forall in *.
    intros o Ho. apply (IH o Ho). now apply P.
Qed.

Lemma plain_done (s : schema) path v :
  plain s = true -> parse s path v = Done (settled (parse s path v)).
Proof. intros P. apply done_settled. now apply plain_never_throws. Qed.

(** The parses of schemas without error maps, as equations between
    results. *)
Lemma settled_object shape path v :
  forallb (fun entry => plain (snd entry)) shape = true ->
  settled (parse (ZodObject shape) path v) =
  match fields_of v with
  | Some fields =>
      mergeObjectSync
        (map (fun entry =>
                (fst entry,
                 settled (parse (snd entry) (path ++ [Key (fst entry)])%list
                            (get fields (fst entry))),
                 has_key fields (fst entry)))
           shape)
  | None =>
      (INVALID,
       [mkIssue invalid_type path
          (invalid_type_message "object" (getParsedType v))])
  end.
Proof.
  intros P. rewrite parse_object_eq.
  destruct (fields_of v) as [fields|]; [|reflexivity].
  replace (existsb _ shape) with false; [reflexivity|]. symmetry.
  apply existsb_false_of_Forall, Forall_forall. intros entry He.
  apply plain_never_throws. rewrite forallb_forall in P. now apply P.
Qed.

Lemma settled_array element path items :
  plain element = true ->
  settled (parse (ZodArray element) path (VArr items)) =
  mergeArray
    (map (fun item =>
            settled (parse element (path ++ [Index (fst item)])%list
                       (snd item)))
       (indexed items)).
Proof.
  intros P. rewrite parse_array_eq.
  replace (existsb _ (indexed items)) with false; [reflexivity|]. symmetry.
  apply existsb_false_of_Forall, Forall_forall. intros item _.
  now apply plain_never_throws.
Qed.

Lemma union_loop_settled path (results : list (completion parsed)) :
  existsb threw results = false ->
  forall dirty,
    union_loop path dirty results =
    union_loop path dirty (map (fun c => Done (settled c)) results).
Proof.
  induction results as [|c results IH]; intros H dirty; simpl; [reflexivity|].
  simpl in H. destruct c as [[ret zis]|]; [|discriminate]. simpl.
  destruct ret; [reflexivity| |]; now apply IH.
Qed.

Lemma settled_union options path v :
  forallb plain options = true ->
  parse (ZodUnion options) path v =
  union_loop path None
    (map (fun option => Done (settled (parse option path v))) options).
Proof.
  intros P. cbn [parse]. rewrite union_loop_settled, map_map; [reflexivity|].
  rewrite existsb_map_fn. apply existsb_false_of_Forall, Forall_forall.
  intros o Ho. apply plain_never_throws. rewrite forallb_forall in P.
  now apply P.
Qed.

Lemma union_loop_consistent (path : list path_elem)
  (results : list (completion parsed)) :
  Forall (fun c => forall r, c = Done r -> consistent r) results ->
  forall dirty,
    match dirty with
    | Some d => is_ok (fst d) = false /\ snd d <> []
    | None => True
    end ->
    forall r, union_loop path dirty results = Done r -> consistent r.
Proof.
  induction 1 as [|[[ret issues]|] results Hr _ IH]; intros dirty Hd r E;
    simpl in E.
  - injection E as <-. destruct dirty as [[r i]|]; unfold consistent; simpl.
    + destruct Hd as [Hd1 Hd2]. simpl in *. now rewrite Hd1.
    + discriminate.
  - specialize (Hr _ eq_refl). destruct ret.
    + injection E as <-. reflexivity.
    + eapply IH; [|exact E]. destruct dirty; [exact Hd|]. simpl.
      split; [reflexivity|]. exact Hr.
    + eapply IH; eassumption.
  - discriminate E.
Qed.

Lemma parse_string_consistent checks path v :
  consistent (parse_string checks path v).
Proof.
  unfold consistent, parse_string. destruct v; simpl; try discriminate.
  destruct (filter _ checks); simpl; [reflexivity | discriminate].
Qed.

Lemma enum_issue_consistent errorMap code path v default r :
  enum_issue errorMap code path v default = Done r -> consistent r.
Proof.
  unfold enum_issue. destruct errorMap as [f|].
  - destruct (f v); [|discriminate]. intros [= <-]. discriminate.
  - intros [= <-]. discriminate.
Qed.

Lemma parse_enum_consistent values errorMap path v r :
  parse_enum values errorMap path v = Done r -> consistent r.
Proof.
  unfold parse_enum.
  destruct v; try apply enum_issue_consistent.
  destruct (existsb _ values); [|apply enum_issue_consistent].
  intros [= <-]. reflexivity.
Qed.

(** Every parse that completes is valid exactly when it left no issue. *)
Theorem parse_consistent (s : schema) :
  forall path v r, parse s path v = Done r -> consistent r.
Proof.
  induction s as [checks|values errorMap|shape IH|element IH|innerType IH
                  |options IH] using schema_nested_ind; intros path v r E.
  - injection E as <-. apply parse_string_consistent.
  - eapply parse_enum_consistent. exact E.
  - rewrite parse_object_eq in E. destruct (fields_of v) as [fields|].
    + destruct (existsb _ shape) eqn:X; [discriminate E|].
      injection E as <-. apply mergeObjectSync_consistent.
      apply Forall_map. cbn [fst snd]. rewrite Forall_forall in *.
      intros entry He. eapply (IH entry He).
      apply done_settled.
      destruct (threw _) eqn:T; [|reflexivity].
      assert (X' : existsb
                     (fun entry =>
                        threw (parse (snd entry) (path ++ [Key (fst entry)])%list
                                 (get fields (fst entry)))) shape = true)
        by (apply existsb_exists; eauto).
      congruence.
    + injection E as <-. discriminate.
  - destruct v;
      try (rewrite parse_array_other in E by discriminate;
           injection E as <-; discriminate).
    rewrite parse_array_eq in E.
    destruct (existsb _ (indexed items)) eqn:X; [discriminate E|].
    injection E as <-. apply mergeArray_consistent.
    apply Forall_map, Forall_forall. intros item Hi.
    eapply IH. apply done_settled.
    destruct (threw _) eqn:T; [|reflexivity].
    assert (X' : existsb
                   (fun item =>
                      threw (parse element (path ++ [Index (fst item)])%list
                               (snd item))) (indexed items) = true)
      by (apply existsb_exists; eauto).
    congruence.
  - destruct v; cbn [parse] in E; try (eapply IH; exact E).
    injection E as <-. reflexivity.
  - cbn [parse] in E.
    apply (fun H => @union_loop_consistent path _ H None I r E).
    apply Forall_map. eapply Forall_impl; [|exact IH]. intros o H. apply H.
Qed.

Corollary parse_failure_has_issues (s : schema) path v r :
  parse s path v = Done r -> is_ok (fst r) = false -> snd r <> [].
Proof.
  intros E H. pose proof (parse_consistent s path v E) as C.
  unfold consistent in C. now rewrite H in C.
Qed.

Corollary parse_ok_no_issues (s : schema) path v :
  is_ok (fst (settled (parse s path v))) = true ->
  snd (settled (parse s path v)) = [].
Proof.
  intros H. destruct (parse s path v) as [r|] eqn:E; [|discriminate H].
  pose proof (parse_consistent s path v E) as C.
  unfold consistent in C. simpl in H. now rewrite H in C.
Qed.

(** ** The schema of schema.ts: which parse can throw *)

Lemma aclEntry_plain : plain aclEntrySchema = true.
Proof. reflexivity. Qed.

(** The model is the one field whose parse can throw, and it does so exactly
    on a value that cannot be printed. *)
Lemma model_threw path v :
  threw (parse modelSchema path v) = negb (prints v).
Proof.
  unfold modelSchema, parse, parse_enum, enum_issue, model_errorMap, prints.
  destruct v as [| |b|text|s|items|fields|text|entries|members|text];
    try reflexivity.
  - destruct b; reflexivity.
  - cbn [js_to_string]. destruct (existsb _ SUPPORTED_MODELS); reflexivity.
  - destruct (js_to_string (VArr items)); reflexivity.
  - destruct (js_to_string (VObj fields)); reflexivity.
Qed.

Lemma field_threw fields entry :
  In entry agentSpecShape ->
  threw (field_result fields entry) =
  String.eqb (fst entry) "model" && negb (prints (get fields "model")).
Proof.
  unfold field_result.
  intros [<-|[<-|[<-|[<-|[<-|[<-|[]]]]]]];
    cbn [fst snd String.eqb Ascii.eqb Bool.eqb andb];
    try (now apply plain_never_throws).
  apply model_threw.
Qed.

Lemma shape_threw fields :
  existsb (fun entry => threw (field_result fields entry)) agentSpecShape =
  negb (prints (get fields "model")).
Proof.
  unfold agentSpecShape. cbn [existsb].
  rewrite !field_threw by (cbn; auto 10).
  cbn [fst String.eqb Ascii.eqb Bool.eqb andb orb].
  now rewrite orb_false_r.
Qed.

Lemma agentSpec_parse_eq raw fields :
  fields_of raw = Some fields ->
  parse agentSpecSchema [] raw =
  if prints (get fields "model")
  then Done (mergeObjectSync
               (map (fun entry =>
                       (fst entry, settled (field_result fields entry),
                        has_key fields (fst entry)))
                  agentSpecShape))
  else ThrewTypeError.
Proof.
  intros F. unfold agentSpecSchema. rewrite parse_object_eq, F.
  change (existsb _ agentSpecShape)
    with (existsb (fun entry => threw (field_result fields entry))
            agentSpecShape).
  rewrite shape_threw. destruct (prints _); reflexivity.
Qed.

Lemma model_invalid_when_unprintable fields :
  prints (get fields "model") = false ->
  field_valid fields ("model", modelSchema) = false.
Proof.
  intros P. unfold field_valid.
  replace (field_result fields ("model", modelSchema)) with
    (@ThrewTypeError parsed); [reflexivity|].
  pose proof (model_threw [Key "model"] (get fields "model")) as T.
  rewrite P in T. unfold field_result. cbn [fst snd].
  destruct (parse modelSchema _ _); [discriminate T | reflexivity].
Qed.

(** ** parseAgentSpec: the ways out *)

Lemma parseAgentSpec_yaml_error parseYaml src err :
  parseYaml src = YamlThrows err ->
  parseAgentSpec parseYaml src =
  ThrowsSpecParseError (new_SpecParseError ["YAML syntax error: " ++ err]).
Proof. intros H. unfold parseAgentSpec. now rewrite H. Qed.

Lemma parseAgentSpec_guard parseYaml src raw :
  parseYaml src = YamlValue raw ->
  typeof_is_object raw = false \/ raw = VNull ->
  parseAgentSpec parseYaml src =
  ThrowsSpecParseError
    (new_SpecParseError
       ["Expected a YAML mapping, got a scalar or empty document"]).
Proof.
  intros H G. unfold parseAgentSpec. rewrite H.
  destruct G as [G| ->]; [|reflexivity].
  destruct raw; simpl in *; try discriminate; reflexivity.
Qed.

Lemma parseAgentSpec_schema parseYaml src raw :
  parseYaml src = YamlValue raw ->
  typeof_is_object raw = true -> raw <> VNull ->
  parseAgentSpec parseYaml src =
  match parse agentSpecSchema [] raw with
  | ThrewTypeError => ThrowsTypeError
  | Done (OK data, _) => Returns data
  | Done (_, zis) =>
      ThrowsSpecParseError (new_SpecParseError (formatZodIssues zis))
  end.
Proof.
  intros H T N. unfold parseAgentSpec. rewrite H.
  replace (_ || negb (typeof_is_object raw)) with false
    by (destruct raw; simpl in *; congruence).
  unfold safeParse.
  pose proof (@parse_failure_has_issues agentSpecSchema [] raw) as F.
  destruct (parse agentSpecSchema [] raw) as [[ret zis]|]; [|reflexivity].
  specialize (F _ eq_refl). simpl in *.
  destruct ret; [reflexivity| |];
    (destruct zis; [now destruct F | reflexivity]).
Qed.

Lemma mapping_status raw fields :
  fields_of raw = Some fields ->
  is_ok (fst (settled (parse agentSpecSchema [] raw))) =
  forallb (field_valid fields) agentSpecShape.
Proof.
  intros F. rewrite (@agentSpec_parse_eq _ _ F).
  destruct (prints (get fields "model")) eqn:P.
  - cbn [settled]. unfold mergeObjectSync. cbn [fst].
    rewrite merge_pairs_ok, forallb_map_fn. reflexivity.
  - unfold agentSpecShape. cbn [forallb settled fst is_ok].
    rewrite (@model_invalid_when_unprintable _ P).
    now rewrite andb_false_r.
Qed.

Lemma map_of_flat_map {A B C : Type} (f : B -> C) (g : A -> list B)
  (l : list A) :
  map f (flat_map g l) = flat_map (fun x => map f (g x)) l.
Proof.
  induction l as [|x l IH]; simpl; [reflexivity|].
  now rewrite map_app, IH.
Qed.

Lemma flat_map_of_map {A B C : Type} (f : A -> B) (g : B -> list C)
  (l : list A) :
  flat_map g (map f l) = flat_map (fun x => g (f x)) l.
Proof. induction l as [|x l IH]; simpl; [reflexivity | now rewrite IH]. Qed.

Lemma mapping_issues raw fields :
  fields_of raw = Some fields ->
  prints (get fields "model") = true ->
  formatZodIssues (snd (settled (parse agentSpecSchema [] raw))) =
  flat_map (field_report fields) agentSpecShape.
Proof.
  intros F P. rewrite (@agentSpec_parse_eq _ _ F), P.
  unfold formatZodIssues. cbn [settled].
  unfold mergeObjectSync. cbn [snd].
  now rewrite flat_map_of_map, map_of_flat_map.
Qed.

Lemma fields_pass_guard raw fields :
  fields_of raw = Some fields -> typeof_is_object raw = true /\ raw <> VNull.
Proof.
  destruct raw; try discriminate; split; try reflexivity; discriminate.
Qed.

(** A value with properties: the schema decides, unless the model cannot be
    printed. *)
Lemma parseAgentSpec_fields parseYaml src raw fields :
  parseYaml src = YamlValue raw ->
  fields_of raw = Some fields ->
  parseAgentSpec parseYaml src =
  if prints (get fields "model")
  then match fst (settled (parse agentSpecSchema [] raw)) with
       | OK data => Returns data
       | _ =>
           ThrowsSpecParseError
             (new_SpecParseError
                (flat_map (field_report fields) agentSpecShape))
       end
  else ThrowsTypeError.
Proof.
  intros H F. destruct (@fields_pass_guard _ _ F) as [T N].
  rewrite (@parseAgentSpec_schema _ _ _ H T N).
  destruct (prints (get fields "model")) eqn:P.
  - rewrite <- (@mapping_issues _ _ F P).
    rewrite (@agentSpec_parse_eq _ _ F), P. cbn [settled].
    destruct (mergeObjectSync _) as [[data|data|] zis]; reflexivity.
  - now rewrite (@agentSpec_parse_eq _ _ F), P.
Qed.

Lemma parseAgentSpec_mapping parseYaml src fields :
  mapping_of parseYaml src fields ->
  parseAgentSpec parseYaml src =
  if prints (get fields "model")
  then match fst (settled (parse agentSpecSchema [] (VObj fields))) with
       | OK data => Returns data
       | _ =>
           ThrowsSpecParseError
             (new_SpecParseError
                (flat_map (field_report fields) agentSpecShape))
       end
  else ThrowsTypeError.
Proof. intros H. now apply parseAgentSpec_fields. Qed.

Lemma valid_model_prints fields :
  forallb (field_valid fields) agentSpecShape = true ->
  prints (get fields "model") = true.
Proof.
  intros V. destruct (prints (get fields "model")) eqn:P; [reflexivity|].
  apply model_invalid_when_unprintable in P.
  rewrite forallb_forall in V.
  rewrite V in P; [discriminate|]. cbn; auto.
Qed.

Lemma parseAgentSpec_returns_iff parseYaml src fields :
  mapping_of parseYaml src fields ->
  (exists spec, parseAgentSpec parseYaml src = Returns spec) <->
  forallb (field_valid fields) agentSpecShape = true.
Proof.
  intros H. rewrite (@parseAgentSpec_mapping _ _ _ H).
  rewrite <- (@mapping_status (VObj fields) fields eq_refl).
  destruct (prints (get fields "model")) eqn:P.
  - destruct (fst (settled (parse agentSpecSchema [] (VObj fields)))); simpl;
      split; try discriminate; eauto; intros [spec E]; discriminate.
  - split; [intros [spec E]; discriminate|].
    rewrite (@mapping_status (VObj fields) fields eq_refl).
    intros V. apply valid_model_prints in V. congruence.
Qed.

Lemma parseAgentSpec_throws_iff parseYaml src fields :
  mapping_of parseYaml src fields ->
  prints (get fields "model") = true ->
  forallb (field_valid fields) agentSpecShape = false ->
  parseAgentSpec parseYaml src =
  ThrowsSpecParseError
    (new_SpecParseError (flat_map (field_report fields) agentSpecShape)).
Proof.
  intros H P V. rewrite (@parseAgentSpec_mapping _ _ _ H), P.
  rewrite <- (@mapping_status (VObj fields) fields eq_refl) in V.
  destruct (fst (settled (parse agentSpecSchema [] (VObj fields))));
    simpl in V; [discriminate | reflexivity | reflexivity].
Qed.

(** A mapping whose model cannot be printed: the TypeError of the error map
    leaves parseAgentSpec. *)
Lemma parseAgentSpec_type_error parseYaml src fields :
  mapping_of parseYaml src fields ->
  prints (get fields "model") = false ->
  parseAgentSpec parseYaml src = ThrowsTypeError.
Proof. intros H P. now rewrite (@parseAgentSpec_mapping _ _ _ H), P. Qed.

(** The plain [Error] of [handleResult] is never thrown. *)
Theorem parseAgentSpec_never_plain_error parseYaml src msg :
  parseAgentSpec parseYaml src <> ThrowsError msg.
Proof.
  destruct (parseYaml src) as [raw|err] eqn:H.
  - destruct (typeof_is_object raw) eqn:T.
    + destruct raw; try discriminate T;
        try (rewrite (@parseAgentSpec_schema _ _ _ H T); [|discriminate];
             destruct (parse agentSpecSchema [] _) as [[[data|data|] zis]|];
             discriminate).
      rewrite (@parseAgentSpec_guard _ _ _ H); [discriminate|auto].
    + rewrite (@parseAgentSpec_guard _ _ _ H); [discriminate|auto].
  - rewrite (@parseAgentSpec_yaml_error _ _ _ H). discriminate.
Qed.

(** ** Where issues point *)

Lemma extends_weaken path k issue :
  extends (path ++ [k]) issue -> extends path issue.
Proof.
  intros [rest E]. exists (k :: rest). rewrite E, <- app_assoc. reflexivity.
Qed.

Lemma extends_here code path msg : extends path (mkIssue code path msg).
Proof. exists []. simpl. now rewrite app_nil_r. Qed.

Lemma Forall_flat_map_intro {A B : Type} (Q : B -> Prop) (f : A -> list B)
  (l : list A) :
  Forall (fun x => Forall Q (f x)) l -> Forall Q (flat_map f l).
Proof.
  induction 1; simpl; [constructor | apply Forall_app; split; assumption].
Qed.

Lemma union_loop_issues (Q : ZodIssue -> Prop) path
  (results : list (completion parsed)) :
  Q (mkIssue invalid_union path "Invalid input") ->
  Forall (fun c => Forall Q (snd (settled c))) results ->
  forall dirty,
    match dirty with Some d => Forall Q (snd d) | None => True end ->
    Forall Q (snd (settled (union_loop path dirty results))).
Proof.
  intros Hq. induction 1 as [|[[ret zis]|] results Hr _ IH]; intros dirty Hd;
    simpl.
  - destruct dirty; [exact Hd | repeat constructor; exact Hq].
  - destruct ret.
    + constructor.
    + apply IH. destruct dirty; [exact Hd | exact Hr].
    + now apply IH.
  - constructor.
Qed.

Lemma enum_issue_paths errorMap code path v default :
  Forall (extends path)
    (snd (settled (enum_issue errorMap code path v default))).
Proof.
  unfold enum_issue. destruct errorMap as [f|];
    [destruct (f v)|]; simpl; repeat constructor; apply extends_here.
Qed.

Theorem parse_issue_paths (s : schema) :
  forall path v, Forall (extends path) (snd (settled (parse s path v))).
Proof.
  induction s as [checks|values errorMap|shape IH|element IH|innerType IH
                  |options IH] using schema_nested_ind; intros path v.
  - unfold parse, parse_string. destruct v; simpl;
      try (repeat constructor; apply extends_here).
    apply Forall_map, Forall_forall. intros c _.
    destruct c; apply extends_here.
  - unfold parse, parse_enum. destruct v; try apply enum_issue_paths.
    destruct (existsb _ values); [constructor | apply enum_issue_paths].
  - rewrite parse_object_eq. destruct (fields_of v) as [fields|];
      [|repeat constructor; apply extends_here].
    destruct (existsb _ shape); [constructor|].
    cbn [settled mergeObjectSync snd].
    rewrite flat_map_of_map. apply Forall_flat_map_intro.
    eapply Forall_impl; [|exact IH]. intros entry H. unfold pair_issues.
    simpl. eapply Forall_impl; [|apply H]. intros zi.
    apply extends_weaken.
  - destruct v;
      try (rewrite parse_array_other by discriminate;
           repeat constructor; apply extends_here).
    rewrite parse_array_eq.
    destruct (existsb _ (indexed items)); [constructor|].
    cbn [settled mergeArray snd].
    rewrite flat_map_of_map. apply Forall_flat_map_intro.
    apply Forall_forall. intros item _.
    eapply Forall_impl; [|apply IH]. intros zi. apply extends_weaken.
  - destruct v; cbn [parse]; try apply IH. constructor.
  - cbn [parse]. apply union_loop_issues; [apply extends_here| |exact I].
    apply Forall_map. eapply Forall_impl; [|exact IH]. intros o H. apply H.
Qed.

Lemma join_cons_text (f : string) (rest : list string) :
  exists tail, join "." (f :: rest) = f ++ tail /\
               (rest = [] -> tail = "") /\
               (rest <> [] -> exists t, tail = "." ++ t).
Proof.
  destruct rest as [|r rest].
  - exists "". simpl. rewrite append_nil_r. repeat split; congruence.
  - exists ("." ++ join "." (r :: rest)). repeat split; [congruence|].
    intros _. eauto.
Qed.

Lemma formatZodIssue_names_field (f : string) (zi : ZodIssue) :
  extends [Key f] zi -> names_field (formatZodIssue zi) f.
Proof.
  intros [rest E]. unfold formatZodIssue, names_field. rewrite E.
  simpl app. cbv beta iota. cbn [map path_elem_text].
  destruct (join_cons_text f (map path_elem_text rest))
    as (tail & -> & Hnil & Hcons).
  destruct rest as [|r rest].
  - left. rewrite Hnil by reflexivity. rewrite append_nil_r.
    rewrite <- (append_assoc f ": "). apply startsWith_app.
  - right. destruct Hcons as [t ->]; [discriminate|].
    rewrite !append_assoc. rewrite <- (append_assoc f ".").
    apply startsWith_app.
Qed.

Lemma field_report_names_field fields entry :
  Forall (fun line => names_field line (fst entry)) (field_report fields entry).
Proof.
  unfold field_report, formatZodIssues, field_result.
  apply Forall_map.
  eapply Forall_impl; [|apply parse_issue_paths].
  intros zi. apply formatZodIssue_names_field.
Qed.


(** ** The message of a SpecParseError *)

Lemma join_bullets_includes (sep : string) (lines : list string) (i : string) :
  In i lines ->
  includes (join sep (map (fun l => "  - " ++ l) lines)) i = true.
Proof.
  induction lines as [|x lines IH]; intros H; [destruct H|].
  destruct lines as [|y lines].
  - destruct H as [->|[]]. cbn [map join].
    replace ("  - " ++ i) with ("  - " ++ i ++ "")
      by now rewrite append_nil_r.
    apply includes_mid.
  - change (join sep (map (fun l => "  - " ++ l) (x :: y :: lines)))
      with (("  - " ++ x) ++ sep ++
            join sep (map (fun l => "  - " ++ l) (y :: lines))).
    destruct H as [->|H].
    + rewrite append_assoc. apply includes_mid.
    + rewrite <- append_assoc. apply includes_app_r. now apply IH.
Qed.

Lemma message_includes (lines : list string) (i : string) :
  In i lines -> includes (message (new_SpecParseError lines)) i = true.
Proof.
  intros H. unfold new_SpecParseError. cbn [message].
  rewrite <- append_assoc. apply includes_app_r.
  now apply join_bullets_includes.
Qed.

Lemma thrown_error_shape parseYaml src e :
  parseAgentSpec parseYaml src = ThrowsSpecParseError e ->
  exists lines, lines <> [] /\ e = new_SpecParseError lines.
Proof.
  intros H. destruct (parseYaml src) as [raw|err] eqn:Y.
  - destruct (typeof_is_object raw) eqn:T.
    + assert (N : raw = VNull \/ raw <> VNull)
        by (destruct raw; auto; right; discriminate).
      destruct N as [->|N].
      * rewrite (@parseAgentSpec_guard _ _ _ Y) in H by auto.
        injection H as <-. eexists. split; [|reflexivity]. discriminate.
      * rewrite (@parseAgentSpec_schema _ _ _ Y T N) in H.
        pose proof (@parse_failure_has_issues agentSpecSchema [] raw) as F.
        destruct (parse agentSpecSchema [] raw) as [[ret zis]|];
          [|discriminate H].
        specialize (F _ eq_refl). simpl in *.
        destruct ret; [discriminate| |]; injection H as <-;
          (eexists; split; [|reflexivity]);
          (destruct zis; [now destruct F | discriminate]).
    + rewrite (@parseAgentSpec_guard _ _ _ Y) in H by auto.
      injection H as <-. eexists. split; [|reflexivity]. discriminate.
  - rewrite (@parseAgentSpec_yaml_error _ _ _ Y) in H.
    injection H as <-. eexists. split; [|reflexivity]. discriminate.
Qed.

(** C9: every SpecParseError that parseAgentSpec throws, on any input,
    carries at least one issue, and its message string contains the text of
    each issue of its issues array. *)
Theorem C9_error_message_lists_every_issue parseYaml src e :
  parseAgentSpec parseYaml src = ThrowsSpecParseError e ->
  issues e <> [] /\
  forall i, In i (issues e) -> includes (message e) i = true.
Proof.
  intros H. destruct (thrown_error_shape _ _ H) as (lines & Hne & ->).
  split; [exact Hne|]. intros i Hi. now apply message_includes.
Qed.

Lemma C9_witness :
  issues (new_SpecParseError
            ["Expected a YAML mapping, got a scalar or empty document"]) <> []
  /\ forall i,
      In i (issues (new_SpecParseError
                      ["Expected a YAML mapping, got a scalar or empty document"])) ->
      includes
        (message (new_SpecParseError
                    ["Expected a YAML mapping, got a scalar or empty document"]))
        i = true.
Proof.
  apply (@C9_error_message_lists_every_issue (yields (VStr "just a string"))
           "just a string").
  reflexivity.
Defined.

(** ** The lines of a schema failure *)

Lemma root_parse raw :
  fields_of raw = None ->
  parse agentSpecSchema [] raw =
  Done (INVALID,
        [mkIssue invalid_type []
           (invalid_type_message "object" (getParsedType raw))]).
Proof.
  intros F. unfold agentSpecSchema. now rewrite parse_object_eq, F.
Qed.

Lemma schema_failure_lines raw :
  Forall (fun line =>
            startsWith line "(root): " = true \/
            exists f, In f field_names /\ names_field line f)
    (formatZodIssues (snd (settled (parse agentSpecSchema [] raw)))).
Proof.
  destruct (fields_of raw) as [fields|] eqn:F.
  - destruct (prints (get fields "model")) eqn:P.
    + rewrite (@mapping_issues _ _ F P). apply Forall_flat_map_intro.
      apply Forall_forall. intros entry Hentry.
      eapply Forall_impl; [|apply field_report_names_field].
      intros line Hline. right. exists (fst entry). split; [|exact Hline].
      now apply in_map.
    + rewrite (@agentSpec_parse_eq _ _ F), P. constructor.
  - rewrite (@root_parse _ F). repeat constructor.
Qed.

(** ** A sequence at the top level *)

(** C10 (amended): an input whose top level is a YAML sequence passes the
    mapping guard and is rejected by the schema with the single issue
    "(root): Expected object, received array"; the issue "Expected a YAML
    mapping, got a scalar or empty document" is not produced. *)
Theorem C10_sequence_rejected_at_root parseYaml src items :
  parseYaml src = YamlValue (VArr items) ->
  parseAgentSpec parseYaml src =
  ThrowsSpecParseError
    (new_SpecParseError ["(root): Expected object, received array"]).
Proof.
  intros Y. rewrite (@parseAgentSpec_schema _ _ _ Y); [|reflexivity|discriminate].
  reflexivity.
Qed.

Lemma C10_witness :
  parseAgentSpec (yields (VArr [VStr "a"; VStr "b"])) "[a, b]" =
  ThrowsSpecParseError
    (new_SpecParseError ["(root): Expected object, received array"]).
Proof.
  apply (@C10_sequence_rejected_at_root (yields (VArr [VStr "a"; VStr "b"]))
           "[a, b]" [VStr "a"; VStr "b"]).
  reflexivity.
Defined.

(** C10 as stated fails: for the empty sequence the error has one issue, and
    it is none of the missing-name, missing-model or missing-description
    issues that a mapping without these fields gets. *)
Lemma C10_counterexample :
  exists e,
    parseAgentSpec (yields (VArr [])) "[]" = ThrowsSpecParseError e /\
    issues e = ["(root): Expected object, received array"] /\
    parseAgentSpec (yields (VObj [])) "{}" =
    ThrowsSpecParseError
      (new_SpecParseError
         ["name: Required";
          "model: Unknown model " ++ quote ++ "undefined" ++ quote ++
          ". Supported: gemini-2.5-flash, gemini-2.5-pro, gemini-3-flash-preview";
          "description: Required"]) /\
    forall line, In line (issues e) ->
      ~ (exists f, In f ["name"; "model"; "description"] /\
                   names_field line f).
Proof.
  eexists. split; [reflexivity|]. split; [reflexivity|].
  split; [reflexivity|].
  intros line [<-|[]] (f & Hf & [H|H]);
    simpl in Hf; repeat (destruct Hf as [<-|Hf]; [discriminate H|]);
    destruct Hf.
Qed.

(** ** The fields of the agent schema, one by one *)

Lemma parse_string_ok checks path v :
  is_ok (fst (parse_string checks path v)) =
  match v with
  | VStr s => forallb (check_passes s) checks
  | _ => false
  end.
Proof.
  destruct v; try reflexivity. simpl.
  induction checks as [|c checks IH]; simpl; [reflexivity|].
  destruct (check_passes s c); simpl; [exact IH | reflexivity].
Qed.

Lemma enum_issue_not_ok errorMap code path v default :
  is_ok (fst (settled (enum_issue errorMap code path v default))) = false.
Proof.
  unfold enum_issue. destruct errorMap as [f|]; [destruct (f v)|];
    reflexivity.
Qed.

Lemma parse_enum_ok values errorMap path v :
  is_ok (fst (settled (parse_enum values errorMap path v))) =
  match v with
  | VStr s => existsb (String.eqb s) values
  | _ => false
  end.
Proof.
  unfold parse_enum. destruct v; try apply enum_issue_not_ok.
  destruct (existsb _ values); [reflexivity | apply enum_issue_not_ok].
Qed.

Lemma existsb_eqb_In (s : string) (values : list string) :
  existsb (String.eqb s) values = true <-> In s values.
Proof.
  rewrite existsb_exists. split.
  - intros (x & Hx & E). apply String.eqb_eq in E. now subst.
  - intros H. exists s. split; [exact H | apply String.eqb_refl].
Qed.

Lemma all_fields_valid (fields : list (string * value)) :
  forallb (field_valid fields) agentSpecShape = true <->
  field_valid fields ("name", nameSchema) = true /\
  field_valid fields ("model", modelSchema) = true /\
  field_valid fields ("description", descriptionSchema) = true /\
  field_valid fields ("tools", toolsSchema) = true /\
  field_valid fields ("skills", skillsSchema) = true /\
  field_valid fields ("acl", aclSchema) = true.
Proof.
  unfold agentSpecShape. cbn [forallb].
  rewrite !andb_true_iff. intuition.
Qed.

Lemma nonempty_length (s : string) :
  negb (Nat.ltb (String.length s) 1) = true <-> s <> "".
Proof.
  destruct s; simpl; split; intros H; congruence.
Qed.

Lemma name_field_valid (fields : list (string * value)) :
  field_valid fields ("name", nameSchema) = true <->
  exists s, get fields "name" = VStr s /\ spec_name_ok s.
Proof.
  unfold field_valid, field_result, nameSchema. cbn [fst snd parse settled].
  rewrite parse_string_ok. split.
  - destruct (get fields "name"); try discriminate.
    cbn [forallb check_passes]. rewrite !andb_true_iff.
    intros (_ & H & _). exists s. split; [reflexivity|].
    now apply name_pattern_spec.
  - intros (s & -> & H). cbn [forallb check_passes].
    assert (Hs : s <> "") by apply H.
    apply name_pattern_spec in H. rewrite H.
    apply nonempty_length in Hs. now rewrite Hs.
Qed.

Lemma model_field_valid (fields : list (string * value)) :
  field_valid fields ("model", modelSchema) = true <->
  exists m, get fields "model" = VStr m /\ In m SUPPORTED_MODELS.
Proof.
  unfold field_valid, field_result, modelSchema. cbn [fst snd parse].
  rewrite parse_enum_ok. split.
  - destruct (get fields "model"); try discriminate.
    intros H. exists s. split; [reflexivity|]. now apply existsb_eqb_In.
  - intros (m & -> & H). now apply existsb_eqb_In.
Qed.

Lemma description_field_valid (fields : list (string * value)) :
  field_valid fields ("description", descriptionSchema) = true <->
  exists d, get fields "description" = VStr d /\ d <> "".
Proof.
  unfold field_valid, field_result, descriptionSchema.
  cbn [fst snd parse settled].
  rewrite parse_string_ok. split.
  - destruct (get fields "description"); try discriminate.
    cbn [forallb check_passes]. rewrite andb_true_r.
    intros H. exists s. split; [reflexivity|]. now apply nonempty_length.
  - intros (d & -> & H). cbn [forallb check_passes]. rewrite andb_true_r.
    now apply nonempty_length.
Qed.

Lemma field_report_valid fields entry :
  field_valid fields entry = true -> field_report fields entry = [].
Proof.
  intros H. unfold field_report. unfold field_valid in H.
  unfold field_result in *. now rewrite parse_ok_no_issues.
Qed.

(** C7: parseAgentSpec accepts the name field if and only if it is a string
    that the specification's name rule allows (non-empty; lowercase letters,
    digits and hyphens only; first character a lowercase letter or digit):
    the name field parses as valid exactly then, a document that is returned
    has such a name, and a mapping whose other fields are valid is returned as
    soon as its name is such a string. *)
Theorem C7_name_accepted_iff_pattern parseYaml src fields :
  mapping_of parseYaml src fields ->
  (field_valid fields ("name", nameSchema) = true <->
   exists s, get fields "name" = VStr s /\ spec_name_ok s)
  /\
  ((exists spec, parseAgentSpec parseYaml src = Returns spec) ->
   exists s, get fields "name" = VStr s /\ spec_name_ok s)
  /\
  ((forall entry, In entry agentSpecShape -> fst entry <> "name" ->
                  field_valid fields entry = true) ->
   ((exists spec, parseAgentSpec parseYaml src = Returns spec) <->
    exists s, get fields "name" = VStr s /\ spec_name_ok s)).
Proof.
  intros M. split; [apply name_field_valid|]. split.
  - intros R. apply (parseAgentSpec_returns_iff M) in R.
    apply all_fields_valid in R. now apply name_field_valid.
  - intros Others. rewrite (parseAgentSpec_returns_iff M), all_fields_valid.
    rewrite <- name_field_valid. split; [tauto|]. intros N.
    split; [exact N|].
    repeat split; apply Others; simpl; auto 10; discriminate.
Qed.

Lemma C7_witness :
  (field_valid (("name", VStr "My Agent!") ::
                [("model", VStr "gemini-2.5-flash");
                 ("description", VStr "test")])
     ("name", nameSchema) = true <->
   exists s, VStr "My Agent!" = VStr s /\ spec_name_ok s)
  /\
  ((exists spec,
       parseAgentSpec
         (yields (VObj [("name", VStr "My Agent!");
                        ("model", VStr "gemini-2.5-flash");
                        ("description", VStr "test")])) "" = Returns spec) ->
   exists s, VStr "My Agent!" = VStr s /\ spec_name_ok s)
  /\
  ((forall entry, In entry agentSpecShape -> fst entry <> "name" ->
       field_valid [("name", VStr "My Agent!");
                    ("model", VStr "gemini-2.5-flash");
                    ("description", VStr "test")] entry = true) ->
   ((exists spec,
       parseAgentSpec
         (yields (VObj [("name", VStr "My Agent!");
                        ("model", VStr "gemini-2.5-flash");
                        ("description", VStr "test")])) "" = Returns spec) <->
    exists s, VStr "My Agent!" = VStr s /\ spec_name_ok s)).
Proof.
  apply (@C7_name_accepted_iff_pattern
           (yields (VObj [("name", VStr "My Agent!");
                          ("model", VStr "gemini-2.5-flash");
                          ("description", VStr "test")])) ""
           [("name", VStr "My Agent!"); ("model", VStr "gemini-2.5-flash");
            ("description", VStr "test")]).
  reflexivity.
Defined.

(** ** Unknown models *)

Lemma unknown_model_report (fields : list (string * value)) (m : string) :
  get fields "model" = VStr m -> ~ In m SUPPORTED_MODELS ->
  field_report fields ("model", modelSchema) = [unknown_model_line m].
Proof.
  intros G N. unfold field_report, field_result, modelSchema.
  cbn [fst snd parse]. rewrite G. unfold parse_enum.
  destruct (existsb (String.eqb m) SUPPORTED_MODELS) eqn:E.
  - apply existsb_eqb_In in E. contradiction.
  - reflexivity.
Qed.

Lemma unknown_model_line_lists_models (m model : string) :
  In model SUPPORTED_MODELS -> includes (unknown_model_line m) model = true.
Proof.
  intros H. unfold unknown_model_line.
  apply (includes_app_r "model: Unknown model ").
  apply (includes_app_r quote). apply (includes_app_r m).
  apply (includes_app_r quote).
  simpl in H. destruct H as [<-|[<-|[<-|[]]]]; reflexivity.
Qed.

(** C1 (amended): for a mapping with a valid name, a non-empty description and
    tools, skills and acl each absent or valid, whose model is a string
    outside the supported-model set, parseAgentSpec throws a SpecParseError
    with exactly one issue, and that issue's text contains every member of
    the supported-model set; and parseAgentSpec returns only when model is a
    member of the set. *)
Theorem C1_unknown_model_single_issue parseYaml src fields :
  mapping_of parseYaml src fields ->
  (forall m,
     get fields "model" = VStr m -> ~ In m SUPPORTED_MODELS ->
     (exists s, get fields "name" = VStr s /\ spec_name_ok s) ->
     (exists d, get fields "description" = VStr d /\ d <> "") ->
     field_valid fields ("tools", toolsSchema) = true ->
     field_valid fields ("skills", skillsSchema) = true ->
     field_valid fields ("acl", aclSchema) = true ->
     parseAgentSpec parseYaml src =
     ThrowsSpecParseError (new_SpecParseError [unknown_model_line m]) /\
     forall model, In model SUPPORTED_MODELS ->
                   includes (unknown_model_line m) model = true)
  /\
  (forall spec, parseAgentSpec parseYaml src = Returns spec ->
                exists m, get fields "model" = VStr m /\
                          In m SUPPORTED_MODELS).
Proof.
  intros M. split.
  - intros m G N Hname Hdesc Htools Hskills Hacl.
    split; [|intros model; apply unknown_model_line_lists_models].
    assert (P : prints (get fields "model") = true) by now rewrite G.
    rewrite (@parseAgentSpec_throws_iff _ _ _ M P).
    + unfold agentSpecShape. cbn [flat_map].
      apply name_field_valid in Hname.
      apply description_field_valid in Hdesc.
      rewrite (field_report_valid _ _ Hname), (field_report_valid _ _ Hdesc),
        (field_report_valid _ _ Htools), (field_report_valid _ _ Hskills),
        (field_report_valid _ _ Hacl), (unknown_model_report _ G N).
      reflexivity.
    + destruct (forallb (field_valid fields) agentSpecShape) eqn:E;
        [|reflexivity].
      apply all_fields_valid in E. destruct E as (_ & E & _).
      apply model_field_valid in E. destruct E as (m' & G' & Hin).
      congruence.
  - intros spec R.
    assert (R' : exists spec, parseAgentSpec parseYaml src = Returns spec)
      by eauto.
    apply (parseAgentSpec_returns_iff M) in R'.
    apply all_fields_valid in R'. now apply model_field_valid.
Qed.

Lemma helper_is_a_name : spec_name_ok "helper".
Proof. now apply name_pattern_spec. Qed.

Lemma C1_witness :
  parseAgentSpec (yields doc_gpt5) "" =
  ThrowsSpecParseError (new_SpecParseError [unknown_model_line "gpt-5"]) /\
  forall model, In model SUPPORTED_MODELS ->
                includes (unknown_model_line "gpt-5") model = true.
Proof.
  apply (proj1 (@C1_unknown_model_single_issue (yields doc_gpt5) ""
                  [("name", VStr "helper"); ("model", VStr "gpt-5");
                   ("description", VStr "test")] eq_refl) "gpt-5").
  - reflexivity.
  - simpl. intros [H|[H|[H|[]]]]; discriminate H.
  - exists "helper". split; [reflexivity | exact helper_is_a_name].
  - exists "test". split; [reflexivity | discriminate].
  - reflexivity.
  - reflexivity.
  - reflexivity.
Defined.

(** C1 as stated fails: with a valid name, a non-empty description and the
    model "gpt-5", a tools field that is not a list adds a second issue. *)
Lemma C1_counterexample :
  spec_name_ok "helper" /\ "test" <> "" /\ ~ In "gpt-5" SUPPORTED_MODELS /\
  parseAgentSpec
    (yields (VObj [("name", VStr "helper"); ("model", VStr "gpt-5");
                   ("description", VStr "test");
                   ("tools", VStr "filesystem")])) "" =
  ThrowsSpecParseError
    (new_SpecParseError
       [unknown_model_line "gpt-5"; "tools: Expected array, received string"]).
Proof.
  split; [exact helper_is_a_name|]. split; [discriminate|].
  split; [|reflexivity].
  simpl. intros [H|[H|[H|[]]]]; discriminate H.
Qed.

(** ** Objects, arrays and unions: when they are valid *)

Lemma threw_not_ok {A : Type} (f : A -> completion parsed) (l : list A) :
  existsb (fun x => threw (f x)) l = true ->
  forallb (fun x => is_ok (fst (settled (f x)))) l = false.
Proof.
  induction l as [|x l IH]; simpl; [discriminate|].
  destruct (f x); simpl; [|reflexivity].
  intros H. rewrite (IH H). apply andb_false_r.
Qed.

Lemma object_status shape path v :
  is_ok (fst (settled (parse (ZodObject shape) path v))) =
  match fields_of v with
  | Some f =>
      forallb (fun entry =>
                 is_ok (fst (settled
                               (parse (snd entry) (path ++ [Key (fst entry)])
                                  (get f (fst entry))))))
        shape
  | None => false
  end.
Proof.
  rewrite parse_object_eq. destruct (fields_of v) as [f|]; [|reflexivity].
  destruct (existsb _ shape) eqn:X.
  - symmetry. exact (threw_not_ok _ _ X).
  - cbn [settled]. unfold mergeObjectSync. cbn [fst].
    now rewrite merge_pairs_ok, forallb_map_fn.
Qed.

Lemma optional_array_status element path v :
  is_ok (fst (settled (parse (ZodOptional (ZodArray element)) path v))) =
  match v with
  | VUndefined => true
  | VArr items =>
      forallb (fun item =>
                 is_ok (fst (settled
                               (parse element (path ++ [Index (fst item)])
                                  (snd item)))))
        (indexed items)
  | _ => false
  end.
Proof.
  destruct v; try reflexivity.
  change (parse (ZodOptional (ZodArray element)) path (VArr items))
    with (parse (ZodArray element) path (VArr items)).
  rewrite parse_array_eq. destruct (existsb _ (indexed items)) eqn:X.
  - symmetry. exact (threw_not_ok _ _ X).
  - cbn [settled]. unfold mergeArray. cbn [fst].
    now rewrite merge_items_ok, forallb_map_fn.
Qed.

Lemma union_loop_ok path (results : list parsed) :
  forall dirty,
    match dirty with Some d => is_ok (fst d) = false | None => True end ->
    is_ok (fst (settled (union_loop path dirty (map (@Done parsed) results)))) =
    existsb (fun r => is_ok (fst r)) results.
Proof.
  induction results as [|[ret zis] results IH]; intros dirty Hd; simpl.
  - destruct dirty; [exact Hd | reflexivity].
  - destruct ret; simpl.
    + reflexivity.
    + apply IH. destruct dirty; [exact Hd | reflexivity].
    + now apply IH.
Qed.

Lemma union_status options path v :
  forallb plain options = true ->
  is_ok (fst (settled (parse (ZodUnion options) path v))) =
  existsb (fun option => is_ok (fst (settled (parse option path v)))) options.
Proof.
  intros P. rewrite (@settled_union _ path v P).
  rewrite <- (map_map (fun option => settled (parse option path v))
                (@Done parsed)).
  rewrite union_loop_ok by exact I. now rewrite existsb_map_fn.
Qed.

Lemma In_indexed_from (items : list value) (x : value) :
  forall n, In x items ->
            exists i, In (i, x) (combine (seq n (length items)) items).
Proof.
  induction items as [|y items IH]; intros n H; [destruct H|].
  simpl. destruct H as [->|H].
  - exists n. now left.
  - destruct (IH (S n) H) as [i Hi]. exists i. now right.
Qed.

Lemma access_enum_ok path f :
  is_ok (fst (settled (parse (ZodEnum ["read"; "write"] None) path (get f "access"))))
  = true ->
  get f "access" = VStr "read" \/ get f "access" = VStr "write".
Proof.
  cbn [parse]. rewrite parse_enum_ok.
  destruct (get f "access"); try discriminate.
  intros H. apply existsb_eqb_In in H. simpl in H.
  destruct H as [<-|[<-|[]]]; auto.
Qed.

Lemma tool_entry_access path entry :
  is_ok (fst (settled (parse toolSchema path entry))) = true -> access_ok entry.
Proof.
  unfold toolSchema. rewrite union_status by reflexivity. cbn [existsb].
  unfold mcpToolSchema, localToolSchema. rewrite !object_status.
  destruct entry as [| | | | | |fields| | | |text]; try discriminate.
  cbn [fields_of forallb fst snd].
  rewrite orb_false_r, !andb_true_r. intros H. exists fields.
  split; [reflexivity|].
  apply orb_true_iff in H as [H|H]; apply andb_true_iff in H as [_ H];
    now apply access_enum_ok in H.
Qed.

(** ** Every violated field is reported *)

Lemma invalid_field_rejects fields entry :
  In entry agentSpecShape -> field_valid fields entry = false ->
  forallb (field_valid fields) agentSpecShape = false.
Proof.
  intros Hin V. destruct (forallb _ agentSpecShape) eqn:A; [|reflexivity].
  rewrite forallb_forall in A. rewrite (A _ Hin) in V. discriminate.
Qed.

Lemma tools_field_invalid fields entries entry :
  get fields "tools" = VArr entries -> In entry entries ->
  ~ access_ok entry ->
  field_valid fields ("tools", toolsSchema) = false.
Proof.
  intros G Hin Hbad.
  destruct (field_valid fields ("tools", toolsSchema)) eqn:E; [|reflexivity].
  exfalso. apply Hbad.
  unfold field_valid, field_result, toolsSchema in E. cbn [fst snd] in E.
  rewrite optional_array_status, G in E.
  destruct (In_indexed_from _ _ 0 Hin) as [i Hi].
  rewrite forallb_forall in E. specialize (E _ Hi).
  now apply tool_entry_access in E.
Qed.

Lemma field_report_nonempty fields entry :
  In entry agentSpecShape -> prints (get fields "model") = true ->
  field_valid fields entry = false -> field_report fields entry <> [].
Proof.
  intros Hin P H. unfold field_report, formatZodIssues.
  assert (T : threw (field_result fields entry) = false).
  { rewrite (@field_threw fields _ Hin), P. apply andb_false_r. }
  apply done_settled in T. unfold field_result in T.
  pose proof (parse_failure_has_issues _ _ _ T H) as F.
  unfold field_result.
  destruct (snd (settled (parse (snd entry) [Key (fst entry)]
                            (get fields (fst entry)))));
    [now destruct F | discriminate].
Qed.


Lemma names_field_unique line f1 f2 :
  In f1 field_names -> In f2 field_names ->
  names_field line f1 -> names_field line f2 -> f1 = f2.
Proof.
  intros H1 H2 [N1|N1] [N2|N2];
    apply startsWith_true_iff in N1 as [rest ->];
    simpl in H1, H2;
    repeat (destruct H1 as [<-|H1]);
    repeat (destruct H2 as [<-|H2]);
    try contradiction; try reflexivity; discriminate N2.
Qed.

Lemma violated_field_line fields entry :
  In entry agentSpecShape -> prints (get fields "model") = true ->
  field_valid fields entry = false ->
  exists line,
    In line (flat_map (field_report fields) agentSpecShape) /\
    names_field line (fst entry).
Proof.
  intros Hin P V. apply field_report_nonempty in V; [|exact Hin|exact P].
  pose proof (field_report_names_field fields entry) as N.
  destruct (field_report fields entry) as [|line rest] eqn:R; [congruence|].
  exists line. split.
  - apply in_flat_map. exists entry. split; [exact Hin|]. rewrite R. now left.
  - now inversion N.
Qed.



(** C4: a document with a tools entry that lacks an access property equal
    to "read" or "write" (omitted, any other value, or an entry that is no
    mapping) is never returned, and it is rejected with a SpecParseError
    that has an issue under tools whenever the model value can be printed.
    When the model is a mapping with a key toString, the error map of the
    model field throws a TypeError while it builds its message, and
    parseAgentSpec throws that TypeError instead of the SpecParseError its
    documentation promises: so for
    {name: helper, model: {toString: 1}, description: test,
     tools: [{server: mcp://example, access: admin}]}. *)
Theorem C4_tool_access_required :
  parseAgentSpec (yields doc_model_with_toString) "" = ThrowsTypeError /\
  forall parseYaml src fields entries entry,
    mapping_of parseYaml src fields ->
    get fields "tools" = VArr entries ->
    In entry entries ->
    ~ access_ok entry ->
    (~ exists spec, parseAgentSpec parseYaml src = Returns spec) /\
    (prints (get fields "model") = true ->
     exists e line,
       parseAgentSpec parseYaml src = ThrowsSpecParseError e /\
       In line (issues e) /\ names_field line "tools") /\
    (prints (get fields "model") = false ->
     parseAgentSpec parseYaml src = ThrowsTypeError).
Proof.
  split; [reflexivity|].
  intros parseYaml src fields entries entry M G Hin Hbad.
  pose proof (@tools_field_invalid _ _ _ G Hin Hbad) as V.
  assert (Ht : In ("tools", toolsSchema) agentSpecShape) by (cbn; auto 10).
  pose proof (@invalid_field_rejects _ _ Ht V) as E.
  split; [|split].
  - intros R. apply (@parseAgentSpec_returns_iff _ _ _ M) in R. congruence.
  - intros P.
    destruct (@violated_field_line fields _ Ht P V) as (line & L & N).
    exists (new_SpecParseError (flat_map (field_report fields) agentSpecShape)),
      line.
    split; [apply (@parseAgentSpec_throws_iff _ _ _ M P E)|].
    split; assumption.
  - intros P. apply (@parseAgentSpec_type_error _ _ _ M P).
Qed.

Lemma C4_witness :
  (~ exists spec,
       parseAgentSpec
         (yields (VObj [("name", VStr "helper");
                        ("model", VStr "gemini-2.5-flash");
                        ("description", VStr "test");
                        ("tools",
                         VArr [VObj [("server", VStr "mcp://example");
                                     ("access", VStr "admin")]])])) ""
       = Returns spec) /\
  exists e line,
    parseAgentSpec
      (yields (VObj [("name", VStr "helper");
                     ("model", VStr "gemini-2.5-flash");
                     ("description", VStr "test");
                     ("tools",
                      VArr [VObj [("server", VStr "mcp://example");
                                  ("access", VStr "admin")]])])) ""
    = ThrowsSpecParseError e /\
    In line (issues e) /\ names_field line "tools".
Proof.
  destruct (proj2 C4_tool_access_required
              (yields (VObj [("name", VStr "helper");
                             ("model", VStr "gemini-2.5-flash");
                             ("description", VStr "test");
                             ("tools",
                              VArr [VObj [("server", VStr "mcp://example");
                                          ("access", VStr "admin")]])])) ""
              [("name", VStr "helper"); ("model", VStr "gemini-2.5-flash");
               ("description", VStr "test");
               ("tools",
                VArr [VObj [("server", VStr "mcp://example");
                            ("access", VStr "admin")]])]
              [VObj [("server", VStr "mcp://example");
                     ("access", VStr "admin")]]
              (VObj [("server", VStr "mcp://example");
                     ("access", VStr "admin")]))
    as (N & T & _).
  - reflexivity.
  - reflexivity.
  - left. reflexivity.
  - intros (f & E & [H|H]); injection E as <-; discriminate H.
  - split; [exact N | apply T; reflexivity].
Defined.




(** ** Parse failures and schema failures *)

Lemma guard_line_is_no_schema_line :
  ~ (startsWith guard_line "(root): " = true \/
     exists f, In f field_names /\ names_field guard_line f).
Proof.
  intros [H|(f & Hf & [H|H])]; [discriminate H| |];
    simpl in Hf; repeat (destruct Hf as [<-|Hf]; [discriminate H|]);
    destruct Hf.
Qed.





(** ** ACL entries *)

Lemma acl_entry_status path x :
  is_ok (fst (settled (parse aclEntrySchema path x))) = true <->
  acl_entry_valid x.
Proof.
  unfold aclEntrySchema, acl_entry_valid. rewrite object_status. split.
  - destruct x as [| | | | | |fields| | | |text]; try discriminate.
    cbn [fields_of forallb fst snd parse settled].
    rewrite parse_string_ok, parse_enum_ok, andb_true_r.
    intros H. apply andb_true_iff in H as [Hp Hr].
    destruct (get fields "principal") eqn:P; try discriminate.
    destruct (get fields "role") eqn:R; try discriminate.
    exists fields, s. cbn [forallb check_passes] in Hp.
    rewrite andb_true_r in Hp. apply nonempty_length in Hp.
    repeat split; try assumption.
    apply existsb_eqb_In in Hr. simpl in Hr.
    destruct Hr as [<-|[<-|[]]]; auto.
  - intros (f & p & -> & P & Hp & R).
    cbn [fields_of forallb fst snd parse settled].
    rewrite parse_string_ok, parse_enum_ok, andb_true_r, P.
    cbn [forallb check_passes]. apply nonempty_length in Hp. rewrite Hp.
    destruct R as [-> | ->]; reflexivity.
Qed.

Lemma acl_entry_valid_iff (p : string) :
  acl_entry_valid (acl_entry p) <-> p <> "".
Proof.
  unfold acl_entry_valid, acl_entry. split.
  - intros (f & q & E & P & Hq & _). injection E as <-.
    simpl in P. injection P as <-. exact Hq.
  - intros H. eexists. exists p. repeat split; auto.
Qed.

Lemma forallb_indexed_from (Q : value -> Prop)
  (test : nat -> value -> bool) (items : list value) :
  (forall i x, test i x = true <-> Q x) ->
  forall n,
    forallb (fun item => test (fst item) (snd item))
      (combine (seq n (length items)) items) = true <->
    Forall Q items.
Proof.
  intros H. induction items as [|x items IH]; intros n; simpl.
  - split; auto.
  - rewrite andb_true_iff, H, IH. split.
    + intros [? ?]. now constructor.
    + intros F. now inversion F.
Qed.

Lemma acl_field_valid (fields : list (string * value)) (items : list value) :
  get fields "acl" = VArr items ->
  field_valid fields ("acl", aclSchema) = true <->
  Forall acl_entry_valid items.
Proof.
  intros G. unfold field_valid, field_result, aclSchema. cbn [fst snd].
  rewrite optional_array_status, G. unfold indexed.
  apply (forallb_indexed_from acl_entry_valid
           (fun i x =>
              is_ok (fst (settled (parse aclEntrySchema [Key "acl"; Index i] x))))).
  intros i x. apply acl_entry_status.
Qed.

(** C2 (amended): on an otherwise-valid agent spec whose acl list contains an
    entry with principal [s] and role execute, parseAgentSpec succeeds if and
    only if [s] is not the empty string; the principal is not matched against
    any pattern. *)
Theorem C2_principal_only_nonempty parseYaml src fields before after s :
  mapping_of parseYaml src fields ->
  get fields "acl" = VArr (before ++ acl_entry s :: after) ->
  (forall entry, In entry agentSpecShape -> fst entry <> "acl" ->
                 field_valid fields entry = true) ->
  Forall acl_entry_valid before ->
  Forall acl_entry_valid after ->
  ((exists spec, parseAgentSpec parseYaml src = Returns spec) <-> s <> "").
Proof.
  intros M G Others Hb Ha.
  rewrite (parseAgentSpec_returns_iff M), all_fields_valid.
  rewrite (acl_field_valid _ G), Forall_app, <- acl_entry_valid_iff. split.
  - intros (_ & _ & _ & _ & _ & _ & F). now inversion F.
  - intros V. repeat split;
      try (apply Others; simpl; auto 10; discriminate);
      [exact Hb | now constructor].
Qed.

Lemma C2_witness :
  (exists spec,
      parseAgentSpec
        (yields (VObj [("name", VStr "helper");
                       ("model", VStr "gemini-2.5-flash");
                       ("description", VStr "test");
                       ("acl", VArr [acl_entry "user:connor";
                                     acl_entry "everyone"])])) ""
      = Returns spec) <-> "everyone" <> "".
Proof.
  apply (@C2_principal_only_nonempty
           (yields (VObj [("name", VStr "helper");
                          ("model", VStr "gemini-2.5-flash");
                          ("description", VStr "test");
                          ("acl", VArr [acl_entry "user:connor";
                                        acl_entry "everyone"])])) ""
           [("name", VStr "helper"); ("model", VStr "gemini-2.5-flash");
            ("description", VStr "test");
            ("acl", VArr [acl_entry "user:connor"; acl_entry "everyone"])]
           [acl_entry "user:connor"] [] "everyone").
  - reflexivity.
  - reflexivity.
  - intros entry H N. simpl in H.
    repeat (destruct H as [<-|H]; [try reflexivity; now destruct N|]).
    destruct H.
  - constructor; [|constructor]. apply acl_entry_valid_iff. discriminate.
  - constructor.
Defined.

(** C2 as stated fails: the principal "everyone" has none of the three
    recognized forms, and the spec that grants it execute is accepted. *)
Lemma C2_counterexample :
  recognized_principal "everyone" = false /\
  parseAgentSpec
    (yields (VObj [("name", VStr "helper");
                   ("model", VStr "gemini-2.5-flash");
                   ("description", VStr "test");
                   ("acl", VArr [acl_entry "everyone"])])) "" =
  Returns (VObj [("name", VStr "helper");
                 ("model", VStr "gemini-2.5-flash");
                 ("description", VStr "test");
                 ("acl", VArr [acl_entry "everyone"])]).
Proof. split; reflexivity. Qed.

(** ** What a valid parse returns *)

Lemma has_key_app (l1 l2 : list (string * value)) (k : string) :
  has_key (l1 ++ l2) k = has_key l1 k || has_key l2 k.
Proof.
  induction l1 as [|[k1 v1] l1 IH]; simpl; [reflexivity|].
  now rewrite IH, orb_assoc.
Qed.

Lemma get_app (l1 l2 : list (string * value)) (k : string) :
  get (l1 ++ l2) k = if has_key l1 k then get l1 k else get l2 k.
Proof.
  induction l1 as [|[k1 v1] l1 IH]; simpl; [reflexivity|].
  destruct (String.eqb k1 k); simpl; [reflexivity | exact IH].
Qed.

Lemma get_absent (l : list (string * value)) (k : string) :
  has_key l k = false -> get l k = VUndefined.
Proof.
  induction l as [|[k1 v1] l IH]; simpl; [reflexivity|].
  destruct (String.eqb k1 k); simpl; [discriminate | exact IH].
Qed.

Lemma has_key_kept_other key x a k :
  key <> k -> has_key (kept key x a) k = false.
Proof.
  intros N. unfold kept. destruct (_ && _); simpl; [|reflexivity].
  apply String.eqb_neq in N. now rewrite N.
Qed.

Lemma kept_cases key x a :
  key <> "__proto__" ->
  kept key x a = [(key, x)] \/ (kept key x a = [] /\ x = VUndefined).
Proof.
  intros N. unfold kept. apply String.eqb_neq in N. rewrite N.
  destruct x; simpl; auto. destruct a; auto.
Qed.

Lemma merge_pairs_get (pairs : list (string * parsed * bool)) :
  forall dirty obj v,
    merge_pairs dirty obj pairs = OK v ->
    NoDup (map (fun pair => fst (fst pair)) pairs) ->
    ~ In "__proto__" (map (fun pair => fst (fst pair)) pairs) ->
    (forall k, In k (map (fun pair => fst (fst pair)) pairs) ->
               has_key obj k = false) ->
    exists out,
      v = VObj out /\
      (forall pair, In pair pairs ->
                    fst (snd (fst pair)) = OK (get out (fst (fst pair)))) /\
      (forall k, has_key out k = true ->
                 has_key obj k = true \/
                 In k (map (fun pair => fst (fst pair)) pairs)) /\
      (forall k, has_key obj k = true -> get out k = get obj k).
Proof.
  induction pairs as [|[[key [ret zis]] a] pairs IH];
    intros dirty obj v H ND NP Fresh.
  - simpl in H. destruct dirty; [discriminate|]. injection H as <-.
    exists obj. repeat split; auto. intros pair [].
  - simpl in H, ND, NP, Fresh. inversion ND as [|? ? Hnotin ND']; subst.
    destruct ret as [x|x|]; [| |discriminate].
    2:{ pose proof (merge_pairs_ok pairs true (obj ++ kept key x a)) as O.
        rewrite H in O. discriminate. }
    assert (Kne : key <> "__proto__") by (intros E; apply NP; now left).
    destruct (IH dirty (obj ++ kept key x a)%list v H ND')
      as (out & -> & Hpairs & Hkeys & Hold).
    { intros Hin. apply NP. now right. }
    { intros k Hk. rewrite has_key_app, Fresh by now right.
      apply has_key_kept_other. intros ->. contradiction. }
    exists out. split; [reflexivity|]. repeat split.
    + intros pair [<-|Hin]; [|now apply Hpairs]. cbn [fst snd]. f_equal.
      destruct (kept_cases x a Kne) as [K|[K ->]].
      * rewrite Hold.
        -- rewrite get_app, Fresh by now left. rewrite K. simpl.
           now rewrite String.eqb_refl.
        -- rewrite has_key_app, K. simpl. rewrite String.eqb_refl.
           apply orb_true_r.
      * symmetry. apply get_absent.
        destruct (has_key out key) eqn:E; [|reflexivity].
        apply Hkeys in E. destruct E as [E|E]; [|contradiction].
        rewrite has_key_app, K, Fresh in E by now left. discriminate.
    + intros k Hk. apply Hkeys in Hk.
      destruct Hk as [Hk|Hk]; [|right; right; exact Hk].
      rewrite has_key_app in Hk. apply orb_true_iff in Hk as [Hk|Hk]; [auto|].
      right. left. destruct (String.eqb key k) eqn:E.
      * now apply String.eqb_eq.
      * apply String.eqb_neq in E.
        rewrite (has_key_kept_other x a E) in Hk. discriminate.
    + intros k Hk. rewrite Hold.
      * now rewrite get_app, Hk.
      * rewrite has_key_app, Hk. reflexivity.
Qed.

(** A valid object parse returns an object that holds, under each key of the
    shape, what that key's schema returned, and no other key. *)
Lemma object_output shape path f v :
  NoDup (map fst shape) -> ~ In "__proto__" (map fst shape) ->
  fst (settled (parse (ZodObject shape) path (VObj f))) = OK v ->
  exists out,
    v = VObj out /\
    (forall entry, In entry shape ->
       fst (settled (parse (snd entry) (path ++ [Key (fst entry)])
                       (get f (fst entry))))
       = OK (get out (fst entry))) /\
    (forall k, has_key out k = true -> In k (map fst shape)).
Proof.
  intros ND NP H. rewrite parse_object_eq in H. cbn [fields_of] in H.
  destruct (existsb _ shape); [discriminate H|].
  cbn [settled] in H. unfold mergeObjectSync in H.
  cbn [fst] in H.
  apply merge_pairs_get in H.
  - destruct H as (out & -> & Hpairs & Hkeys & _). exists out.
    split; [reflexivity|]. split.
    + intros entry Hin.
      apply (Hpairs (fst entry,
                     settled (parse (snd entry) (path ++ [Key (fst entry)])
                                (get f (fst entry))),
                     has_key f (fst entry))).
      apply in_map_iff. now exists entry.
    + intros k Hk. apply Hkeys in Hk. destruct Hk as [Hk|Hk];
        [discriminate|]. now rewrite map_map in Hk.
  - now rewrite map_map.
  - now rewrite map_map.
  - reflexivity.
Qed.

Lemma merge_items_value (results : list parsed) :
  forall dirty arr v,
    merge_items dirty arr results = OK v ->
    exists outs,
      v = VArr (arr ++ outs) /\
      Forall2 (fun r o => fst r = OK o) results outs.
Proof.
  induction results as [|[ret zis] results IH]; intros dirty arr v H;
    simpl in H.
  - destruct dirty; [discriminate|]. injection H as <-.
    exists []. now rewrite app_nil_r.
  - destruct ret as [x|x|]; [| |discriminate].
    + destruct (IH _ _ _ H) as (outs & -> & F).
      exists (x :: outs). rewrite <- app_assoc. split; [reflexivity|].
      now constructor.
    + pose proof (merge_items_ok results true (arr ++ [x])) as O.
      rewrite H in O. discriminate.
Qed.

Lemma union_loop_value path (results : list parsed) out :
  forall dirty,
    match dirty with Some d => is_ok (fst d) = false | None => True end ->
    fst (settled (union_loop path dirty (map (@Done parsed) results))) =
    OK out ->
    exists r, In r results /\ fst r = OK out.
Proof.
  induction results as [|[ret zis] results IH]; intros dirty Hd H; simpl in H.
  - destruct dirty as [d|]; [|discriminate]. rewrite H in Hd. discriminate.
  - destruct ret as [x|x|].
    + exists (OK x, zis). split; [now left | exact H].
    + apply IH in H.
      * destruct H as (r & Hin & E). exists r. split; [now right | exact E].
      * destruct dirty; [exact Hd | reflexivity].
    + destruct (IH _ Hd H) as (r & Hin & E).
      exists r. split; [now right | exact E].
Qed.

(** ** Tool entries *)

Lemma tool_object_parse (k : string) path f :
  String.eqb k "__proto__" = false ->
  fst (settled (parse (ZodObject [(k, ZodString [check_min 1 None]);
                         ("access", ZodEnum ["read"; "write"] None)])
         path (VObj f))) =
  match get f k, get f "access" with
  | VStr s, VStr a =>
      if existsb (String.eqb a) ["read"; "write"]
      then match s with
           | "" => DIRTY (VObj [(k, VStr s); ("access", VStr a)])
           | _ => OK (VObj [(k, VStr s); ("access", VStr a)])
           end
      else INVALID
  | _, _ => INVALID
  end.
Proof.
  intros K. rewrite settled_object by reflexivity.
  cbn [fields_of parse map fst snd settled]. unfold mergeObjectSync.
  cbn [fst]. unfold parse_string, parse_enum, enum_issue.
  destruct (get f k) as [| | | |s| | | | | |]; try reflexivity.
  destruct (get f "access") as [| | | |a| | | | | |];
    try (destruct s; reflexivity).
  destruct (existsb (String.eqb a) ["read"; "write"]);
    destruct s; cbn; unfold kept; rewrite ?K; reflexivity.
Qed.

Lemma tool_object_output (k : string) path f out :
  String.eqb k "__proto__" = false ->
  fst (settled (parse (ZodObject [(k, ZodString [check_min 1 None]);
                         ("access", ZodEnum ["read"; "write"] None)])
         path (VObj f))) = OK out ->
  exists s a,
    out = VObj [(k, VStr s); ("access", VStr a)] /\ s <> "" /\
    (a = "read" \/ a = "write").
Proof.
  intros K. rewrite (@tool_object_parse k path f K).
  destruct (get f k) as [| | | |s| | | | | |]; try discriminate.
  destruct (get f "access") as [| | | |a| | | | | |]; try discriminate.
  destruct (existsb (String.eqb a) ["read"; "write"]) eqn:E;
    [|discriminate].
  destruct s; [discriminate|]. intros H. injection H as <-.
  eexists. exists a. split; [reflexivity|]. split; [discriminate|].
  apply existsb_eqb_In in E. simpl in E. destruct E as [<-|[<-|[]]]; auto.
Qed.

Lemma tool_entry_output path entry out :
  fst (settled (parse toolSchema path entry)) = OK out ->
  server_form out \/ name_form out.
Proof.
  unfold toolSchema.
  rewrite (@settled_union [mcpToolSchema; localToolSchema] path entry
             eq_refl).
  rewrite <- (map_map (fun option => settled (parse option path entry))
                (@Done parsed)).
  intros H. apply union_loop_value in H; [|exact I]. cbn [map] in H.
  destruct H as (r & [<-|[<-|[]]] & E);
    (destruct entry; try discriminate E);
    apply tool_object_output in E; try reflexivity; [left | right]; exact E.
Qed.

Lemma forms_exclusive out : server_form out -> name_form out -> False.
Proof.
  intros (s & a & -> & _) (n & b & E & _). discriminate E.
Qed.

Lemma server_entry_accepted path f s a :
  get f "server" = VStr s -> s <> "" ->
  get f "access" = VStr a -> a = "read" \/ a = "write" ->
  parse toolSchema path (VObj f) =
  Done (OK (VObj [("server", VStr s); ("access", VStr a)]), []).
Proof.
  intros S Hs A Ha.
  assert (M : fst (settled (parse mcpToolSchema path (VObj f))) =
              OK (VObj [("server", VStr s); ("access", VStr a)])).
  { unfold mcpToolSchema. rewrite tool_object_parse by reflexivity.
    rewrite S, A. destruct Ha as [-> | ->]; cbn [existsb String.eqb];
      destruct s; simpl; congruence. }
  unfold toolSchema.
  rewrite (@settled_union [mcpToolSchema; localToolSchema] path (VObj f)
             eq_refl).
  cbn [map].
  destruct (settled (parse mcpToolSchema path (VObj f))) as [ret zis].
  simpl in M. subst ret. reflexivity.
Qed.

Lemma returned_spec_fields parseYaml src fields spec :
  mapping_of parseYaml src fields ->
  parseAgentSpec parseYaml src = Returns spec ->
  exists out,
    spec = VObj out /\
    (forall entry, In entry agentSpecShape ->
                   fst (settled (field_result fields entry)) =
                   OK (get out (fst entry)))
    /\ (forall k, has_key out k = true -> In k field_names).
Proof.
  intros M R. rewrite (@parseAgentSpec_mapping _ _ _ M) in R.
  destruct (prints (get fields "model")); [|discriminate R].
  destruct (fst (settled (parse agentSpecSchema [] (VObj fields))))
    as [v| |] eqn:E; try discriminate.
  injection R as ->. unfold agentSpecSchema in E.
  apply object_output in E.
  - exact E.
  - repeat constructor; simpl; intuition discriminate.
  - simpl. intuition discriminate.
Qed.

Lemma optional_array_output element path v outs :
  fst (settled (parse (ZodOptional (ZodArray element)) path v)) =
  OK (VArr outs) ->
  exists items,
    v = VArr items /\
    Forall2 (fun item o =>
               fst (settled (parse element (path ++ [Index (fst item)])
                               (snd item)))
               = OK o)
      (indexed items) outs.
Proof.
  destruct v; try discriminate.
  change (parse (ZodOptional (ZodArray element)) path (VArr items))
    with (parse (ZodArray element) path (VArr items)).
  rewrite parse_array_eq. destruct (existsb _ (indexed items));
    [discriminate|].
  cbn [settled]. unfold mergeArray. cbn [fst].
  intros H. apply merge_items_value in H. destruct H as (os & E & F).
  injection E as ->. exists items. split; [reflexivity|].
  clear - F. remember (indexed items) as l. clear Heql.
  revert os F. induction l as [|item l IH]; intros os F; inversion F; subst;
    constructor; auto.
Qed.

Lemma Forall2_In_r {A B : Type} (R : A -> B -> Prop) (l : list A)
  (l' : list B) (y : B) :
  Forall2 R l l' -> In y l' -> exists x, In x l /\ R x y.
Proof.
  induction 1 as [|a b l l' Hab _ IH]; intros H; [destruct H|].
  destruct H as [<-|H].
  - exists a. split; [now left | exact Hab].
  - destruct (IH H) as (x & Hx & Rx). exists x. split; [now right | exact Rx].
Qed.

Lemma returned_list parseYaml src fields spec entry outs out :
  mapping_of parseYaml src fields ->
  parseAgentSpec parseYaml src = Returns spec ->
  In entry agentSpecShape ->
  prop spec (fst entry) = VArr outs -> In out outs ->
  forall element, snd entry = ZodOptional (ZodArray element) ->
  exists i x,
    fst (settled (parse element [Key (fst entry); Index i] x)) = OK out.
Proof.
  intros M R Hin P Hout element E.
  destruct (returned_spec_fields M R) as (o & -> & Hfields & _).
  specialize (Hfields entry Hin). simpl in P. rewrite P in Hfields.
  unfold field_result in Hfields. rewrite E in Hfields.
  apply optional_array_output in Hfields.
  destruct Hfields as (items & _ & F).
  destruct (@Forall2_In_r _ _ _ _ _ _ F Hout) as ([i x] & _ & Hx).
  now exists i, x.
Qed.

(** C3 (amended): every entry of the tools list of a returned AgentSpec has
    exactly one of two forms, [{server, access}] or [{name, access}], with a
    non-empty string and access "read" or "write"; there is no third schema
    form, an agent reference being a server entry.  An input entry that
    supplies a server key together with a name key is not rejected: with a
    valid server and access it is parsed as the server form and the name key
    is dropped. *)
Theorem C3_tool_entry_forms parseYaml src fields spec outs out :
  mapping_of parseYaml src fields ->
  parseAgentSpec parseYaml src = Returns spec ->
  prop spec "tools" = VArr outs ->
  In out outs ->
  ((server_form out /\ ~ name_form out) \/
   (name_form out /\ ~ server_form out))
  /\
  (forall path f s a,
     get f "server" = VStr s -> s <> "" ->
     get f "access" = VStr a -> a = "read" \/ a = "write" ->
     parse toolSchema path (VObj f) =
     Done (OK (VObj [("server", VStr s); ("access", VStr a)]), [])).
Proof.
  intros M R P Hout. split.
  - assert (Hin : In ("tools", toolsSchema) agentSpecShape)
      by (simpl; auto).
    destruct (@returned_list parseYaml src fields spec
                ("tools", toolsSchema) outs out M R Hin P Hout
                toolSchema eq_refl) as (i & x & Hx).
    apply tool_entry_output in Hx. destruct Hx as [S|N].
    + left. split; [exact S|]. intros N. exact (forms_exclusive S N).
    + right. split; [exact N|]. intros S. exact (forms_exclusive S N).
  - intros path f s a. apply server_entry_accepted.
Qed.

Lemma C3_witness :
  ((server_form (VObj [("server", VStr "mcp://example");
                       ("access", VStr "read")]) /\
    ~ name_form (VObj [("server", VStr "mcp://example");
                       ("access", VStr "read")])) \/
   (name_form (VObj [("server", VStr "mcp://example");
                     ("access", VStr "read")]) /\
    ~ server_form (VObj [("server", VStr "mcp://example");
                         ("access", VStr "read")])))
  /\
  (forall path f s a,
     get f "server" = VStr s -> s <> "" ->
     get f "access" = VStr a -> a = "read" \/ a = "write" ->
     parse toolSchema path (VObj f) =
     Done (OK (VObj [("server", VStr s); ("access", VStr a)]), [])).
Proof.
  apply (@C3_tool_entry_forms
           (yields (VObj [("name", VStr "helper");
                          ("model", VStr "gemini-2.5-flash");
                          ("description", VStr "test");
                          ("tools",
                           VArr [VObj [("server", VStr "mcp://example");
                                       ("name", VStr "tools/custom-tool");
                                       ("access", VStr "read")]])])) ""
           [("name", VStr "helper"); ("model", VStr "gemini-2.5-flash");
            ("description", VStr "test");
            ("tools",
             VArr [VObj [("server", VStr "mcp://example");
                         ("name", VStr "tools/custom-tool");
                         ("access", VStr "read")]])]
           (VObj [("name", VStr "helper"); ("model", VStr "gemini-2.5-flash");
                  ("description", VStr "test");
                  ("tools",
                   VArr [VObj [("server", VStr "mcp://example");
                               ("access", VStr "read")]])])
           [VObj [("server", VStr "mcp://example"); ("access", VStr "read")]]).
  - reflexivity.
  - reflexivity.
  - reflexivity.
  - left. reflexivity.
Defined.

(** C3 as stated fails: an entry that supplies both a server key and a name
    key satisfies both schema forms, and the document that holds it is
    accepted; the returned entry is the server form. *)
Lemma C3_counterexample :
  parse mcpToolSchema []
    (VObj [("server", VStr "mcp://example");
           ("name", VStr "tools/custom-tool");
           ("access", VStr "read")]) =
  Done (OK (VObj [("server", VStr "mcp://example");
                  ("access", VStr "read")]), []) /\
  parse localToolSchema []
    (VObj [("server", VStr "mcp://example");
           ("name", VStr "tools/custom-tool");
           ("access", VStr "read")]) =
  Done (OK (VObj [("name", VStr "tools/custom-tool");
                  ("access", VStr "read")]), []) /\
  parseAgentSpec
    (yields (VObj [("name", VStr "helper");
                   ("model", VStr "gemini-2.5-flash");
                   ("description", VStr "test");
                   ("tools",
                    VArr [VObj [("server", VStr "mcp://example");
                                ("name", VStr "tools/custom-tool");
                                ("access", VStr "read")]])])) "" =
  Returns (VObj [("name", VStr "helper"); ("model", VStr "gemini-2.5-flash");
                 ("description", VStr "test");
                 ("tools",
                  VArr [VObj [("server", VStr "mcp://example");
                              ("access", VStr "read")]])]).
Proof. repeat split. Qed.

(** ** The documents that are accepted, field by field *)

Lemma nonemptyb_iff (v : value) :
  nonemptyb v = true <-> exists s, v = VStr s /\ s <> "".
Proof.
  split.
  - destruct v as [| | | |s| | | | | |]; try discriminate.
    destruct s; [discriminate|].
    intros _. eexists. split; [reflexivity | discriminate].
  - intros (s & -> & Hs). destruct s; [congruence | reflexivity].
Qed.

Lemma min1_status path v :
  is_ok (fst (settled (parse (ZodString [check_min 1 None]) path v))) =
  nonemptyb v.
Proof.
  cbn [parse settled]. rewrite parse_string_ok.
  destruct v as [| | | |s| | | | | |]; try reflexivity.
  destruct s; reflexivity.
Qed.

Lemma tool_object_status (k : string) path f :
  String.eqb k "__proto__" = false ->
  is_ok (fst (settled (parse (ZodObject [(k, ZodString [check_min 1 None]);
                                ("access", ZodEnum ["read"; "write"] None)])
                path (VObj f)))) =
  access_okb f && nonemptyb (get f k).
Proof.
  intros K. rewrite (@tool_object_parse k path f K). unfold access_okb.
  destruct (get f k) as [| | | |s| | | | | |];
    try (now rewrite andb_false_r).
  destruct (get f "access") as [| | | |a| | | | | |]; try reflexivity.
  destruct (existsb (String.eqb a) ["read"; "write"]); [|reflexivity].
  destruct s; reflexivity.
Qed.

Lemma tool_entry_status path x :
  is_ok (fst (settled (parse toolSchema path x))) = tool_entry_ok x.
Proof.
  unfold toolSchema. rewrite union_status by reflexivity. cbn [existsb].
  destruct x; try reflexivity.
  unfold mcpToolSchema, localToolSchema, tool_entry_ok.
  rewrite !tool_object_status by reflexivity.
  rewrite orb_false_r. now rewrite andb_orb_distrib_r.
Qed.

Lemma optional_list_status (Q : value -> Prop) element path v :
  (forall p x, is_ok (fst (settled (parse element p x))) = true <-> Q x) ->
  is_ok (fst (settled (parse (ZodOptional (ZodArray element)) path v))) = true
  <->
  absent_or_list_of Q v.
Proof.
  intros H. rewrite optional_array_status. unfold absent_or_list_of.
  destruct v; try (split; [discriminate|]; intros [E|(items & E & _)];
                   discriminate E).
  - split; auto.
  - unfold indexed.
    rewrite (forallb_indexed_from Q
               (fun i x =>
                  is_ok (fst (settled (parse element (path ++ [Index i]) x)))))
      by (intros i x; apply H).
    split.
    + intros F. right. now exists items.
    + intros [E|(items' & E & F)]; [discriminate|]. now injection E as ->.
Qed.

(** The schema's verdict on a mapping, field by field. *)
Lemma valid_iff_acceptable fields :
  forallb (field_valid fields) agentSpecShape = true <->
  acceptable (VObj fields).
Proof.
  rewrite all_fields_valid, name_field_valid,
    model_field_valid, description_field_valid, <- nonemptyb_iff.
  unfold field_valid, field_result, toolsSchema, skillsSchema, aclSchema.
  cbn [fst snd].
  rewrite (optional_list_status (fun x => tool_entry_ok x = true))
    by (intros p x; now rewrite tool_entry_status).
  rewrite (optional_list_status (fun x => nonemptyb x = true))
    by (intros p x; now rewrite min1_status).
  rewrite (optional_list_status acl_entry_valid)
    by (intros p x; apply acl_entry_status).
  unfold acceptable. split.
  - intros H. exists fields. tauto.
  - intros (f & E & H). injection E as <-. tauto.
Qed.

(** ** Unrecognized keys *)

Lemma object_parse_agree shape path f f' :
  (forall k, In k (map fst shape) ->
             get f' k = get f k /\ has_key f' k = has_key f k) ->
  parse (ZodObject shape) path (VObj f') =
  parse (ZodObject shape) path (VObj f).
Proof.
  intros H. cbn [parse fields_of].
  replace (map (fun entry =>
                  (fst entry,
                   parse (snd entry) (path ++ [Key (fst entry)])%list
                     (get f' (fst entry)),
                   has_key f' (fst entry))) shape)
    with (map (fun entry =>
                 (fst entry,
                  parse (snd entry) (path ++ [Key (fst entry)])%list
                    (get f (fst entry)),
                  has_key f (fst entry))) shape); [reflexivity|].
  apply map_ext_in. intros entry Hin.
  destruct (H (fst entry)) as [-> ->]; [now apply in_map | reflexivity].
Qed.

Lemma extra_agree (known : list string) f extra :
  unknown_to known extra ->
  forall k, In k known ->
            get (f ++ extra) k = get f k /\
            has_key (f ++ extra) k = has_key f k.
Proof.
  intros U k Hk. rewrite get_app, has_key_app, (U k Hk), orb_false_r.
  split; [|reflexivity].
  destruct (has_key f k) eqn:E; [reflexivity|].
  now rewrite !get_absent by auto.
Qed.

Lemma tool_ignores_extra path extra x :
  unknown_to ["server"; "name"; "access"] extra ->
  parse toolSchema path (with_extra extra x) = parse toolSchema path x.
Proof.
  intros U. destruct x; try reflexivity. unfold toolSchema, with_extra.
  cbn [parse map]. unfold mcpToolSchema, localToolSchema.
  rewrite !(@object_parse_agree _ path fields (fields ++ extra));
    [reflexivity| |];
    intros k Hk; apply (extra_agree fields U); simpl in *; tauto.
Qed.

Lemma acl_ignores_extra path extra x :
  unknown_to ["principal"; "role"] extra ->
  parse aclEntrySchema path (with_extra extra x) = parse aclEntrySchema path x.
Proof.
  intros U. destruct x; try reflexivity. unfold aclEntrySchema, with_extra.
  apply object_parse_agree. intros k Hk. now apply (extra_agree fields U).
Qed.

Lemma extend_from_parse {B : Type} (F : nat * value -> B)
  (extra_at : nat -> list (string * value)) (items : list value) :
  (forall i x, F (i, with_extra (extra_at i) x) = F (i, x)) ->
  forall n,
    map F (combine (seq n (length (extend_from extra_at n items)))
             (extend_from extra_at n items)) =
    map F (combine (seq n (length items)) items).
Proof.
  intros H. induction items as [|x items IH]; intros n; simpl;
    [reflexivity|].
  now rewrite H, IH.
Qed.

Lemma list_ignores_extra element path extra_at v :
  (forall q i x, parse element q (with_extra (extra_at i) x) =
                 parse element q x) ->
  parse (ZodOptional (ZodArray element)) path (with_extra_each extra_at v) =
  parse (ZodOptional (ZodArray element)) path v.
Proof.
  intros H. destruct v; try reflexivity. unfold with_extra_each.
  cbn [parse]. unfold indexed.
  rewrite (extend_from_parse
             (fun item =>
                parse element (path ++ [Index (fst item)])%list (snd item)));
    [reflexivity|].
  intros i x. apply H.
Qed.

Lemma has_key_decorated tool_extra acl_extra fields k :
  has_key (map (decorate_field tool_extra acl_extra) fields) k =
  has_key fields k.
Proof.
  induction fields as [|[k1 v1] fields IH]; simpl; [reflexivity|].
  rewrite IH. f_equal. unfold decorate_field. simpl.
  destruct (String.eqb k1 "tools"); [reflexivity|].
  destruct (String.eqb k1 "acl"); reflexivity.
Qed.

Lemma get_decorated tool_extra acl_extra fields k :
  get (map (decorate_field tool_extra acl_extra) fields) k =
  if String.eqb k "tools" then with_extra_each tool_extra (get fields k)
  else if String.eqb k "acl" then with_extra_each acl_extra (get fields k)
       else get fields k.
Proof.
  induction fields as [|[k1 v1] fields IH]; simpl.
  - destruct (String.eqb k "tools"); [reflexivity|].
    destruct (String.eqb k "acl"); reflexivity.
  - unfold decorate_field at 1. simpl.
    destruct (String.eqb k1 k) eqn:E.
    + apply String.eqb_eq in E. subst k1.
      destruct (String.eqb k "tools"); simpl;
        [now rewrite String.eqb_refl|].
      destruct (String.eqb k "acl"); simpl; now rewrite String.eqb_refl.
    + destruct (String.eqb k1 "tools"); simpl; [now rewrite E|].
      destruct (String.eqb k1 "acl"); simpl; now rewrite E.
Qed.

Lemma decorate_same_parse top tool_extra acl_extra fields :
  unknown_to field_names top ->
  (forall i, unknown_to ["server"; "name"; "access"] (tool_extra i)) ->
  (forall i, unknown_to ["principal"; "role"] (acl_extra i)) ->
  parse agentSpecSchema []
    (VObj (decorate top tool_extra acl_extra fields)) =
  parse agentSpecSchema [] (VObj fields).
Proof.
  intros Utop Utool Uacl. unfold agentSpecSchema. cbn [parse fields_of].
  replace (map (fun entry =>
                  (fst entry,
                   parse (snd entry) ([] ++ [Key (fst entry)])%list
                     (get (decorate top tool_extra acl_extra fields)
                        (fst entry)),
                   has_key (decorate top tool_extra acl_extra fields)
                     (fst entry))) agentSpecShape)
    with (map (fun entry =>
                 (fst entry,
                  parse (snd entry) ([] ++ [Key (fst entry)])%list
                    (get fields (fst entry)),
                  has_key fields (fst entry))) agentSpecShape);
    [reflexivity|].
  symmetry. apply map_ext_in. intros entry Hin.
  assert (Hk : In (fst entry) field_names) by now apply in_map.
  unfold decorate.
  destruct (extra_agree (map (decorate_field tool_extra acl_extra) fields)
              Utop _ Hk) as [-> ->].
  rewrite has_key_decorated, get_decorated. do 2 f_equal.
  simpl in Hin.
  destruct Hin as [<-|[<-|[<-|[<-|[<-|[<-|[]]]]]]]; cbn [fst snd];
    try reflexivity.
  - apply list_ignores_extra. intros q i x. now apply tool_ignores_extra.
  - apply list_ignores_extra. intros q i x. now apply acl_ignores_extra.
Qed.

Lemma has_key_two k1 v1 k2 v2 k :
  has_key [(k1, v1); (k2, v2)] k = true -> k = k1 \/ k = k2.
Proof.
  simpl. rewrite orb_false_r, orb_true_iff, !String.eqb_eq.
  intuition.
Qed.

Lemma tool_entry_keys path x out :
  fst (settled (parse toolSchema path x)) = OK out ->
  only_keys ["server"; "name"; "access"] out.
Proof.
  intros H. apply tool_entry_output in H.
  destruct H as [(s & a & -> & _)|(n & a & -> & _)];
    (eexists; split; [reflexivity|]); intros k Hk;
    apply has_key_two in Hk as [-> | ->]; simpl; tauto.
Qed.

Lemma acl_entry_keys path x out :
  fst (settled (parse aclEntrySchema path x)) = OK out ->
  only_keys ["principal"; "role"] out.
Proof.
  intros H. destruct x; try discriminate H. unfold aclEntrySchema in H.
  apply object_output in H.
  - destruct H as (o & -> & _ & Hkeys). exists o. split; [reflexivity|].
    exact Hkeys.
  - repeat constructor; simpl; intuition discriminate.
  - simpl. intuition discriminate.
Qed.

(** C8: unrecognized keys are dropped silently.  Adding keys that the schema
    does not know to a mapping, to the entries of its tools list and to the
    entries of its acl list changes nothing in what parseAgentSpec does.
    When the recognized fields are valid (the mapping without the additional
    keys is an acceptable document), the mapping with the additional keys is
    returned, with the same AgentSpec as without them; no issue is raised
    for the additional keys.  A returned AgentSpec has recognized keys only,
    at the top level and inside every tools and acl entry. *)
Theorem C8_unknown_keys_dropped parseYaml src src' fields top tool_extra
  acl_extra :
  mapping_of parseYaml src fields ->
  mapping_of parseYaml src' (decorate top tool_extra acl_extra fields) ->
  unknown_to field_names top ->
  (forall i, unknown_to ["server"; "name"; "access"] (tool_extra i)) ->
  (forall i, unknown_to ["principal"; "role"] (acl_extra i)) ->
  parseAgentSpec parseYaml src' = parseAgentSpec parseYaml src /\
  (acceptable (VObj fields) ->
   exists spec,
     parseAgentSpec parseYaml src' = Returns spec /\
     parseAgentSpec parseYaml src = Returns spec) /\
  (forall spec,
     parseAgentSpec parseYaml src' = Returns spec ->
     only_keys field_names spec /\
     (forall outs out,
        prop spec "tools" = VArr outs -> In out outs ->
        only_keys ["server"; "name"; "access"] out) /\
     (forall outs out,
        prop spec "acl" = VArr outs -> In out outs ->
        only_keys ["principal"; "role"] out)).
Proof.
  intros M M' Utop Utool Uacl.
  assert (E : parseAgentSpec parseYaml src' = parseAgentSpec parseYaml src).
  { rewrite (@parseAgentSpec_schema _ _ _ M'), (@parseAgentSpec_schema _ _ _ M);
      try reflexivity; try discriminate.
    now rewrite decorate_same_parse. }
  split; [exact E|]. split.
  - intros A. apply valid_iff_acceptable in A.
    apply (@parseAgentSpec_returns_iff _ _ _ M) in A. destruct A as [spec R].
    exists spec. split; [now rewrite E | exact R].
  - intros spec R. rewrite E in R. split; [|split].
    + destruct (returned_spec_fields M R) as (out & -> & _ & Hkeys).
      exists out. split; [reflexivity | exact Hkeys].
    + intros outs out P Hout.
      assert (Hin : In ("tools", toolsSchema) agentSpecShape)
        by (simpl; auto).
      destruct (@returned_list parseYaml src fields spec
                  ("tools", toolsSchema) outs out M R Hin P Hout
                  toolSchema eq_refl) as (i & x & Hx).
      now apply tool_entry_keys in Hx.
    + intros outs out P Hout.
      assert (Hin : In ("acl", aclSchema) agentSpecShape)
        by (simpl; auto 10).
      destruct (@returned_list parseYaml src fields spec
                  ("acl", aclSchema) outs out M R Hin P Hout
                  aclEntrySchema eq_refl) as (i & x & Hx).
      now apply acl_entry_keys in Hx.
Qed.

Lemma doc_plain_acceptable : acceptable (VObj doc_plain).
Proof.
  exists doc_plain. split; [reflexivity|]. split; [|split; [|split]].
  - exists "helper". split; [reflexivity | now apply name_pattern_spec].
  - exists "gemini-2.5-flash". split; [reflexivity | simpl; auto].
  - reflexivity.
  - split; [|split].
    + right. eexists. split; [reflexivity|]. repeat constructor.
    + now left.
    + right. eexists. split; [reflexivity|]. repeat constructor.
      apply acl_entry_valid_iff. discriminate.
Qed.

Lemma C8_witness :
  parseAgentSpec reader_plain_or_decorated "decorated" =
  parseAgentSpec reader_plain_or_decorated "plain" /\
  (exists spec,
     parseAgentSpec reader_plain_or_decorated "decorated" = Returns spec /\
     parseAgentSpec reader_plain_or_decorated "plain" = Returns spec) /\
  (forall spec,
     parseAgentSpec reader_plain_or_decorated "decorated" = Returns spec ->
     only_keys field_names spec /\
     (forall outs out,
        prop spec "tools" = VArr outs -> In out outs ->
        only_keys ["server"; "name"; "access"] out) /\
     (forall outs out,
        prop spec "acl" = VArr outs -> In out outs ->
        only_keys ["principal"; "role"] out)).
Proof.
  destruct (@C8_unknown_keys_dropped reader_plain_or_decorated "plain"
              "decorated" doc_plain [("desciption", VStr "typo")]
              (fun _ => [("acess", VStr "write")])
              (fun _ => [("rol", VStr "read")])) as (E & A & K).
  - reflexivity.
  - reflexivity.
  - intros k Hk. simpl in Hk.
    repeat (destruct Hk as [<-|Hk]; [reflexivity|]). destruct Hk.
  - intros i k Hk. simpl in Hk.
    repeat (destruct Hk as [<-|Hk]; [reflexivity|]). destruct Hk.
  - intros i k Hk. simpl in Hk.
    repeat (destruct Hk as [<-|Hk]; [reflexivity|]). destruct Hk.
  - split; [exact E|]. split; [apply A, doc_plain_acceptable | exact K].
Defined.

(** ** The cases of parse.test.ts, run on the embedding *)

Example parses_minimal_spec :
  parseAgentSpec (yields doc_minimal) "" = Returns doc_minimal.
Proof. reflexivity. Qed.

Example parses_all_optional_fields :
  parseAgentSpec (yields doc_full) "" = Returns doc_full.
Proof. reflexivity. Qed.

Example rejects_unknown_model :
  exists e,
    parseAgentSpec (yields doc_gpt5) "" = ThrowsSpecParseError e /\
    includes (message e)
      ("Unknown model " ++ quote ++ "gpt-5" ++ quote ++
       ". Supported: gemini-2.5-flash, gemini-2.5-pro, gemini-3-flash-preview")
    = true.
Proof. eexists. split; reflexivity. Qed.

Example rejects_missing_name :
  parseAgentSpec
    (yields (VObj [("model", VStr "gemini-2.5-flash");
                   ("description", VStr "test")])) "" =
  ThrowsSpecParseError (new_SpecParseError ["name: Required"]).
Proof. reflexivity. Qed.

Example rejects_invalid_name_format :
  parseAgentSpec
    (yields (VObj [("name", VStr "My Agent!");
                   ("model", VStr "gemini-2.5-flash");
                   ("description", VStr "test")])) "" =
  ThrowsSpecParseError
    (new_SpecParseError
       ["name: Agent name must be lowercase alphanumeric with hyphens, starting with a letter or digit"]).
Proof. reflexivity. Qed.

Example rejects_name_starting_with_hyphen :
  regex_test name_pattern "-agent" = false /\
  regex_test name_pattern "agent-2" = true /\
  regex_test name_pattern "Agent" = false /\
  regex_test name_pattern "" = false.
Proof. repeat split. Qed.

Example rejects_empty_document :
  parseAgentSpec (yields VNull) "" =
  ThrowsSpecParseError
    (new_SpecParseError
       ["Expected a YAML mapping, got a scalar or empty document"]).
Proof. reflexivity. Qed.

Example rejects_scalar_document :
  parseAgentSpec (yields (VStr "just a string")) "just a string" =
  ThrowsSpecParseError
    (new_SpecParseError
       ["Expected a YAML mapping, got a scalar or empty document"]).
Proof. reflexivity. Qed.

Example rejects_invalid_acl_role :
  parseAgentSpec
    (yields (VObj [("name", VStr "helper");
                   ("model", VStr "gemini-2.5-flash");
                   ("description", VStr "test");
                   ("acl", VArr [VObj [("principal", VStr "user:connor");
                                       ("role", VStr "admin")]])])) "" =
  ThrowsSpecParseError
    (new_SpecParseError
       ["acl.0.role: Invalid enum value. Expected 'execute' | 'read', received 'admin'"]).
Proof. reflexivity. Qed.

Example rejects_invalid_tool_access :
  parseAgentSpec
    (yields (VObj [("name", VStr "helper");
                   ("model", VStr "gemini-2.5-flash");
                   ("description", VStr "test");
                   ("tools", VArr [VObj [("server", VStr "mcp://example");
                                         ("access", VStr "admin")]])])) "" =
  ThrowsSpecParseError (new_SpecParseError ["tools.0: Invalid input"]).
Proof. reflexivity. Qed.

(** ** Values beyond JSON, and a model that cannot be printed *)

Example model_mapping_is_printed :
  parseAgentSpec
    (yields (VObj [("name", VStr "helper");
                   ("model", VObj [("id", VStr "gemini-2.5-flash")]);
                   ("description", VStr "test")])) "" =
  ThrowsSpecParseError
    (new_SpecParseError [unknown_model_line "[object Object]"]).
Proof. reflexivity. Qed.

Example model_list_is_printed :
  parseAgentSpec
    (yields (VObj [("name", VStr "helper");
                   ("model", VArr [VStr "gemini-2.5-flash"; VNull;
                                   VStr "gemini-2.5-pro"]);
                   ("description", VStr "test")])) "" =
  ThrowsSpecParseError
    (new_SpecParseError
       [unknown_model_line "gemini-2.5-flash,,gemini-2.5-pro"]).
Proof. reflexivity. Qed.

Example model_with_toString_key_throws_TypeError :
  parseAgentSpec
    (yields (VObj [("name", VStr "helper");
                   ("model", VObj [("toString", VNum "1")]);
                   ("description", VStr "test")])) "" = ThrowsTypeError.
Proof. reflexivity. Qed.

Example model_list_with_toString_key_throws_TypeError :
  parseAgentSpec
    (yields (VObj [("model", VArr [VObj [("toString", VNull)]])])) "" =
  ThrowsTypeError.
Proof. reflexivity. Qed.

Example valid_model_is_never_printed :
  parseAgentSpec
    (yields (VObj [("name", VStr "helper");
                   ("model", VStr "gemini-2.5-flash");
                   ("description", VStr "test");
                   ("toString", VNum "1")])) "" =
  Returns (VObj [("name", VStr "helper");
                 ("model", VStr "gemini-2.5-flash");
                 ("description", VStr "test")]).
Proof. reflexivity. Qed.

Example rejects_timestamp_document :
  parseAgentSpec (yields (VDate "2001-12-14T21:59:43.100Z")) "" =
  ThrowsSpecParseError
    (new_SpecParseError ["(root): Expected object, received date"]).
Proof. reflexivity. Qed.

Example rejects_ordered_map_document :
  parseAgentSpec (yields (VMap [(VStr "name", VStr "helper")])) "" =
  ThrowsSpecParseError
    (new_SpecParseError ["(root): Expected object, received map"]).
Proof. reflexivity. Qed.

Example rejects_set_document :
  parseAgentSpec (yields (VSet [VStr "helper"])) "" =
  ThrowsSpecParseError
    (new_SpecParseError ["(root): Expected object, received set"]).
Proof. reflexivity. Qed.

Example binary_document_has_no_fields :
  parseAgentSpec (yields (VBuffer "aGVsbG8=")) "" =
  ThrowsSpecParseError
    (new_SpecParseError
       ["name: Required"; unknown_model_line "undefined";
        "description: Required"]).
Proof. reflexivity. Qed.

Example binary_acl_entry_has_no_fields :
  parseAgentSpec
    (yields (VObj [("name", VStr "helper");
                   ("model", VStr "gemini-2.5-flash");
                   ("description", VStr "test");
                   ("acl", VArr [VBuffer "aGVsbG8="])])) "" =
  ThrowsSpecParseError
    (new_SpecParseError
       ["acl.0.principal: Required"; "acl.0.role: Required"]).
Proof. reflexivity. Qed.

Example timestamp_skill_is_no_string :
  parseAgentSpec
    (yields (VObj [("name", VStr "helper");
                   ("model", VStr "gemini-2.5-flash");
                   ("description", VStr "test");
                   ("skills", VArr [VDate "2001-12-14T21:59:43.100Z"])])) "" =
  ThrowsSpecParseError
    (new_SpecParseError ["skills.0: Expected string, received date"]).
Proof. reflexivity. Qed.

(* ================================================================= *)
(** * Further properties of the parser *)

(** ** The mapping guard *)

(** X1: the issue "Expected a YAML mapping, got a scalar or empty document"
    is what parseAgentSpec throws exactly when the YAML value is null,
    undefined or a scalar; a mapping or a sequence never gets it. *)
Theorem guard_issue_iff_scalar parseYaml src raw :
  parseYaml src = YamlValue raw ->
  (parseAgentSpec parseYaml src =
   ThrowsSpecParseError (new_SpecParseError [guard_line]) <->
   passes_guard raw = false).
Proof.
  intros Y. split.
  - intros H. destruct (passes_guard raw) eqn:G; [exfalso|reflexivity].
    assert (T : typeof_is_object raw = true /\ raw <> VNull)
      by (destruct raw; try discriminate G; split; try reflexivity;
          discriminate).
    destruct T as [T N].
    rewrite (@parseAgentSpec_schema _ _ _ Y T N) in H.
    pose proof (schema_failure_lines raw) as L.
    remember (formatZodIssues (snd (settled (parse agentSpecSchema [] raw))))
      as lines.
    assert (E : lines = [guard_line]).
    { subst lines.
      destruct (parse agentSpecSchema [] raw) as [[[data|data|] zis]|];
        try discriminate H;
        apply (f_equal (fun o => match o with
                                 | ThrowsSpecParseError e => issues e
                                 | _ => []
                                 end)) in H; exact H. }
    rewrite E in L. inversion L; subst.
    now apply guard_line_is_no_schema_line.
  - intros G. apply (@parseAgentSpec_guard _ _ _ Y).
    destruct raw; try discriminate G; auto.
Qed.

Lemma guard_issue_iff_scalar_witness :
  parseAgentSpec (yields (VNum "42")) "42" =
  ThrowsSpecParseError (new_SpecParseError [guard_line]) <->
  passes_guard (VNum "42") = false.
Proof.
  apply (@guard_issue_iff_scalar (yields (VNum "42")) "42" (VNum "42")).
  reflexivity.
Defined.

(** ** The order of the keys *)

Lemma has_key_In (l : list (string * value)) (k : string) :
  has_key l k = true <-> In k (map fst l).
Proof.
  induction l as [|[k1 v1] l IH]; simpl.
  - split; [discriminate | tauto].
  - rewrite orb_true_iff, String.eqb_eq, IH. tauto.
Qed.

Lemma get_permutation (l l' : list (string * value)) (k : string) :
  Permutation l l' -> NoDup (map fst l) -> get l k = get l' k.
Proof.
  induction 1 as [|[k1 v1] l l' P IH|[k1 v1] [k2 v2] l|l l' l'' P1 IH1 P2 IH2];
    intros ND; simpl in *.
  - reflexivity.
  - inversion ND; subst. now rewrite IH.
  - inversion ND as [|? ? N1 ND']; subst.
    destruct (String.eqb k1 k) eqn:E1, (String.eqb k2 k) eqn:E2;
      try reflexivity.
    apply String.eqb_eq in E1, E2. subst. exfalso. apply N1. now left.
  - rewrite IH1 by exact ND. apply IH2.
    eapply Permutation_NoDup; [|exact ND]. now apply Permutation_map.
Qed.

Lemma has_key_permutation (l l' : list (string * value)) (k : string) :
  Permutation l l' -> has_key l k = has_key l' k.
Proof.
  intros P.
  assert (Q : In k (map fst l) <-> In k (map fst l')).
  { split; apply Permutation_in; apply Permutation_map;
      [exact P | now apply Permutation_sym]. }
  rewrite <- !has_key_In in Q.
  destruct (has_key l k), (has_key l' k); try reflexivity.
  - symmetry. now apply Q.
  - now apply Q.
Qed.

(** X2: the order in which the keys of the mapping are written does not
    matter.  Two mappings with the same key-value pairs in different orders
    (keys unique, as in a parsed YAML mapping) get the same outcome: the same
    returned AgentSpec, or the same issues in the same order. *)
Theorem key_order_irrelevant parseYaml src src' fields fields' :
  mapping_of parseYaml src fields ->
  mapping_of parseYaml src' fields' ->
  Permutation fields fields' ->
  NoDup (map fst fields) ->
  parseAgentSpec parseYaml src' = parseAgentSpec parseYaml src.
Proof.
  intros M M' P ND.
  rewrite (@parseAgentSpec_schema _ _ _ M'), (@parseAgentSpec_schema _ _ _ M);
    try reflexivity; try discriminate.
  unfold agentSpecSchema.
  rewrite (@object_parse_agree agentSpecShape [] fields fields');
    [reflexivity|].
  intros k _. split.
  - symmetry. now apply get_permutation.
  - symmetry. now apply has_key_permutation.
Qed.

Lemma key_order_irrelevant_witness :
  parseAgentSpec reader_two_orders "description first" =
  parseAgentSpec reader_two_orders "name first".
Proof.
  apply (@key_order_irrelevant reader_two_orders "name first"
           "description first"
           [("name", VStr "helper"); ("model", VStr "gpt-5");
            ("description", VStr "")]
           [("description", VStr ""); ("model", VStr "gpt-5");
            ("name", VStr "helper")]).
  - reflexivity.
  - reflexivity.
  - apply perm_trans
      with (l' := [("model", VStr "gpt-5"); ("name", VStr "helper");
                   ("description", VStr "")]).
    + apply perm_swap.
    + apply perm_trans
        with (l' := [("model", VStr "gpt-5"); ("description", VStr "");
                     ("name", VStr "helper")]).
      * apply perm_skip, perm_swap.
      * apply perm_swap.
  - repeat constructor; simpl; intuition discriminate.
Defined.

(** ** Which lines a single field accounts for *)

Lemma flat_map_only {A B : Type} (f : A -> list B) (l : list A) (x : A) :
  In x l -> NoDup l -> (forall y, In y l -> y <> x -> f y = []) ->
  flat_map f l = f x.
Proof.
  induction l as [|a l IH]; intros Hin ND Hothers; [destruct Hin|].
  inversion ND as [|? ? Hnotin ND']; subst. simpl.
  destruct Hin as [->|Hin].
  - replace (flat_map f l) with (@nil B); [apply app_nil_r|].
    symmetry. apply flat_map_nil_iff, Forall_forall. intros y Hy.
    apply Hothers; [now right|]. intros ->. contradiction.
  - rewrite (Hothers a); [|now left|intros ->; contradiction].
    apply IH; auto. intros y Hy. apply Hothers. now right.
Qed.

Lemma agentSpecShape_NoDup : NoDup agentSpecShape.
Proof.
  apply (NoDup_map_inv fst).
  repeat constructor; simpl; intuition discriminate.
Qed.

Lemma valid_model_field_prints fields :
  field_valid fields ("model", modelSchema) = true ->
  prints (get fields "model") = true.
Proof.
  intros V. apply model_field_valid in V as (m & -> & _). reflexivity.
Qed.

(** With every other field valid, the model is valid as soon as the one
    field in question is not the model, and an invalid model then prints
    by assumption. *)
Lemma single_invalid_field parseYaml src fields entry :
  mapping_of parseYaml src fields ->
  In entry agentSpecShape ->
  (forall other, In other agentSpecShape -> fst other <> fst entry ->
                 field_valid fields other = true) ->
  field_valid fields entry = false ->
  prints (get fields "model") = true ->
  parseAgentSpec parseYaml src =
  ThrowsSpecParseError (new_SpecParseError (field_report fields entry)).
Proof.
  intros M Hin Others V P.
  rewrite (@parseAgentSpec_throws_iff _ _ _ M P
             (@invalid_field_rejects fields entry Hin V)).
  rewrite (@flat_map_only _ _ (field_report fields) agentSpecShape entry);
    auto using agentSpecShape_NoDup.
  intros y Hy Ny. apply field_report_valid.
  destruct (string_dec (fst y) (fst entry)) as [E|E]; [|now apply Others].
  exfalso. apply Ny. clear - Hy Hin E. simpl in Hy, Hin.
  repeat (destruct Hy as [<-|Hy]);
    repeat (destruct Hin as [<-|Hin]);
    try reflexivity; try discriminate E; try contradiction.
Qed.

Lemma lines_split_in fields (shape : list (string * schema)) entry :
  incl shape agentSpecShape -> NoDup (map fst shape) -> In entry shape ->
  exists before after,
    flat_map (field_report fields) shape =
    (before ++ field_report fields entry ++ after)%list /\
    Forall (fun line => ~ names_field line (fst entry))
      (before ++ after)%list.
Proof.
  intros Sub ND Hin.
  destruct (in_split _ _ Hin) as (l1 & l2 & E). subst shape.
  exists (flat_map (field_report fields) l1),
    (flat_map (field_report fields) l2).
  split; [rewrite flat_map_app; reflexivity|].
  rewrite <- flat_map_app. apply Forall_flat_map_intro, Forall_forall.
  intros other Hother.
  eapply Forall_impl; [|apply field_report_names_field].
  intros line Hline Hname.
  assert (Eq : fst other = fst entry).
  { apply (@names_field_unique line); try assumption;
      unfold field_names; apply in_map; apply Sub.
    - apply in_app_iff in Hother. apply in_app_iff.
      destruct Hother; [now left | right; now right].
    - apply in_app_iff. right. now left. }
  rewrite map_app in ND. cbn [map] in ND. apply NoDup_remove_2 in ND.
  apply ND. rewrite <- Eq, <- map_app. now apply in_map.
Qed.

(** The lines of one field stand together in the error, and no other line
    names that field. *)
Lemma field_lines_split fields entry :
  In entry agentSpecShape ->
  exists before after,
    flat_map (field_report fields) agentSpecShape =
    (before ++ field_report fields entry ++ after)%list /\
    Forall (fun line => ~ names_field line (fst entry))
      (before ++ after)%list.
Proof.
  apply lines_split_in; [apply incl_refl|].
  repeat constructor; simpl; intuition discriminate.
Qed.

Lemma field_of_line fields line (f : string) :
  In f field_names ->
  In line (flat_map (field_report fields) agentSpecShape) ->
  names_field line f ->
  exists entry,
    In entry agentSpecShape /\ fst entry = f /\
    In line (field_report fields entry).
Proof.
  intros Hf Hline N. apply in_flat_map in Hline.
  destruct Hline as (entry & Hin & Hl). exists entry.
  split; [exact Hin|]. split; [|exact Hl].
  pose proof (field_report_names_field fields entry) as F.
  rewrite Forall_forall in F.
  apply (@names_field_unique line (fst entry) f); auto.
  unfold field_names. now apply in_map.
Qed.

(** ** The model field, whatever it holds *)

Lemma model_report_any (fields : list (string * value)) (text : string) :
  js_to_string (get fields "model") = Some text ->
  field_valid fields ("model", modelSchema) = false ->
  field_report fields ("model", modelSchema) = [unknown_model_line text].
Proof.
  unfold field_valid, field_report, field_result, modelSchema.
  cbn [fst snd parse]. unfold parse_enum, enum_issue, model_errorMap.
  intros J. rewrite J.
  destruct (get fields "model"); try reflexivity.
  injection J as ->.
  destruct (existsb _ SUPPORTED_MODELS); [discriminate | reflexivity].
Qed.

Lemma prints_iff (v : value) :
  prints v = true <-> exists text, js_to_string v = Some text.
Proof.
  unfold prints. destruct (js_to_string v) as [text|]; split;
    try discriminate; eauto. intros [text E]. discriminate E.
Qed.

Lemma prints_false_iff (v : value) :
  prints v = false <-> js_to_string v = None.
Proof.
  unfold prints. destruct (js_to_string v); split; congruence.
Qed.

(** X3: whenever the model field is not one of the supported model names,
    be it another string, a value of another type or a missing key, and the
    value can be printed, the error has exactly one issue about model: its
    issues are the unknown-model line for the printed value (a missing key
    prints as undefined), which lists every supported model, between lines
    that do not name model.  The custom error map also replaces zod's
    "Required" and "Expected ..., received ..." messages.  A model that
    cannot be printed, a mapping with a key toString, makes parseAgentSpec
    throw the TypeError of the error map. *)
Theorem model_always_unknown_model_line parseYaml src fields :
  mapping_of parseYaml src fields ->
  ~ (exists m, get fields "model" = VStr m /\ In m SUPPORTED_MODELS) ->
  (forall text,
     js_to_string (get fields "model") = Some text ->
     exists e before after,
       parseAgentSpec parseYaml src = ThrowsSpecParseError e /\
       issues e = (before ++ unknown_model_line text :: after)%list /\
       Forall (fun line => ~ names_field line "model")
         (before ++ after)%list /\
       (forall model, In model SUPPORTED_MODELS ->
                      includes (unknown_model_line text) model = true)) /\
  (js_to_string (get fields "model") = None ->
   parseAgentSpec parseYaml src = ThrowsTypeError).
Proof.
  intros M N.
  assert (V : field_valid fields ("model", modelSchema) = false).
  { destruct (field_valid fields ("model", modelSchema)) eqn:V;
      [|reflexivity].
    apply model_field_valid in V. contradiction. }
  assert (Hin : In ("model", modelSchema) agentSpecShape) by (simpl; auto).
  split.
  - intros text J.
    assert (P : prints (get fields "model") = true)
      by (apply prints_iff; eauto).
    destruct (@field_lines_split fields _ Hin) as (before & after & S & F).
    rewrite (@model_report_any _ _ J V) in S.
    exists (new_SpecParseError (flat_map (field_report fields) agentSpecShape)),
      before, after.
    split; [apply (@parseAgentSpec_throws_iff _ _ _ M P
                     (@invalid_field_rejects _ _ Hin V))|].
    split; [exact S|]. split; [exact F|].
    intros model. apply unknown_model_line_lists_models.
  - intros J. apply (@parseAgentSpec_type_error _ _ _ M).
    now apply prints_false_iff.
Qed.

Lemma model_always_unknown_model_line_witness :
  exists e before after,
    parseAgentSpec
      (yields (VObj [("name", VStr "helper");
                     ("description", VStr "test")])) "" =
    ThrowsSpecParseError e /\
    issues e = (before ++ unknown_model_line "undefined" :: after)%list /\
    Forall (fun line => ~ names_field line "model") (before ++ after)%list /\
    (forall model, In model SUPPORTED_MODELS ->
                   includes (unknown_model_line "undefined") model = true).
Proof.
  destruct (@model_always_unknown_model_line
              (yields (VObj [("name", VStr "helper");
                             ("description", VStr "test")])) ""
              [("name", VStr "helper"); ("description", VStr "test")])
    as [A _].
  - reflexivity.
  - intros (m & E & _). discriminate E.
  - apply A. reflexivity.
Defined.

(** ** The lines of a bad name *)

Lemma name_report_cases (fields : list (string * value)) :
  (get fields "name" = VUndefined ->
   field_report fields ("name", nameSchema) = ["name: Required"]) /\
  (get fields "name" = VStr "" ->
   field_report fields ("name", nameSchema) =
   [name_required_line; name_pattern_line]) /\
  (forall s, get fields "name" = VStr s -> s <> "" -> ~ spec_name_ok s ->
             field_report fields ("name", nameSchema) = [name_pattern_line]).
Proof.
  unfold field_report, field_result, nameSchema. cbn [fst snd parse settled].
  split; [|split].
  - intros ->. reflexivity.
  - intros ->. reflexivity.
  - intros s -> Hs Hbad. unfold parse_string. cbn [filter check_passes].
    apply nonempty_length in Hs. rewrite Hs.
    destruct (regex_test name_pattern s) eqn:R.
    + apply name_pattern_spec in R. contradiction.
    + reflexivity.
Qed.

(** X4: what a bad name is reported with, in a mapping whose other fields
    are valid.  A missing name gives the single issue "name: Required"; the
    empty string fails both checks and gives two issues, the required-name
    message and then the pattern message; a non-empty string outside the name
    rule gives the pattern message alone. *)
Theorem name_issue_lines parseYaml src fields :
  mapping_of parseYaml src fields ->
  (forall other, In other agentSpecShape -> fst other <> "name" ->
                 field_valid fields other = true) ->
  (get fields "name" = VUndefined ->
   parseAgentSpec parseYaml src =
   ThrowsSpecParseError (new_SpecParseError ["name: Required"])) /\
  (get fields "name" = VStr "" ->
   parseAgentSpec parseYaml src =
   ThrowsSpecParseError
     (new_SpecParseError [name_required_line; name_pattern_line])) /\
  (forall s, get fields "name" = VStr s -> s <> "" -> ~ spec_name_ok s ->
             parseAgentSpec parseYaml src =
             ThrowsSpecParseError (new_SpecParseError [name_pattern_line])).
Proof.
  intros M Others.
  assert (Hin : In ("name", nameSchema) agentSpecShape) by (simpl; auto).
  assert (Bad : (~ exists s, get fields "name" = VStr s /\ spec_name_ok s) ->
                field_valid fields ("name", nameSchema) = false).
  { intros B. destruct (field_valid fields ("name", nameSchema)) eqn:V;
      [|reflexivity]. apply name_field_valid in V. contradiction. }
  destruct (name_report_cases fields) as (R1 & R2 & R3).
  assert (P : prints (get fields "model") = true).
  { apply valid_model_field_prints, Others; [simpl; auto | discriminate]. }
  split; [|split].
  - intros G. rewrite <- (R1 G).
    apply (@single_invalid_field parseYaml src fields ("name", nameSchema));
      auto.
    apply Bad. intros (s & E & _). congruence.
  - intros G. rewrite <- (R2 G).
    apply (@single_invalid_field parseYaml src fields ("name", nameSchema));
      auto.
    apply Bad. intros (s & E & Hs). rewrite G in E. injection E as <-.
    now destruct Hs.
  - intros s G Hs Hbad. rewrite <- (R3 s G Hs Hbad).
    apply (@single_invalid_field parseYaml src fields ("name", nameSchema));
      auto.
    apply Bad. intros (s' & E & Hs'). rewrite G in E. injection E as <-.
    contradiction.
Qed.

Lemma name_issue_lines_witness :
  (get [("name", VStr ""); ("model", VStr "gemini-2.5-pro");
        ("description", VStr "test")] "name" = VUndefined ->
   parseAgentSpec
     (yields (VObj [("name", VStr ""); ("model", VStr "gemini-2.5-pro");
                    ("description", VStr "test")])) "" =
   ThrowsSpecParseError (new_SpecParseError ["name: Required"])) /\
  (get [("name", VStr ""); ("model", VStr "gemini-2.5-pro");
        ("description", VStr "test")] "name" = VStr "" ->
   parseAgentSpec
     (yields (VObj [("name", VStr ""); ("model", VStr "gemini-2.5-pro");
                    ("description", VStr "test")])) "" =
   ThrowsSpecParseError
     (new_SpecParseError [name_required_line; name_pattern_line])) /\
  (forall s,
     get [("name", VStr ""); ("model", VStr "gemini-2.5-pro");
          ("description", VStr "test")] "name" = VStr s ->
     s <> "" -> ~ spec_name_ok s ->
     parseAgentSpec
       (yields (VObj [("name", VStr ""); ("model", VStr "gemini-2.5-pro");
                      ("description", VStr "test")])) "" =
     ThrowsSpecParseError (new_SpecParseError [name_pattern_line])).
Proof.
  apply (@name_issue_lines
           (yields (VObj [("name", VStr ""); ("model", VStr "gemini-2.5-pro");
                          ("description", VStr "test")])) ""
           [("name", VStr ""); ("model", VStr "gemini-2.5-pro");
            ("description", VStr "test")]).
  - reflexivity.
  - intros other H N. simpl in H.
    repeat (destruct H as [<-|H]; [try reflexivity; now destruct N|]).
    destruct H.
Defined.

(** ** Optional lists *)

Lemma list_field_report fields entry v :
  In entry list_fields ->
  get fields (fst entry) = v ->
  v <> VUndefined -> (forall items, v <> VArr items) ->
  field_report fields entry =
  [fst entry ++ ": Expected array, received " ++
   parsedType_name (getParsedType v)].
Proof.
  intros Hin G U A. unfold field_report, field_result. rewrite G.
  simpl in Hin. destruct Hin as [<-|[<-|[<-|[]]]]; cbn [fst snd];
    (destruct v; try congruence; try (now destruct (A items));
     try reflexivity);
    cbn; destruct (String.eqb text "NaN"); reflexivity.
Qed.

(** X5: tools, skills and acl are optional by absence only.  When the key is
    present with a value that is not a list (YAML null for a key written
    without a value, a string, a number, a mapping), the document is rejected:
    when the model can be printed, the error has the issue
    "<field>: Expected array, received <type>" and no other issue that names
    the field; a model that cannot be printed makes parseAgentSpec throw the
    TypeError of its error map instead. *)
Theorem list_field_must_be_list parseYaml src fields entry v :
  mapping_of parseYaml src fields ->
  In entry list_fields ->
  get fields (fst entry) = v ->
  v <> VUndefined -> (forall items, v <> VArr items) ->
  (prints (get fields "model") = true ->
   exists e before after,
     parseAgentSpec parseYaml src = ThrowsSpecParseError e /\
     issues e =
     (before ++
      (fst entry ++ ": Expected array, received " ++
       parsedType_name (getParsedType v))%string :: after)%list /\
     Forall (fun line => ~ names_field line (fst entry))
       (before ++ after)%list) /\
  (prints (get fields "model") = false ->
   parseAgentSpec parseYaml src = ThrowsTypeError).
Proof.
  intros M Hin G U A.
  assert (Hshape : In entry agentSpecShape).
  { simpl in Hin. destruct Hin as [<-|[<-|[<-|[]]]]; simpl; auto 10. }
  pose proof (@list_field_report fields entry v Hin G U A) as R.
  split.
  - intros P.
    destruct (@field_lines_split fields _ Hshape) as (before & after & S & F).
    rewrite R in S.
    assert (V : field_valid fields entry = false).
    { destruct (field_valid fields entry) eqn:V; [|reflexivity].
      rewrite (field_report_valid _ _ V) in R. discriminate R. }
    exists (new_SpecParseError (flat_map (field_report fields) agentSpecShape)),
      before, after.
    split; [apply (@parseAgentSpec_throws_iff _ _ _ M P
                     (@invalid_field_rejects _ _ Hshape V))|].
    split; [exact S | exact F].
  - intros P. apply (@parseAgentSpec_type_error _ _ _ M P).
Qed.

Lemma list_field_must_be_list_witness :
  exists e before after,
    parseAgentSpec
      (yields (VObj [("name", VStr "helper");
                     ("model", VStr "gemini-2.5-flash");
                     ("description", VStr "test"); ("tools", VNull)])) "" =
    ThrowsSpecParseError e /\
    issues e =
    (before ++ "tools: Expected array, received null" :: after)%list /\
    Forall (fun line => ~ names_field line "tools") (before ++ after)%list.
Proof.
  destruct (@list_field_must_be_list
              (yields (VObj [("name", VStr "helper");
                             ("model", VStr "gemini-2.5-flash");
                             ("description", VStr "test");
                             ("tools", VNull)])) ""
              [("name", VStr "helper"); ("model", VStr "gemini-2.5-flash");
               ("description", VStr "test"); ("tools", VNull)]
              ("tools", toolsSchema) VNull) as [A _].
  - reflexivity.
  - left. reflexivity.
  - reflexivity.
  - discriminate.
  - discriminate.
  - apply A. reflexivity.
Defined.

(** ** The documents that are accepted *)

Lemma returns_only_mappings parseYaml src spec :
  parseAgentSpec parseYaml src = Returns spec ->
  exists fields, mapping_of parseYaml src fields.
Proof.
  intros R. unfold mapping_of.
  destruct (parseYaml src) as [raw|err] eqn:Y.
  - destruct raw; try (rewrite (@parseAgentSpec_guard _ _ _ Y) in R by auto;
                       discriminate);
      try (rewrite (@parseAgentSpec_schema _ _ _ Y) in R;
           [discriminate R | reflexivity | discriminate]).
    now exists fields.
  - rewrite (@parseAgentSpec_yaml_error _ _ _ Y) in R. discriminate.
Qed.

(** X6: the complete acceptance rule.  parseAgentSpec returns an AgentSpec
    exactly when the YAML value is a mapping whose name follows the name
    rule, whose model is a supported model, whose description is a non-empty
    string, whose tools are absent or a list of mappings each with access
    read or write and a non-empty server or name, whose skills are absent or
    a list of non-empty strings, and whose acl is absent or a list of entries
    with a non-empty principal and role execute or read. *)
Theorem returns_iff_acceptable parseYaml src :
  (exists spec, parseAgentSpec parseYaml src = Returns spec) <->
  exists raw, parseYaml src = YamlValue raw /\ acceptable raw.
Proof.
  split.
  - intros [spec R]. destruct (returns_only_mappings _ _ R) as [fields M].
    exists (VObj fields). split; [exact M|]. apply valid_iff_acceptable.
    apply (parseAgentSpec_returns_iff M). now exists spec.
  - intros (raw & Y & A). pose proof A as (fields & -> & _).
    apply (@parseAgentSpec_returns_iff parseYaml src fields Y).
    now apply valid_iff_acceptable.
Qed.

(** ** The lines of a list field, entry by entry *)

Lemma thrown_issues parseYaml src fields e :
  mapping_of parseYaml src fields ->
  parseAgentSpec parseYaml src = ThrowsSpecParseError e ->
  issues e = flat_map (field_report fields) agentSpecShape.
Proof.
  intros M H. rewrite (@parseAgentSpec_mapping _ _ _ M) in H.
  destruct (prints (get fields "model")); [|discriminate H].
  destruct (fst (settled (parse agentSpecSchema [] (VObj fields))));
    [discriminate| |]; now injection H as <-.
Qed.

Lemma thrown_lines_of_field parseYaml src fields e entry line :
  mapping_of parseYaml src fields ->
  parseAgentSpec parseYaml src = ThrowsSpecParseError e ->
  In entry agentSpecShape ->
  (In line (issues e) /\ names_field line (fst entry)) <->
  In line (field_report fields entry).
Proof.
  intros M H Hin. rewrite (thrown_issues M H). split.
  - intros [L N].
    destruct (@field_of_line fields line (fst entry))
      as (entry' & Hin' & Ef & El); auto.
    { unfold field_names. now apply in_map. }
    assert (entry' = entry); [|now subst].
    clear - Hin Hin' Ef. simpl in Hin, Hin'.
    repeat (destruct Hin as [<-|Hin]);
      repeat (destruct Hin' as [<-|Hin']);
      try reflexivity; try discriminate Ef; try contradiction.
  - intros L. split.
    + apply in_flat_map. now exists entry.
    + pose proof (field_report_names_field fields entry) as F.
      rewrite Forall_forall in F. now apply F.
Qed.

Lemma list_report element (k : string) fields items
  (lines_of : nat * value -> list string) :
  plain element = true ->
  get fields k = VArr items ->
  (forall i x,
     formatZodIssues (snd (settled (parse element [Key k; Index i] x))) =
     lines_of (i, x)) ->
  field_report fields (k, ZodOptional (ZodArray element)) =
  flat_map lines_of (indexed items).
Proof.
  intros P G H. unfold field_report, field_result. cbn [fst snd].
  rewrite G.
  change (parse (ZodOptional (ZodArray element)) [Key k] (VArr items))
    with (parse (ZodArray element) [Key k] (VArr items)).
  rewrite (@settled_array _ [Key k] items P).
  unfold mergeArray, formatZodIssues. cbn [snd].
  rewrite flat_map_of_map, map_of_flat_map.
  apply flat_map_ext. intros [i x]. apply H.
Qed.

Lemma format_at_index code (f : string) (i : nat) (msg : string) :
  formatZodIssue (mkIssue code [Key f; Index i] msg) =
  at_index f i (": " ++ msg).
Proof.
  unfold formatZodIssue, at_index. cbn [issue_path issue_message map
                                         path_elem_text join].
  now rewrite !append_assoc.
Qed.

Lemma format_at_index_key code (f : string) (i : nat) (k msg : string) :
  formatZodIssue (mkIssue code [Key f; Index i; Key k] msg) =
  at_index f i ("." ++ k ++ ": " ++ msg).
Proof.
  unfold formatZodIssue, at_index. cbn [issue_path issue_message map
                                         path_elem_text join].
  now rewrite !append_assoc.
Qed.

Lemma empty_or_not (v : value) : nonemptyb v && emptyb v = false.
Proof.
  destruct v as [| | | |s| | | | | |]; try reflexivity.
  destruct s; reflexivity.
Qed.

Lemma tool_object_cases (k : string) path f :
  String.eqb k "__proto__" = false ->
  (access_okb f && nonemptyb (get f k) = true /\
   exists v,
     fst (settled (parse (ZodObject [(k, ZodString [check_min 1 None]);
                            ("access", ZodEnum ["read"; "write"] None)])
            path (VObj f))) = OK v) \/
  (access_okb f && emptyb (get f k) = true /\
   exists v,
     settled
       (parse (ZodObject [(k, ZodString [check_min 1 None]);
                          ("access", ZodEnum ["read"; "write"] None)])
          path (VObj f)) =
     (DIRTY v,
      [mkIssue too_small (path ++ [Key k])
         "String must contain at least 1 character(s)"])) \/
  (access_okb f && (nonemptyb (get f k) || emptyb (get f k)) = false /\
   fst (settled (parse (ZodObject [(k, ZodString [check_min 1 None]);
                          ("access", ZodEnum ["read"; "write"] None)])
          path (VObj f))) = INVALID).
Proof.
  intros K. rewrite settled_object by reflexivity.
  cbn [fields_of parse map fst snd settled].
  unfold mergeObjectSync, access_okb.
  unfold parse_string, parse_enum, enum_issue.
  destruct (get f k) as [| | | |s| | | | | |];
    try (right; right; split; [now rewrite andb_false_r | reflexivity]).
  destruct (get f "access") as [| | | |a| | | | | |];
    try (right; right; split; [reflexivity | destruct s; reflexivity]).
  destruct (existsb (String.eqb a) ["read"; "write"]).
  - destruct s.
    + right. left. split; [reflexivity|]. eexists. reflexivity.
    + left. split; [reflexivity|]. cbn. unfold kept. rewrite K. cbn.
      eexists. reflexivity.
  - right. right. split; [reflexivity | destruct s; reflexivity].
Qed.

Lemma tool_entry_lines (i : nat) (x : value) :
  formatZodIssues (snd (settled (parse toolSchema [Key "tools"; Index i] x))) =
  if tool_entry_ok x then [] else [tool_line i x].
Proof.
  destruct x as [| | | | | |f| | | |];
    try (unfold tool_line; cbn -[formatZodIssue at_index];
         now rewrite format_at_index).
  unfold toolSchema.
  rewrite (@settled_union [mcpToolSchema; localToolSchema]
             [Key "tools"; Index i] (VObj f) eq_refl).
  cbn [map].
  unfold mcpToolSchema, localToolSchema, tool_entry_ok, tool_line.
  pose proof (empty_or_not (get f "server")) as X1.
  pose proof (empty_or_not (get f "name")) as X2.
  destruct (@tool_object_cases "server" [Key "tools"; Index i] f eq_refl)
    as [[B1 [v1 E1]]|[[B1 [v1 E1]]|[B1 E1]]];
    destruct (@tool_object_cases "name" [Key "tools"; Index i] f eq_refl)
      as [[B2 [v2 E2]]|[[B2 [v2 E2]]|[B2 E2]]];
    destruct (settled (parse (ZodObject [("server", _); _]) _ _))
      as [ret1 is1];
    destruct (settled (parse (ZodObject [("name", _); _]) _ _))
      as [ret2 is2];
    cbn [fst] in E1, E2;
    try (injection E1 as -> ->); try (injection E2 as -> ->);
    subst; cbn [union_loop settled snd formatZodIssues map app];
    rewrite ?format_at_index, ?format_at_index_key;
    destruct (access_okb f), (nonemptyb (get f "server")),
      (emptyb (get f "server")), (nonemptyb (get f "name")),
      (emptyb (get f "name"));
    try discriminate; reflexivity.
Qed.

Lemma skill_lines (i : nat) (x : value) :
  formatZodIssues
    (snd (settled (parse (ZodString [check_min 1 None]) [Key "skills"; Index i] x))) =
  if nonemptyb x then [] else [skill_line i x].
Proof.
  unfold skill_line.
  destruct x as [| | | |s| | | | | |]; cbn [parse nonemptyb settled];
    try (cbn -[formatZodIssue at_index]; now rewrite format_at_index).
  destruct s;
    [cbn -[formatZodIssue at_index]; now rewrite format_at_index
    | reflexivity].
Qed.

Lemma rejected_count {A : Type} (okb : value -> bool) (line : nat -> value -> A)
  (items : list value) :
  forall n,
    length (flat_map (fun item =>
                        if okb (snd item) then []
                        else [line (fst item) (snd item)])
              (combine (seq n (length items)) items)) =
    length (filter (fun x => negb (okb x)) items).
Proof.
  induction items as [|x items IH]; intros n; simpl; [reflexivity|].
  rewrite length_app, IH. destruct (okb x); reflexivity.
Qed.

Lemma thrown_field_split parseYaml src fields e entry :
  mapping_of parseYaml src fields ->
  parseAgentSpec parseYaml src = ThrowsSpecParseError e ->
  In entry agentSpecShape ->
  exists before after,
    issues e = (before ++ field_report fields entry ++ after)%list /\
    Forall (fun line => ~ names_field line (fst entry))
      (before ++ after)%list.
Proof.
  intros M H Hin. rewrite (thrown_issues M H).
  now apply field_lines_split.
Qed.

Lemma tools_report fields items :
  get fields "tools" = VArr items ->
  field_report fields ("tools", toolsSchema) = tools_lines items.
Proof.
  intros G. unfold toolsSchema, tools_lines.
  apply (@list_report toolSchema "tools" fields items
           (fun item => if tool_entry_ok (snd item) then []
                        else [tool_line (fst item) (snd item)]) eq_refl G).
  intros i x. apply tool_entry_lines.
Qed.

Lemma skills_report fields items :
  get fields "skills" = VArr items ->
  field_report fields ("skills", skillsSchema) = skills_lines items.
Proof.
  intros G. unfold skillsSchema, skills_lines.
  apply (@list_report (ZodString [check_min 1 None]) "skills" fields items
           (fun item => if nonemptyb (snd item) then []
                        else [skill_line (fst item) (snd item)]) eq_refl G).
  intros i x. apply skill_lines.
Qed.

(** X7: each rejected entry of the tools list is reported by exactly one
    line, at its position.  The line is "tools.i.server: String must contain
    at least 1 character(s)" when access is valid and server is the empty
    string, "tools.i.name: ..." when access is valid, server is not a string
    and name is the empty string, and "tools.i: Invalid input" in every other
    case; accepted entries add nothing.  These lines stand together in the
    issues of the error, in the order of the entries; they name tools, and
    no other issue does. *)
Theorem tools_one_line_per_rejected_entry parseYaml src fields items e :
  mapping_of parseYaml src fields ->
  get fields "tools" = VArr items ->
  parseAgentSpec parseYaml src = ThrowsSpecParseError e ->
  (exists before after,
     issues e = (before ++ tools_lines items ++ after)%list /\
     Forall (fun line => ~ names_field line "tools") (before ++ after)%list) /\
  Forall (fun line => names_field line "tools") (tools_lines items) /\
  length (tools_lines items) =
  length (filter (fun x => negb (tool_entry_ok x)) items).
Proof.
  intros M G H.
  assert (Hin : In ("tools", toolsSchema) agentSpecShape) by (simpl; auto 10).
  split; [|split].
  - rewrite <- (tools_report _ G).
    apply (@thrown_field_split _ _ _ _ _ M H Hin).
  - rewrite <- (tools_report _ G).
    apply (field_report_names_field fields ("tools", toolsSchema)).
  - apply rejected_count.
Qed.

Lemma tools_one_line_per_rejected_entry_witness :
  (exists before after,
     issues (new_SpecParseError
               ["tools.1.server: String must contain at least 1 character(s)";
                "tools.2: Invalid input"]) =
     (before ++
      tools_lines
        [VObj [("name", VStr "tools/a"); ("access", VStr "read")];
         VObj [("server", VStr ""); ("access", VStr "write")];
         VStr "mcp://example"] ++ after)%list /\
     Forall (fun line => ~ names_field line "tools") (before ++ after)%list) /\
  Forall (fun line => names_field line "tools")
    (tools_lines
       [VObj [("name", VStr "tools/a"); ("access", VStr "read")];
        VObj [("server", VStr ""); ("access", VStr "write")];
        VStr "mcp://example"]) /\
  length (tools_lines
            [VObj [("name", VStr "tools/a"); ("access", VStr "read")];
             VObj [("server", VStr ""); ("access", VStr "write")];
             VStr "mcp://example"]) =
  length (filter (fun x => negb (tool_entry_ok x))
            [VObj [("name", VStr "tools/a"); ("access", VStr "read")];
             VObj [("server", VStr ""); ("access", VStr "write")];
             VStr "mcp://example"]).
Proof.
  apply (@tools_one_line_per_rejected_entry
           (yields (VObj [("name", VStr "helper");
                          ("model", VStr "gemini-2.5-flash");
                          ("description", VStr "test");
                          ("tools",
                           VArr [VObj [("name", VStr "tools/a");
                                       ("access", VStr "read")];
                                 VObj [("server", VStr "");
                                       ("access", VStr "write")];
                                 VStr "mcp://example"])])) ""
           [("name", VStr "helper"); ("model", VStr "gemini-2.5-flash");
            ("description", VStr "test");
            ("tools",
             VArr [VObj [("name", VStr "tools/a"); ("access", VStr "read")];
                   VObj [("server", VStr ""); ("access", VStr "write")];
                   VStr "mcp://example"])]).
  - reflexivity.
  - reflexivity.
  - reflexivity.
Defined.

(** X8: each item of the skills list that is not a non-empty string is
    reported by exactly one line, at its position: "skills.i: String must
    contain at least 1 character(s)" for the empty string and "skills.i:
    Expected string, received <type>" for a value of another type.  These
    lines stand together in the issues of the error, in the order of the
    items; they name skills, and no other issue does. *)
Theorem skills_one_line_per_rejected_item parseYaml src fields items e :
  mapping_of parseYaml src fields ->
  get fields "skills" = VArr items ->
  parseAgentSpec parseYaml src = ThrowsSpecParseError e ->
  (exists before after,
     issues e = (before ++ skills_lines items ++ after)%list /\
     Forall (fun line => ~ names_field line "skills") (before ++ after)%list)
  /\
  Forall (fun line => names_field line "skills") (skills_lines items) /\
  length (skills_lines items) =
  length (filter (fun x => negb (nonemptyb x)) items).
Proof.
  intros M G H.
  assert (Hin : In ("skills", skillsSchema) agentSpecShape)
    by (simpl; auto 10).
  split; [|split].
  - rewrite <- (skills_report _ G).
    apply (@thrown_field_split _ _ _ _ _ M H Hin).
  - rewrite <- (skills_report _ G).
    apply (field_report_names_field fields ("skills", skillsSchema)).
  - apply rejected_count.
Qed.

Lemma skills_one_line_per_rejected_item_witness :
  (exists before after,
     issues (new_SpecParseError
               ["skills.0: String must contain at least 1 character(s)";
                "skills.2: Expected string, received number"]) =
     (before ++
      skills_lines [VStr ""; VStr "skills.sh/a/b@1.0"; VNum "7"] ++
      after)%list /\
     Forall (fun line => ~ names_field line "skills") (before ++ after)%list)
  /\
  Forall (fun line => names_field line "skills")
    (skills_lines [VStr ""; VStr "skills.sh/a/b@1.0"; VNum "7"]) /\
  length (skills_lines [VStr ""; VStr "skills.sh/a/b@1.0"; VNum "7"]) =
  length (filter (fun x => negb (nonemptyb x))
            [VStr ""; VStr "skills.sh/a/b@1.0"; VNum "7"]).
Proof.
  apply (@skills_one_line_per_rejected_item
           (yields (VObj [("name", VStr "helper");
                          ("model", VStr "gemini-2.5-flash");
                          ("description", VStr "test");
                          ("skills",
                           VArr [VStr ""; VStr "skills.sh/a/b@1.0";
                                 VNum "7"])])) ""
           [("name", VStr "helper"); ("model", VStr "gemini-2.5-flash");
            ("description", VStr "test");
            ("skills", VArr [VStr ""; VStr "skills.sh/a/b@1.0"; VNum "7"])]).
  - reflexivity.
  - reflexivity.
  - reflexivity.
Defined.

(** ** The value that is returned *)

Lemma merge_pairs_all_ok (pairs : list (string * parsed * bool)) :
  forall dirty obj,
    forallb (fun pair => is_ok (fst (snd (fst pair)))) pairs = true ->
    merge_pairs dirty obj pairs =
    (if dirty then DIRTY else OK) (VObj (obj ++ flat_map pair_kept pairs)).
Proof.
  induction pairs as [|[[key [ret zis]] a] pairs IH]; intros dirty obj H.
  - simpl. rewrite app_nil_r. destruct dirty; reflexivity.
  - cbn [forallb fst snd] in H. apply andb_true_iff in H as [Hret H].
    destruct ret as [x| |]; try discriminate Hret.
    cbn [merge_pairs flat_map]. rewrite (IH _ _ H), <- app_assoc.
    reflexivity.
Qed.

Lemma merge_pairs_value (pairs : list (string * parsed * bool)) dirty obj v :
  merge_pairs dirty obj pairs = OK v ->
  forallb (fun pair => is_ok (fst (snd (fst pair)))) pairs = true /\
  v = VObj (obj ++ flat_map pair_kept pairs).
Proof.
  intros H. pose proof (merge_pairs_ok pairs dirty obj) as O.
  rewrite H in O. simpl in O. symmetry in O.
  apply andb_true_iff in O as [D F]. split; [exact F|].
  rewrite (merge_pairs_all_ok pairs dirty obj F) in H.
  destruct dirty; [discriminate|]. now injection H.
Qed.

Lemma merge_items_all_ok (results : list parsed) :
  forall dirty arr,
    forallb (fun r => is_ok (fst r)) results = true ->
    merge_items dirty arr results =
    (if dirty then DIRTY else OK)
      (VArr (arr ++ map (fun r => returned_value (fst r)) results)).
Proof.
  induction results as [|[ret zis] results IH]; intros dirty arr H.
  - simpl. rewrite app_nil_r. destruct dirty; reflexivity.
  - cbn [forallb fst] in H. apply andb_true_iff in H as [Hret H].
    destruct ret as [x| |]; try discriminate Hret.
    cbn [merge_items map fst returned_value].
    rewrite (IH _ _ H), <- app_assoc. reflexivity.
Qed.

Lemma merge_items_exact (results : list parsed) dirty arr v :
  merge_items dirty arr results = OK v ->
  forallb (fun r => is_ok (fst r)) results = true /\
  v = VArr (arr ++ map (fun r => returned_value (fst r)) results).
Proof.
  intros H. pose proof (merge_items_ok results dirty arr) as O.
  rewrite H in O. simpl in O. symmetry in O.
  apply andb_true_iff in O as [D F]. split; [exact F|].
  rewrite (merge_items_all_ok results dirty arr F) in H.
  destruct dirty; [discriminate|]. now injection H.
Qed.

Lemma string_schema_value checks path v x :
  fst (settled (parse (ZodString checks) path v)) = OK x -> x = v.
Proof.
  cbn [parse settled]. unfold parse_string. destruct v; try discriminate.
  cbn [fst].
  destruct (filter _ checks); [|discriminate]. now intros [= <-].
Qed.

Lemma enum_schema_value values errorMap path v x :
  fst (settled (parse (ZodEnum values errorMap) path v)) = OK x -> x = v.
Proof.
  cbn [parse]. intros H.
  pose proof (parse_enum_ok values errorMap path v) as O.
  rewrite H in O. simpl in O. destruct v; try discriminate O.
  unfold parse_enum in H. rewrite <- O in H. cbn in H.
  now injection H as <-.
Qed.

Lemma union_two_value path r1 r2 out :
  fst (settled (union_loop path None [Done r1; Done r2])) = OK out ->
  fst r1 = OK out \/ (is_ok (fst r1) = false /\ fst r2 = OK out).
Proof.
  destruct r1 as [[x1|x1|] is1], r2 as [[x2|x2|] is2]; simpl;
    intros H; try discriminate H; auto.
Qed.

Lemma tool_entry_value path x out :
  fst (settled (parse toolSchema path x)) = OK out -> out = project_tool x.
Proof.
  unfold toolSchema.
  rewrite (@settled_union [mcpToolSchema; localToolSchema] path x eq_refl).
  cbn [map]. intros H.
  apply union_two_value in H.
  destruct x as [| | | | | |f| | | |];
    try (destruct H as [H|[_ H]]; discriminate H).
  assert (S := @tool_object_status "server" path f eq_refl).
  fold mcpToolSchema in S. unfold project_tool.
  destruct H as [H|[N H]].
  - rewrite H in S. simpl in S. symmetry in S.
    apply andb_true_iff in S as [_ S]. rewrite S.
    unfold mcpToolSchema in H. rewrite tool_object_parse in H by reflexivity.
    destruct (get f "server") as [| | | |s| | | | | |]; try discriminate H.
    destruct (get f "access") as [| | | |a| | | | | |]; try discriminate H.
    destruct (existsb _ _); [|discriminate H].
    destruct s; [discriminate H|]. now injection H as <-.
  - rewrite N in S. symmetry in S.
    unfold localToolSchema in H. rewrite tool_object_parse in H by reflexivity.
    destruct (get f "name") as [| | | |n| | | | | |]; try discriminate H.
    unfold access_okb in S.
    destruct (get f "access") as [| | | |a| | | | | |]; try discriminate H.
    destruct (existsb _ _); [|discriminate H]. simpl in S. rewrite S.
    destruct n; [discriminate H|]. now injection H as <-.
Qed.

Lemma acl_entry_value path x out :
  fst (settled (parse aclEntrySchema path x)) = OK out -> out = project_acl x.
Proof.
  destruct x as [| | | | | |f| | | |]; try discriminate.
  unfold aclEntrySchema. rewrite settled_object by reflexivity.
  cbn [fields_of parse map fst snd settled]. unfold mergeObjectSync.
  cbn [fst]. unfold parse_string, parse_enum, enum_issue, project_acl.
  destruct (get f "principal") as [| | | |p| | | | | |]; try discriminate.
  destruct (get f "role") as [| | | |r| | | | | |];
    try (destruct p; discriminate).
  destruct (existsb _ _); [|destruct p; discriminate].
  destruct p; [discriminate|]. cbn. now intros [= <-].
Qed.

Lemma indexed_values element (g : value -> value) path (items : list value) :
  (forall p y out, fst (settled (parse element p y)) = OK out -> out = g y) ->
  forall n,
    forallb (fun item =>
               is_ok (fst (settled (parse element (path ++ [Index (fst item)])
                             (snd item)))))
      (combine (seq n (length items)) items) = true ->
    map (fun item =>
           returned_value
             (fst (settled (parse element (path ++ [Index (fst item)])
                             (snd item)))))
      (combine (seq n (length items)) items) =
    map g items.
Proof.
  intros H. induction items as [|y items IH]; intros n F; [reflexivity|].
  cbn [length seq combine forallb map fst snd] in *.
  apply andb_true_iff in F as [Fy F]. f_equal; [|now apply IH].
  destruct (fst (settled (parse element (path ++ [Index n]) y))) eqn:E;
    try discriminate Fy.
  simpl. now apply H in E.
Qed.

Lemma optional_list_value element (g : value -> value) path v x :
  (forall p y out, fst (settled (parse element p y)) = OK out -> out = g y) ->
  fst (settled (parse (ZodOptional (ZodArray element)) path v)) = OK x ->
  x = project_list g v.
Proof.
  intros H. destruct v; try discriminate.
  - cbn. now intros [= <-].
  - change (parse (ZodOptional (ZodArray element)) path (VArr items))
      with (parse (ZodArray element) path (VArr items)).
    rewrite parse_array_eq.
    destruct (existsb _ (indexed items)); [discriminate|].
    cbn [settled]. unfold mergeArray. cbn [fst]. intros E.
    apply merge_items_exact in E. destruct E as [F ->].
    unfold project_list. f_equal. cbn [app].
    rewrite forallb_map_fn in F. rewrite map_map.
    now apply indexed_values.
Qed.

Lemma flat_map_ext_in {A B : Type} (f g : A -> list B) (l : list A) :
  (forall x, In x l -> f x = g x) -> flat_map f l = flat_map g l.
Proof.
  induction l as [|a l IH]; intros H; simpl; [reflexivity|].
  rewrite (H a) by now left. rewrite IH; [reflexivity|].
  intros x Hx. apply H. now right.
Qed.

Lemma field_value fields entry x :
  In entry agentSpecShape ->
  fst (settled (field_result fields entry)) = OK x ->
  x = project_field (fst entry) (get fields (fst entry)).
Proof.
  intros Hin E. unfold field_result in E. simpl in Hin.
  destruct Hin as [<-|[<-|[<-|[<-|[<-|[<-|[]]]]]]]; cbn [fst snd] in *;
    unfold project_field; cbn [String.eqb Ascii.eqb Bool.eqb].
  - now apply string_schema_value in E.
  - now apply enum_schema_value in E.
  - now apply string_schema_value in E.
  - unfold toolsSchema in E.
    apply (@optional_list_value toolSchema project_tool) in E; [exact E|].
    intros p y out. apply tool_entry_value.
  - unfold skillsSchema in E.
    apply (@optional_list_value (ZodString [check_min 1 None])
             (fun y => y)) in E.
    + rewrite E. destruct (get fields "skills"); try reflexivity.
      simpl. now rewrite map_id.
    + intros p y out. apply string_schema_value.
  - unfold aclSchema in E.
    apply (@optional_list_value aclEntrySchema project_acl) in E;
      [exact E|].
    intros p y out. apply acl_entry_value.
Qed.

Lemma field_kept fields entry x :
  In entry agentSpecShape ->
  fst (settled (field_result fields entry)) = OK x ->
  kept (fst entry) x (has_key fields (fst entry)) =
  if has_key fields (fst entry)
  then [(fst entry, project_field (fst entry) (get fields (fst entry)))]
  else [].
Proof.
  intros Hin E. rewrite <- (@field_value fields entry x Hin E).
  destruct (has_key fields (fst entry)) eqn:A.
  - unfold kept. rewrite orb_true_r, andb_true_r.
    simpl in Hin.
    destruct Hin as [<-|[<-|[<-|[<-|[<-|[<-|[]]]]]]]; reflexivity.
  - apply get_absent in A. unfold field_result in E. rewrite A in E.
    simpl in Hin.
    destruct Hin as [<-|[<-|[<-|[<-|[<-|[<-|[]]]]]]]; cbn in E;
      try discriminate E; injection E as <-; reflexivity.
Qed.

Lemma schema_value_exact fields v :
  fst (settled (parse agentSpecSchema [] (VObj fields))) = OK v ->
  v = VObj (returned_fields fields).
Proof.
  intros E. rewrite (@agentSpec_parse_eq (VObj fields) fields eq_refl) in E.
  destruct (prints (get fields "model")); [|discriminate E].
  cbn [settled] in E.
  unfold mergeObjectSync in E. cbn [fst] in E.
  apply merge_pairs_value in E. destruct E as [F ->]. f_equal. cbn [app].
  rewrite forallb_map_fn in F. rewrite forallb_forall in F.
  unfold returned_fields, field_names. rewrite !flat_map_of_map.
  apply flat_map_ext_in. intros entry Hin. specialize (F entry Hin).
  cbn [fst snd] in F. unfold pair_kept. cbn [fst snd].
  destruct (fst (settled (field_result fields entry))) as [x| |] eqn:E;
    try discriminate F.
  cbn [returned_value]. now apply field_kept.
Qed.

Lemma returned_spec_exact parseYaml src fields spec :
  mapping_of parseYaml src fields ->
  parseAgentSpec parseYaml src = Returns spec ->
  spec = VObj (returned_fields fields).
Proof.
  intros M R. rewrite (@parseAgentSpec_mapping _ _ _ M) in R.
  destruct (prints (get fields "model")); [|discriminate R].
  destruct (fst (settled (parse agentSpecSchema [] (VObj fields))))
    as [v| |] eqn:E; try discriminate R.
  injection R as ->. now apply schema_value_exact.
Qed.

(** X9: what parseAgentSpec returns.  For an accepted mapping the returned
    AgentSpec holds exactly the recognized keys the mapping has, in the order
    name, model, description, tools, skills, acl whatever their order in the
    document; name, model, description and skills carry the document's
    values unchanged, every tools entry is reduced to [{server, access}] (when
    its server is a non-empty string) or else to [{name, access}], and every
    acl entry to [{principal, role}], at the same positions. *)
Theorem returns_exactly_recognized_part parseYaml src fields spec :
  mapping_of parseYaml src fields ->
  parseAgentSpec parseYaml src = Returns spec ->
  spec = VObj (returned_fields fields).
Proof.
  intros M R. rewrite (@parseAgentSpec_mapping _ _ _ M) in R.
  destruct (prints (get fields "model")); [|discriminate R].
  destruct (fst (settled (parse agentSpecSchema [] (VObj fields))))
    as [v| |] eqn:E; try discriminate R.
  injection R as ->. now apply schema_value_exact.
Qed.

Lemma returns_exactly_recognized_part_witness :
  VObj [("name", VStr "helper"); ("model", VStr "gemini-2.5-flash");
        ("description", VStr "test");
        ("tools", VArr [VObj [("server", VStr "mcp://example");
                              ("access", VStr "read")]]);
        ("acl", VArr [acl_entry "user:connor"])] =
  VObj (returned_fields
          (decorate [("desciption", VStr "typo")]
             (fun _ => [("acess", VStr "write")])
             (fun _ => [("rol", VStr "read")]) doc_plain)).
Proof.
  apply (@returns_exactly_recognized_part reader_plain_or_decorated
           "decorated"
           (decorate [("desciption", VStr "typo")]
              (fun _ => [("acess", VStr "write")])
              (fun _ => [("rol", VStr "read")]) doc_plain)).
  - reflexivity.
  - reflexivity.
Defined.

(** ** Parsing what was returned *)

Lemma singletons_lookup (present : string -> bool) (g : string -> value)
  (names : list string) (k0 : string) :
  NoDup names ->
  has_key (flat_map (fun k => if present k then [(k, g k)] else []) names) k0
  = (if in_dec string_dec k0 names then present k0 else false) /\
  get (flat_map (fun k => if present k then [(k, g k)] else []) names) k0
  = (if in_dec string_dec k0 names
     then if present k0 then g k0 else VUndefined
     else VUndefined).
Proof.
  induction names as [|k names IH]; intros ND; [split; reflexivity|].
  inversion ND as [|? ? Hnotin ND']; subst.
  destruct (IH ND') as [IHh IHg]. cbn [flat_map].
  rewrite has_key_app, get_app.
  destruct (in_dec string_dec k0 (k :: names)) as [Hin|Hout].
  - destruct Hin as [->|Hin].
    + destruct (in_dec string_dec k0 names) as [?|_]; [contradiction|].
      rewrite IHh, IHg. destruct (present k0); simpl.
      * now rewrite String.eqb_refl.
      * split; reflexivity.
    + destruct (in_dec string_dec k0 names) as [_|?]; [|contradiction].
      assert (N : String.eqb k k0 = false)
        by (apply String.eqb_neq; intros ->; contradiction).
      rewrite IHh, IHg. destruct (present k); simpl; rewrite ?N; simpl;
        split; reflexivity.
  - assert (N : String.eqb k k0 = false)
      by (apply String.eqb_neq; intros ->; apply Hout; now left).
    destruct (in_dec string_dec k0 names) as [?|_];
      [exfalso; apply Hout; now right|].
    rewrite IHh, IHg. destruct (present k); simpl; rewrite ?N; simpl;
      split; reflexivity.
Qed.

Lemma field_names_NoDup : NoDup field_names.
Proof. repeat constructor; simpl; intuition discriminate. Qed.

Lemma returned_fields_lookup fields k :
  In k field_names ->
  has_key (returned_fields fields) k = has_key fields k /\
  get (returned_fields fields) k = project_field k (get fields k).
Proof.
  intros Hin. unfold returned_fields.
  destruct (@singletons_lookup (has_key fields)
              (fun k => project_field k (get fields k)) field_names k
              field_names_NoDup) as [-> ->].
  destruct (in_dec string_dec k field_names) as [_|?]; [|contradiction].
  split; [reflexivity|].
  destruct (has_key fields k) eqn:A; [reflexivity|].
  rewrite (get_absent _ _ A). unfold project_field.
  destruct (String.eqb k "tools"); [reflexivity|].
  destruct (String.eqb k "acl"); reflexivity.
Qed.

Lemma project_tool_stable x :
  tool_entry_ok x = true ->
  tool_entry_ok (project_tool x) = true /\
  project_tool (project_tool x) = project_tool x.
Proof.
  destruct x as [| | | | | |f| | | |]; try discriminate.
  unfold tool_entry_ok, project_tool, access_okb. intros H.
  apply andb_true_iff in H as [A S].
  destruct (get f "access") as [| | | |a| | | | | |]; try discriminate A.
  destruct (nonemptyb (get f "server")) eqn:Ns.
  - cbn [get String.eqb Ascii.eqb Bool.eqb]. rewrite A, Ns.
    split; reflexivity.
  - simpl in S. cbn [get String.eqb Ascii.eqb Bool.eqb]. rewrite A, S.
    split; reflexivity.
Qed.

Lemma project_acl_stable x :
  acl_entry_valid x ->
  acl_entry_valid (project_acl x) /\
  project_acl (project_acl x) = project_acl x.
Proof.
  intros (f & p & -> & P & Hp & R). unfold project_acl. split.
  - eexists. exists p. split; [reflexivity|]. cbn. rewrite P.
    repeat split; auto.
  - reflexivity.
Qed.

Lemma project_list_stable (Q : value -> Prop) (g : value -> value) v :
  (forall x, Q x -> Q (g x) /\ g (g x) = g x) ->
  absent_or_list_of Q v ->
  absent_or_list_of Q (project_list g v) /\
  project_list g (project_list g v) = project_list g v.
Proof.
  intros H [->|(items & -> & F)].
  - split; [now left | reflexivity].
  - split.
    + right. exists (map g items). split; [reflexivity|].
      apply Forall_map. eapply Forall_impl; [|exact F].
      intros x Qx. now apply H.
    + simpl. f_equal. rewrite map_map. apply map_ext_in.
      intros x Hx. rewrite Forall_forall in F. now apply H, F.
Qed.

Lemma field_projected fields entry :
  In entry agentSpecShape ->
  field_valid fields entry = true ->
  field_valid (returned_fields fields) entry = true /\
  project_field (fst entry) (get (returned_fields fields) (fst entry)) =
  get (returned_fields fields) (fst entry).
Proof.
  intros Hin V.
  assert (Hk : In (fst entry) field_names)
    by (unfold field_names; now apply in_map).
  destruct (@returned_fields_lookup fields _ Hk) as [_ G].
  unfold field_valid, field_result in *. rewrite G. clear G Hk.
  simpl in Hin.
  destruct Hin as [<-|[<-|[<-|[<-|[<-|[<-|[]]]]]]]; cbn [fst snd] in *;
    unfold project_field; cbn [String.eqb Ascii.eqb Bool.eqb];
    try (split; [exact V | reflexivity]).
  - unfold toolsSchema in *.
    rewrite (optional_list_status (fun x => tool_entry_ok x = true)) in *
      by (intros p x; now rewrite tool_entry_status).
    apply project_list_stable; [|exact V]. apply project_tool_stable.
  - unfold aclSchema in *.
    rewrite (optional_list_status acl_entry_valid) in *
      by (intros p x; apply acl_entry_status).
    apply project_list_stable; [|exact V]. apply project_acl_stable.
Qed.

Lemma returned_fields_stable fields :
  forallb (field_valid fields) agentSpecShape = true ->
  forallb (field_valid (returned_fields fields)) agentSpecShape = true /\
  returned_fields (returned_fields fields) = returned_fields fields.
Proof.
  intros V. rewrite forallb_forall in V. split.
  - apply forallb_forall. intros entry Hin.
    now apply field_projected, V.
  - unfold returned_fields at 1 3. unfold field_names.
    rewrite !flat_map_of_map. apply flat_map_ext_in. intros entry Hin.
    assert (Hk : In (fst entry) field_names)
      by (unfold field_names; now apply in_map).
    destruct (@returned_fields_lookup fields _ Hk) as [-> G].
    destruct (@field_projected fields entry Hin (V _ Hin)) as [_ ->].
    now rewrite G.
Qed.

(** X10: validation is idempotent.  An AgentSpec that parseAgentSpec
    returned is itself an acceptable document: when the YAML reader yields
    that very value, parseAgentSpec returns it again, unchanged. *)
Theorem returned_spec_parses_to_itself parseYaml src src' spec :
  parseAgentSpec parseYaml src = Returns spec ->
  parseYaml src' = YamlValue spec ->
  parseAgentSpec parseYaml src' = Returns spec.
Proof.
  intros R Y'. destruct (returns_only_mappings _ _ R) as [fields M].
  pose proof (returned_spec_exact M R) as ->.
  assert (V : forallb (field_valid fields) agentSpecShape = true)
    by (apply (parseAgentSpec_returns_iff M);
        now exists (VObj (returned_fields fields))).
  destruct (returned_fields_stable fields V) as [V' S].
  apply (parseAgentSpec_returns_iff Y') in V'. destruct V' as [spec' R'].
  rewrite R'. f_equal.
  rewrite (returned_spec_exact Y' R'). now rewrite S.
Qed.

Lemma returned_spec_parses_to_itself_witness :
  parseAgentSpec
    (fun src =>
       if String.eqb src "first"
       then YamlValue
              (VObj (decorate [("desciption", VStr "typo")]
                       (fun _ => [("acess", VStr "write")])
                       (fun _ => [("rol", VStr "read")]) doc_plain))
       else YamlValue (VObj doc_plain)) "second" =
  Returns (VObj doc_plain).
Proof.
  apply (@returned_spec_parses_to_itself
           (fun src =>
              if String.eqb src "first"
              then YamlValue
                     (VObj (decorate [("desciption", VStr "typo")]
                              (fun _ => [("acess", VStr "write")])
                              (fun _ => [("rol", VStr "read")]) doc_plain))
              else YamlValue (VObj doc_plain)) "first" "second").
  - reflexivity.
  - reflexivity.
Defined.

(** ** The lines of the acl list *)

Lemma acl_entry_report (i : nat) (x : value) :
  formatZodIssues
    (snd (settled (parse aclEntrySchema [Key "acl"; Index i] x))) =
  acl_entry_lines i x.
Proof.
  unfold aclEntrySchema, acl_entry_lines.
  rewrite settled_object by reflexivity.
  destruct (fields_of x) as [f|];
    [|cbn -[formatZodIssue at_index invalid_type_message];
      now rewrite format_at_index].
  cbn [parse map fst snd settled].
  unfold mergeObjectSync, formatZodIssues. cbn [snd flat_map pair_issues fst].
  rewrite app_nil_r, map_app. f_equal.
  - unfold parse_string.
    destruct (get f "principal") as [| | | |p| | | | | |];
      try (cbn -[formatZodIssue at_index invalid_type_message];
           now rewrite format_at_index_key).
    destruct p; [|reflexivity].
    cbn -[formatZodIssue at_index]. now rewrite format_at_index_key.
  - unfold parse_enum, enum_issue.
    destruct (get f "role") as [| | | |r| | | | | |];
      try (cbn -[formatZodIssue at_index invalid_type_message joinValues];
           now rewrite format_at_index_key).
    destruct (existsb (String.eqb r) ["execute"; "read"]); [reflexivity|].
    cbn -[formatZodIssue at_index invalid_enum_value_message].
    now rewrite format_at_index_key.
Qed.

Lemma acl_entry_lines_nil (i : nat) (x : value) :
  acl_entry_lines i x = [] <-> acl_entry_valid x.
Proof.
  rewrite <- acl_entry_report, <- (acl_entry_status [Key "acl"; Index i]).
  pose proof (@parse_consistent aclEntrySchema [Key "acl"; Index i] x _
                (@plain_done aclEntrySchema [Key "acl"; Index i] x
                   aclEntry_plain)) as C.
  unfold consistent in C.
  destruct (is_ok (fst (settled
                          (parse aclEntrySchema [Key "acl"; Index i] x)))).
  - rewrite C. split; reflexivity.
  - split; [|discriminate]. intros E. exfalso. apply C.
    unfold formatZodIssues in E. now apply map_eq_nil in E.
Qed.

Lemma acl_report fields items :
  get fields "acl" = VArr items ->
  field_report fields ("acl", aclSchema) = acl_lines items.
Proof.
  intros G. unfold aclSchema, acl_lines.
  apply (@list_report aclEntrySchema "acl" fields items
           (fun item => acl_entry_lines (fst item) (snd item)) eq_refl G).
  intros i x. apply acl_entry_report.
Qed.

(** X11: the acl list is reported entry by entry, and inside an entry the
    principal and the role are checked independently: an entry whose
    principal is empty and whose role is outside execute and read gets both
    "acl.i.principal: String must contain at least 1 character(s)" and
    "acl.i.role: Invalid enum value. Expected 'execute' | 'read', received
    '...'"; a scalar, a list or null in place of an entry gets "acl.i:
    Expected object, received <type>"; a binary value counts as an object
    without properties and gets "acl.i.principal: Required" and
    "acl.i.role: Required"; an entry gets no line exactly when it is valid.
    These lines stand together in the issues of the error, in the order of
    the entries; they name acl, and no other issue does. *)
Theorem acl_lines_per_entry parseYaml src fields items e :
  mapping_of parseYaml src fields ->
  get fields "acl" = VArr items ->
  parseAgentSpec parseYaml src = ThrowsSpecParseError e ->
  (exists before after,
     issues e = (before ++ acl_lines items ++ after)%list /\
     Forall (fun line => ~ names_field line "acl") (before ++ after)%list) /\
  Forall (fun line => names_field line "acl") (acl_lines items) /\
  (forall i x, acl_entry_lines i x = [] <-> acl_entry_valid x).
Proof.
  intros M G H.
  assert (Hin : In ("acl", aclSchema) agentSpecShape) by (simpl; auto 10).
  split; [|split].
  - rewrite <- (acl_report _ G).
    apply (@thrown_field_split _ _ _ _ _ M H Hin).
  - rewrite <- (acl_report _ G).
    apply (field_report_names_field fields ("acl", aclSchema)).
  - intros i x. apply acl_entry_lines_nil.
Qed.

Lemma acl_lines_per_entry_witness :
  (exists before after,
     issues
       (new_SpecParseError
          ["acl.0.principal: String must contain at least 1 character(s)";
           "acl.0.role: Invalid enum value. Expected 'execute' | 'read', received 'admin'";
           "acl.1: Expected object, received string";
           "acl.2.principal: Required";
           "acl.2.role: Required"]) =
     (before ++
      acl_lines [VObj [("principal", VStr ""); ("role", VStr "admin")];
                 VStr "user:connor"; VBuffer "aGVsbG8="] ++ after)%list /\
     Forall (fun line => ~ names_field line "acl") (before ++ after)%list) /\
  Forall (fun line => names_field line "acl")
    (acl_lines [VObj [("principal", VStr ""); ("role", VStr "admin")];
                VStr "user:connor"; VBuffer "aGVsbG8="]) /\
  (forall i x, acl_entry_lines i x = [] <-> acl_entry_valid x).
Proof.
  apply (@acl_lines_per_entry
           (yields (VObj [("name", VStr "helper");
                          ("model", VStr "gemini-2.5-flash");
                          ("description", VStr "test");
                          ("acl",
                           VArr [VObj [("principal", VStr "");
                                       ("role", VStr "admin")];
                                 VStr "user:connor";
                                 VBuffer "aGVsbG8="])])) ""
           [("name", VStr "helper"); ("model", VStr "gemini-2.5-flash");
            ("description", VStr "test");
            ("acl",
             VArr [VObj [("principal", VStr ""); ("role", VStr "admin")];
                   VStr "user:connor"; VBuffer "aGVsbG8="])]).
  - reflexivity.
  - reflexivity.
  - reflexivity.
Defined.

(** ** The lines of a bad description *)

(** X12: in a mapping whose other fields are valid, a missing description
    gives the single issue "description: Required", and an empty description
    the single issue "description: Agent description is required". *)
Theorem description_issue_lines parseYaml src fields :
  mapping_of parseYaml src fields ->
  (forall other, In other agentSpecShape -> fst other <> "description" ->
                 field_valid fields other = true) ->
  (get fields "description" = VUndefined ->
   parseAgentSpec parseYaml src =
   ThrowsSpecParseError (new_SpecParseError ["description: Required"])) /\
  (get fields "description" = VStr "" ->
   parseAgentSpec parseYaml src =
   ThrowsSpecParseError
     (new_SpecParseError ["description: Agent description is required"])).
Proof.
  intros M Others.
  assert (Hin : In ("description", descriptionSchema) agentSpecShape)
    by (simpl; auto).
  assert (P : prints (get fields "model") = true).
  { apply valid_model_field_prints, Others; [simpl; auto | discriminate]. }
  split; intros G;
    (rewrite (@single_invalid_field parseYaml src fields
                ("description", descriptionSchema) M Hin Others);
     [| |exact P]);
    unfold field_report, field_valid, field_result; cbn [fst snd];
    rewrite G; reflexivity.
Qed.

Lemma description_issue_lines_witness :
  (get [("name", VStr "helper"); ("model", VStr "gemini-2.5-flash")]
     "description" = VUndefined ->
   parseAgentSpec
     (yields (VObj [("name", VStr "helper");
                    ("model", VStr "gemini-2.5-flash")])) "" =
   ThrowsSpecParseError (new_SpecParseError ["description: Required"])) /\
  (get [("name", VStr "helper"); ("model", VStr "gemini-2.5-flash")]
     "description" = VStr "" ->
   parseAgentSpec
     (yields (VObj [("name", VStr "helper");
                    ("model", VStr "gemini-2.5-flash")])) "" =
   ThrowsSpecParseError
     (new_SpecParseError ["description: Agent description is required"])).
Proof.
  apply (@description_issue_lines
           (yields (VObj [("name", VStr "helper");
                          ("model", VStr "gemini-2.5-flash")])) ""
           [("name", VStr "helper"); ("model", VStr "gemini-2.5-flash")]).
  - reflexivity.
  - intros other H N. simpl in H.
    repeat (destruct H as [<-|H]; [try reflexivity; now destruct N|]).
    destruct H.
Defined.

(** ** Issues are local to their field *)

(** X13: the lines about a field depend on that field alone.  When two
    rejected mappings hold the same value under a recognized key, their
    errors have the same lines naming that key, whatever else differs
    between the two documents. *)
Theorem field_issues_are_local parseYaml src src' fields fields' e e' entry :
  mapping_of parseYaml src fields ->
  mapping_of parseYaml src' fields' ->
  parseAgentSpec parseYaml src = ThrowsSpecParseError e ->
  parseAgentSpec parseYaml src' = ThrowsSpecParseError e' ->
  In entry agentSpecShape ->
  get fields (fst entry) = get fields' (fst entry) ->
  forall line,
    names_field line (fst entry) ->
    (In line (issues e) <-> In line (issues e')).
Proof.
  intros M M' H H' Hin G line N.
  pose proof (@thrown_lines_of_field parseYaml src fields e entry line
                M H Hin) as L.
  pose proof (@thrown_lines_of_field parseYaml src' fields' e' entry line
                M' H' Hin) as L'.
  assert (R : field_report fields entry = field_report fields' entry)
    by (unfold field_report, field_result; now rewrite G).
  rewrite R in L. tauto.
Qed.

Lemma field_issues_are_local_witness :
  In (unknown_model_line "gpt-5")
    (issues (new_SpecParseError
               [name_pattern_line; unknown_model_line "gpt-5"])) <->
  In (unknown_model_line "gpt-5")
    (issues (new_SpecParseError
               ["name: Required"; unknown_model_line "gpt-5";
                "description: Required"])).
Proof.
  apply (@field_issues_are_local reader_two_rejected "bad name"
           "model only"
           [("name", VStr "Bad Name"); ("model", VStr "gpt-5");
            ("description", VStr "test")]
           [("model", VStr "gpt-5")]
           (new_SpecParseError
              [name_pattern_line; unknown_model_line "gpt-5"])
           (new_SpecParseError
              ["name: Required"; unknown_model_line "gpt-5";
               "description: Required"])
           ("model", modelSchema)).
  - reflexivity.
  - reflexivity.
  - reflexivity.
  - reflexivity.
  - simpl. auto.
  - reflexivity.
  - left. reflexivity.
Defined.
